(** * MCM file compressor: the wav16 codec core and its cyclic buffer

    A shallow embedding of [CyclicBuffer.hpp] and [Wav16.hpp] together with
    the properties of the codec that the design document states.

    Conventions.
    - [size_t] and [uint64_t] are 64-bit unsigned integers, [uint32_t] and
      [uint16_t] are 32- and 16-bit ones: all are modelled as [Z] with the
      wrap-around written out ([wrap64], [wrap32], [wrap16]).
    - A heap block is a [list]; an access outside the block is undefined
      behaviour in C++ and is modelled as [None].
    - The model table, a [std::vector] of 65536 entries, is a size and the
      finite map of the entries written so far ([vec]); all others hold
      the initial model.  A subscript outside the size is [None].
    - A pointer into a block is the offset of its target inside the block. *)

From stdpp Require Import base numbers option list gmap.
From Stdlib Require Import ZArith Lia.

Local Open Scope Z_scope.

(** ** Machine integers *)

Definition wrap64 (x : Z) : Z := x mod 2 ^ 64.
Definition wrap32 (x : Z) : Z := x mod 2 ^ 32.
Definition wrap16 (x : Z) : Z := x mod 2 ^ 16.

(** ** Arrays with checked accesses *)

Definition load {T} (blk : list T) (i : Z) : option T :=
  if decide (0 <= i) then blk !! Z.to_nat i else None.

Definition store {T} (blk : list T) (i : Z) (v : T) : option (list T) :=
  if decide (0 <= i < Z.of_nat (length blk))
  then Some (<[Z.to_nat i := v]> blk) else None.

(** A vector all of whose entries start as one initial value [d]. *)
Record vec (T : Type) := mkvec {
  v_size : Z;
  v_elts : gmap Z T
}.
Arguments mkvec {T}.
Arguments v_size {T}.
Arguments v_elts {T}.

Definition vec_new {T} (n : Z) : vec T := mkvec n ∅.

Definition vload {T} (d : T) (v : vec T) (i : Z) : option T :=
  if decide (0 <= i < v_size v) then Some (default d (v_elts v !! i))
  else None.

Definition vstore {T} (v : vec T) (i : Z) (x : T) : option (vec T) :=
  if decide (0 <= i < v_size v)
  then Some (mkvec (v_size v) (<[i := x]> (v_elts v))) else None.

(** ** CyclicBuffer.hpp *)

Module CyclicBuffer.
Section Buffer.

Context {T : Type}.
(** The value-initialised element of [new T[n]()]. *)
Variable zero : T.

(** [storage_] is the allocated block; [data_] is the offset of the
    pointer [data_] inside that block. *)
Record t := mk {
  pos_ : Z;
  mask_ : Z;
  alloc_size_ : Z;
  storage_ : list T;
  data_ : Z
}.

Definition getPos (b : t) : Z := pos_ b.
Definition getMask (b : t) : Z := mask_ b.

Definition prev (b : t) (pos count : Z) : Z :=
  Z.land (wrap64 (pos - count)) (mask_ b).

Definition next (b : t) (pos count : Z) : Z :=
  Z.land (wrap64 (pos + count)) (mask_ b).

Definition getSize (b : t) : Z := wrap64 (mask_ b + 1).

Definition restart (b : t) : t :=
  mk 0 (mask_ b) (alloc_size_ b) (storage_ b) (data_ b).

(** [data_[pos_++ & mask_] = val] *)
Definition push (b : t) (val : T) : option t :=
  st ← store (storage_ b) (data_ b + Z.land (pos_ b) (mask_ b)) val;
  Some (mk (wrap64 (pos_ b + 1)) (mask_ b) (alloc_size_ b) st (data_ b)).

(** [std::copy_n(src, n, &blk[off])] *)
Fixpoint copy_n (src : list T) (n : nat) (blk : list T) (off : Z)
  {struct n} : option (list T) :=
  match n with
  | O => Some blk
  | S n' =>
      match src with
      | [] => None
      | x :: src' => blk' ← store blk off x; copy_n src' n' blk' (off + 1)
      end
  end.

Definition push_n (b : t) (elements : list T) (count : Z) : option t :=
  let masked_pos := Z.land (pos_ b) (mask_ b) in
  let max_c := wrap64 (1 + mask_ b - masked_pos) in
  let cur := Z.min max_c count in
  st ← copy_n elements (Z.to_nat cur) (storage_ b) (data_ b + masked_pos);
  let pos' := wrap64 (pos_ b + count) in
  let count' := wrap64 (count - cur) in
  st' ← (if decide (0 < count')
         then copy_n (drop (Z.to_nat cur) elements) (Z.to_nat count') st
                     (data_ b + 0)
         else Some st);
  Some (mk pos' (mask_ b) (alloc_size_ b) st' (data_ b)).

(** [operator[]] (masked) and [operator()] (unmasked). *)
Definition get (b : t) (offset : Z) : option T :=
  load (storage_ b) (data_ b + Z.land offset (mask_ b)).

Definition get_raw (b : t) (offset : Z) : option T :=
  load (storage_ b) (data_ b + offset).

(** [std::fill(first, first + n, d)] on the block, from offset [off]. *)
Fixpoint fill_n (blk : list T) (off : Z) (n : nat) (d : T)
  : option (list T) :=
  match n with
  | O => Some blk
  | S n' => blk' ← store blk off d; fill_n blk' (off + 1) n' d
  end.

Definition fill (b : t) (d : T) : option t :=
  st ← fill_n (storage_ b) 0 (Z.to_nat (getSize b)) d;
  Some (mk (pos_ b) (mask_ b) (alloc_size_ b) st (data_ b)).

(** [resize]: the assertion is modelled as a failure; [delete[]] of the
    old block has no counterpart. *)
Definition resize (b : t) (new_size padding : Z) : option t :=
  if decide (Z.land new_size (wrap64 (new_size - 1)) = 0) then
    let mask := wrap64 (new_size - 1) in
    let alloc_size := wrap64 (new_size + padding * 2) in
    Some (restart (mk (pos_ b) mask alloc_size
                      (replicate (Z.to_nat alloc_size) zero) padding))
  else None.

(** The constructor leaves [pos_], [alloc_size_] and [data_] indeterminate;
    they are given here as 0. *)
Definition empty : t := mk 0 0 0 [] 0.

(** [push] of every element of a list, in order. *)
Fixpoint push_all (b : t) (l : list T) : option t :=
  match l with
  | [] => Some b
  | x :: l' => b' ← push b x; push_all b' l'
  end.

(** [release]: after [delete[]] there is no block; the null pointers are
    the empty block at offset 0, where every access is undefined. *)
Definition release (b : t) : t := mk 0 (wrap64 (-1)) 0 [] 0.

(** [for (i = 0; i < count; ++i) data_[size + i] = data_[i];], the [n]
    rounds from [i] on. *)
Fixpoint copyStartToEnd_loop (n : nat) (data size i : Z) (blk : list T)
  : option (list T) :=
  match n with
  | O => Some blk
  | S n' =>
      x ← load blk (data + i);
      blk' ← store blk (data + wrap64 (size + i)) x;
      copyStartToEnd_loop n' data size (i + 1) blk'
  end.

Definition copyStartToEndOfBuffer (b : t) (count : Z) : option t :=
  st ← copyStartToEnd_loop (Z.to_nat count) (data_ b) (getSize b) 0
                           (storage_ b);
  Some (mk (pos_ b) (mask_ b) (alloc_size_ b) st (data_ b)).

(** [for (i = 0; i < count; ++i) storage_[i] = storage_[i + size];] *)
Fixpoint copyEndToStart_loop (n : nat) (size i : Z) (blk : list T)
  : option (list T) :=
  match n with
  | O => Some blk
  | S n' =>
      x ← load blk (wrap64 (i + size));
      blk' ← store blk i x;
      copyEndToStart_loop n' size (i + 1) blk'
  end.

Definition copyEndToStartOfBuffer (b : t) (count : Z) : option t :=
  st ← copyEndToStart_loop (Z.to_nat count) (getSize b) 0 (storage_ b);
  Some (mk (pos_ b) (mask_ b) (alloc_size_ b) st (data_ b)).

(** A buffer as [resize] leaves it, at any position: capacity [2 ^ k], the
    data area inside the block. *)
Definition wf (b : t) (k : Z) : Prop :=
  0 <= k < 64 /\ mask_ b = 2 ^ k - 1 /\
  0 <= pos_ b < 2 ^ 64 /\
  0 <= data_ b /\
  data_ b + 2 ^ k <= Z.of_nat (length (storage_ b)).

(** The same with the layout of [resize(2 ^ k, p)]: [p] elements of
    padding on either side of the data area. *)
Definition padded (b : t) (k p : Z) : Prop :=
  0 <= k < 64 /\ mask_ b = 2 ^ k - 1 /\
  0 <= pos_ b < 2 ^ 64 /\
  0 <= p /\ data_ b = p /\
  Z.of_nat (length (storage_ b)) = 2 ^ k + 2 * p.

End Buffer.
End CyclicBuffer.

(** [CyclicDeque<T>]: the buffer with a count of elements and the position
    of the oldest.  [assert] and [dcheck] are modelled as failures. *)
Module CyclicDeque.
Section Deque.

Context {T : Type}.
Variable zero : T.

Record t := mk {
  buf : CyclicBuffer.t (T:=T);
  size_ : Z;
  front_pos_ : Z
}.

(** [CyclicDeque() : size_(0), front_pos_(0)] *)
Definition new : t := mk CyclicBuffer.empty 0 0.

Definition capacity (d : t) : Z := wrap64 (CyclicBuffer.mask_ (buf d) + 1).

Definition pop_front (d : t) (count : Z) : option t :=
  if decide (count <= size_ d) then
    Some (mk (buf d) (wrap64 (size_ d - count))
             (wrap64 (front_pos_ d + count)))
  else None.

Definition push_n (d : t) (elements : list T) (count : Z) : option t :=
  if decide (wrap64 (size_ d + count) <= capacity d) then
    b ← CyclicBuffer.push_n (buf d) elements count;
    Some (mk b (wrap64 (size_ d + count)) (front_pos_ d))
  else None.

Definition push_back (d : t) (c : T) : option t :=
  if decide (size_ d < capacity d) then
    b ← CyclicBuffer.push (buf d) c;
    Some (mk b (wrap64 (size_ d + 1)) (front_pos_ d))
  else None.

Definition front (d : t) : option T :=
  load (CyclicBuffer.storage_ (buf d))
       (CyclicBuffer.data_ (buf d)
        + Z.land (front_pos_ d) (CyclicBuffer.mask_ (buf d))).

Definition size (d : t) : Z := size_ d.

(** [operator[]] *)
Definition get (d : t) (offset : Z) : option T :=
  load (CyclicBuffer.storage_ (buf d))
       (CyclicBuffer.data_ (buf d)
        + Z.land (wrap64 (front_pos_ d + offset))
                 (CyclicBuffer.mask_ (buf d))).

Definition full (d : t) : bool := bool_decide (size d = capacity d).
Definition empty (d : t) : bool := bool_decide (size d = 0).

(** The inherited [resize]: it restarts the buffer and leaves [size_] and
    [front_pos_] as they are. *)
Definition resize (d : t) (new_size padding : Z) : option t :=
  b ← CyclicBuffer.resize zero (buf d) new_size padding;
  Some (mk b (size_ d) (front_pos_ d)).

(** A deque of capacity [2 ^ k] in use: the buffer is written at the
    position behind the newest element. *)
Definition inv (d : t) (k : Z) : Prop :=
  CyclicBuffer.wf (buf d) k /\
  0 <= size_ d <= 2 ^ k /\
  0 <= front_pos_ d < 2 ^ 64 /\
  CyclicBuffer.pos_ (buf d) = wrap64 (front_pos_ d + size_ d).

(** The deque holds the elements of [l], oldest first. *)
Definition holds (d : t) (l : list T) : Prop :=
  Z.of_nat (length l) = size_ d /\
  forall (i : nat) x, l !! i = Some x -> get d (Z.of_nat i) = Some x.

End Deque.
End CyclicDeque.

(** ** Interfaces of the headers that [Wav16.hpp] includes

    [Model.hpp], [Range.hpp] and [Stream.hpp] are not part of the verified
    sources.  The codec is therefore written over their interfaces, exactly
    the member functions that [Wav16.hpp] calls. *)

(** [fastBitModel<int, kShift, 9, 30>]: [init()], [getP()], [update(bit)]. *)
Class StationaryModel (M : Type) := {
  m_init : M;
  getP : M -> Z;
  update : M -> Z -> M
}.

(** [Range7].  The stream argument of each member is threaded explicitly:
    for the encoder it is the list of octets written so far, for the
    decoder the list of octets not yet read. *)
Class Range7 (R : Type) := {
  rc_new : R;
  encode : R -> list Z -> Z -> Z -> Z -> R * list Z;
  encodeBit : R -> list Z -> Z -> R * list Z;
  flush : R -> list Z -> R * list Z;
  initDecoder : R -> list Z -> R * list Z;
  getDecodedBit : R -> Z -> Z -> R * Z;
  Normalize : R -> list Z -> R * list Z;
  decodeBit : R -> list Z -> R * list Z * Z
}.

(** [BufferedStreamReader::get] and [BufferedStreamWriter::put]. *)
Definition EOF : Z := -1.

Definition stream_get (sin : list Z) : Z * list Z :=
  match sin with
  | [] => (EOF, [])
  | c :: sin' => (c, sin')
  end.

Definition stream_put (sout : list Z) (c : Z) : list Z := sout ++ [c mod 256].

(** ** Wav16.hpp *)

(** Conversion of a [uint32_t] value to [int]. *)
Definition to_int (x : Z) : Z :=
  let y := wrap32 x in if decide (y < 2 ^ 31) then y else y - 2 ^ 32.

Module Wav16.

Definition kShift : Z := 12.
Definition kMaxValue : Z := wrap32 (Z.shiftl 1 kShift).
Definition kContextBits : Z := 2.

(** [Wav16::LinearMixer].  The body of [if (false && error)] in [update]
    is dead and left out; [printWeights] only writes to [std::cout]. *)
Module LinearMixer.

Definition kShift : Z := 16.
Definition kWeights : Z := 4.

Record t := mk { w : list Z }.

(** [for (auto& n : w) n = (1u << kShift) / kWeights;] *)
Definition new : t :=
  mk (replicate (Z.to_nat kWeights)
                (to_int (wrap64 (wrap32 (Z.shiftl 1 kShift) / kWeights)))).

(** [sum += x] on [int64_t]: an overflow is undefined. *)
Definition add_int64 (sum x : Z) : option Z :=
  if decide (- 2 ^ 63 <= sum + x < 2 ^ 63) then Some (sum + x) else None.

Fixpoint mix_loop (n : nat) (i : Z) (ws s : list Z) (sum : Z) : option Z :=
  match n with
  | O => Some sum
  | S n' =>
      si ← load s i;
      wi ← load ws i;
      sum' ← add_int64 sum (si * wi);
      mix_loop n' (i + 1) ws s sum'
  end.

(** [mix(s)].  The right shift of a negative sum is arithmetic, the
    conversion of the result to [int32_t] keeps the low 32 bits. *)
Definition mix (m : t) (s : list Z) : option Z :=
  sum ← mix_loop (Z.to_nat kWeights) 0 (w m) s 0;
  Some (to_int (Z.shiftr sum kShift)).

(** One round of the loop of [update].  [learn_round] is a [size_t], so
    [s[i] + learn_round] and the shift are unsigned 64-bit, and so are
    [w[i] + delta] and [w[i] - delta] before they go back to [int32_t]. *)
Definition update_weight (ws s : list Z) (i error learn_rate : Z)
  : option (list Z) :=
  let learn_round := 0 in
  si ← load s i;
  let delta := Z.shiftr (wrap64 (si + learn_round)) learn_rate in
  if decide (0 < error) then
    wi ← load ws i; store ws i (to_int (wrap64 (wrap64 wi + delta)))
  else if decide (error < 0) then
    wi ← load ws i; store ws i (to_int (wrap64 (wrap64 wi - delta)))
  else Some ws.

Fixpoint update_loop (n : nat) (i : Z) (ws s : list Z) (error learn_rate : Z)
  : option (list Z) :=
  match n with
  | O => Some ws
  | S n' =>
      ws' ← update_weight ws s i error learn_rate;
      update_loop n' (i + 1) ws' s error learn_rate
  end.

(** [update(s, p, error, learn_rate)]; a shift by 64 or more is
    undefined. *)
Definition update (m : t) (s : list Z) (p error learn_rate : Z) : option t :=
  if decide (learn_rate < 64) then
    ws ← update_loop (Z.to_nat kWeights) 0 (w m) s error learn_rate;
    Some (mk ws)
  else None.

End LinearMixer.

Section Codec.

Context {M R : Type} `{!StationaryModel M} `{!Range7 R}.

(** The object.  [touched_] is a ghost field: the log of every index at
    which [models_] has been subscripted, most recent first. *)
Record t := mk {
  models_ : vec M;
  ent : R;
  opt_var : Z;
  noise_bits_ : Z;
  non_noise_bits_ : Z;
  touched_ : list Z
}.

Definition set_models (w : t) (ms : vec M) : t :=
  mk ms (ent w) (opt_var w) (noise_bits_ w) (non_noise_bits_ w) (touched_ w).
Definition set_ent (w : t) (e : R) : t :=
  mk (models_ w) e (opt_var w) (noise_bits_ w) (non_noise_bits_ w) (touched_ w).
Definition log_touch (w : t) (idx : Z) : t :=
  mk (models_ w) (ent w) (opt_var w) (noise_bits_ w) (non_noise_bits_ w)
     (idx :: touched_ w).

(** [Wav16() : opt_var(0)] *)
Definition new : t := mk (vec_new 0) rc_new 0 0 0 [].

Definition setOpt (w : t) (var : Z) : t * bool :=
  (mk (models_ w) (ent w) var (noise_bits_ w) (non_noise_bits_ w) (touched_ w),
   true).

Definition init (w : t) : t :=
  let noise_bits := 3 in
  let non_noise_bits := wrap64 (16 - noise_bits) in
  let num_ctx := wrap64 (Z.shiftl 2 (non_noise_bits + kContextBits)) in
  mk (vec_new num_ctx) (ent w) (opt_var w)
     noise_bits non_noise_bits (touched_ w).

(** State of the two loops of [processSample]. *)
Record ps := mkps {
  ps_w : t;
  ps_stream : list Z;
  ps_code : Z;
  ps_ctx : Z
}.

(** One iteration of the loop over the non-noise bits. *)
Definition model_bit (kDecode : bool) (context : Z) (s : ps) : option ps :=
  let w := ps_w s in
  let idx := wrap64 (context + ps_ctx s) in
  let w := log_touch w idx in
  m ← vload m_init (models_ w) idx;
  let p := getP m in
  let p := p + (if decide (p = 0) then 1 else 0) in
  let '(bit, code, e, stream) :=
    if kDecode then
      let '(e, bit) := getDecodedBit (ent w) p kShift in
      (bit, ps_code s, e, ps_stream s)
    else
      let bit := Z.shiftr (ps_code s) 31 in
      let code := wrap32 (Z.shiftl (ps_code s) 1) in
      let '(e, stream) := encode (ent w) (ps_stream s) bit p kShift in
      (bit, code, e, stream) in
  ms ← vstore (models_ w) idx (update m bit);
  let w := set_ent (set_models w ms) e in
  let ctx := to_int (ps_ctx s * 2 + bit) in
  let '(e, stream) :=
    if kDecode then Normalize (ent w) stream else (ent w, stream) in
  Some (mkps (set_ent w e) stream code ctx).

(** One iteration of the loop over the noise bits. *)
Definition noise_bit (kDecode : bool) (s : ps) : ps :=
  let w := ps_w s in
  if kDecode then
    let '(e, stream, bit) := decodeBit (ent w) (ps_stream s) in
    mkps (set_ent w e) stream (ps_code s)
         (to_int (ps_ctx s + wrap32 (ps_ctx s + bit)))
  else
    let '(e, stream) :=
      encodeBit (ent w) (ps_stream s) (Z.shiftr (ps_code s) 31) in
    mkps (set_ent w e) stream (wrap32 (Z.shiftl (ps_code s) 1)) (ps_ctx s).

Fixpoint model_loop (kDecode : bool) (context : Z) (n : nat) (s : ps)
  : option ps :=
  match n with
  | O => Some s
  | S n' => s' ← model_bit kDecode context s; model_loop kDecode context n' s'
  end.

Fixpoint noise_loop (kDecode : bool) (n : nat) (s : ps) : ps :=
  match n with
  | O => s
  | S n' => noise_loop kDecode n' (noise_bit kDecode s)
  end.

(** [processSample<kDecode>(stream, context, channel, c)]: the object and
    the stream afterwards, and the returned value. *)
Definition processSample (kDecode : bool) (w : t) (stream : list Z)
    (context channel c : Z) : option (t * list Z * Z) :=
  let code := if kDecode then 0 else wrap32 (Z.shiftl c (4 * 8 - 16)) in
  let ctx := 1 in
  let context := wrap64 (context * 2 + channel) in
  let context := wrap64 (Z.shiftl context (non_noise_bits_ w)) in
  if decide (context < v_size (models_ w)) then
    s ← model_loop kDecode context (Z.to_nat (non_noise_bits_ w))
                   (mkps w stream code ctx);
    let s := noise_loop kDecode (Z.to_nat (noise_bits_ w)) s in
    Some (ps_w s, ps_stream s, Z.lxor (wrap32 (ps_ctx s)) (Z.shiftl 1 16))
  else None.

(** The sample history of both channels. *)
Record hist := mkhist {
  last_a : Z; last_b : Z;
  last_a2 : Z; last_b2 : Z;
  last_a3 : Z; last_b3 : Z
}.

Definition hist0 : hist := mkhist 0 0 0 0 0 0.

Definition pred_a (h : hist) : Z := wrap16 (2 * last_a h - last_a2 h).
Definition pred_b (h : hist) : Z := wrap16 (2 * last_b h - last_b2 h).

(** The six assignments that end the body of both frame loops. *)
Definition shift_hist (h : hist) (a b : Z) : hist :=
  mkhist a b (last_a h) (last_b h) (last_a2 h) (last_b2 h).

(** State of the frame loop of [compress]. *)
Record enc_state := mkenc {
  e_w : t;
  e_sin : list Z;
  e_sout : list Z;
  e_i : Z;
  e_hist : hist
}.

(** The loop [for (; i < max_count; i += 4)] of [compress].  The mixers
    [mix] and [total_error] are left out: they are locals that only reach
    [std::cout]. *)
Fixpoint compress_loop (fuel : nat) (max_count : Z) (s : enc_state)
  : option enc_state :=
  match fuel with
  | O => None
  | S fuel' =>
      if decide (e_i s < max_count) then
        let h := e_hist s in
        let '(c1, sin) := stream_get (e_sin s) in
        let '(c2, sin) := stream_get sin in
        let a := wrap16 (c1 + c2 * 256) in
        let '(c3, sin) := stream_get sin in
        let '(c4, sin) := stream_get sin in
        let b := wrap16 (c3 + c4 * 256) in
        let error_a := a - pred_a h in
        let error_b := b - pred_b h in
        if decide (c1 = EOF) then
          Some (mkenc (e_w s) sin (e_sout s) (e_i s) h)
        else
          '(w, sout, _) ← processSample false (e_w s) (e_sout s) 0 0
                                        (wrap16 error_a);
          '(w, sout, _) ← processSample false w sout 0 1 (wrap16 error_b);
          compress_loop fuel' max_count
            (mkenc w sin sout (wrap64 (e_i s + 4)) (shift_hist h a b))
      else Some s
  end.

(** [compress(in_stream, out_stream, max_count)]: the object afterwards,
    what is left of the input and the octets written. *)
Definition compress (w : t) (in_stream : list Z) (max_count : Z)
  : option (t * list Z * list Z) :=
  let w := init w in
  let w := set_ent w rc_new in
  s ← compress_loop (S (length in_stream)) max_count
                    (mkenc w in_stream [] 0 hist0);
  let '(e, sout) := flush (ent (e_w s)) (e_sout s) in
  Some (set_ent (e_w s) e, e_sin s, sout).

(** The locals of [compress] that only reach [std::cout]: the two mixers
    and [total_error]. *)
Record mix_state := mkmix {
  mix0 : LinearMixer.t;
  mix1 : LinearMixer.t;
  total_error : Z
}.

(** The loop of [compress] with these locals. *)
Fixpoint compress_mix_loop (fuel : nat) (max_count : Z) (s : enc_state)
    (x : mix_state) : option (enc_state * mix_state) :=
  match fuel with
  | O => None
  | S fuel' =>
      if decide (e_i s < max_count) then
        let h := e_hist s in
        let '(c1, sin) := stream_get (e_sin s) in
        let '(c2, sin) := stream_get sin in
        let a := wrap16 (c1 + c2 * 256) in
        let '(c3, sin) := stream_get sin in
        let '(c4, sin) := stream_get sin in
        let b := wrap16 (c3 + c4 * 256) in
        let s0 := [2 * last_a h - last_a2 h; last_a h; last_a3 h; last_b h] in
        let s1 := [2 * last_b h - last_b2 h; last_b h; a; last_a h] in
        let error_a := a - pred_a h in
        let error_b := b - pred_b h in
        let total :=
          wrap64 (total_error x + (Z.abs error_a + Z.abs error_b)) in
        if decide (c1 = EOF) then
          Some (mkenc (e_w s) sin (e_sout s) (e_i s) h,
                mkmix (mix0 x) (mix1 x) total)
        else
          '(w, sout, _) ← processSample false (e_w s) (e_sout s) 0 0
                                        (wrap16 error_a);
          '(w, sout, _) ← processSample false w sout 0 1 (wrap16 error_b);
          m0 ← LinearMixer.update (mix0 x) s0 (pred_a h) error_a 13;
          m1 ← LinearMixer.update (mix1 x) s1 (pred_b h) error_b 13;
          compress_mix_loop fuel' max_count
            (mkenc w sin sout (wrap64 (e_i s + 4)) (shift_hist h a b))
            (mkmix m0 m1 total)
      else Some (s, x)
  end.

(** [compress] with what it prints: the weights of the two mixers and
    [total_error]. *)
Definition compress_mix (w : t) (in_stream : list Z) (max_count : Z)
  : option (t * list Z * list Z * mix_state) :=
  let w := init w in
  let w := set_ent w rc_new in
  '(s, x) ← compress_mix_loop (S (length in_stream)) max_count
                              (mkenc w in_stream [] 0 hist0)
                              (mkmix LinearMixer.new LinearMixer.new 0);
  let '(e, sout) := flush (ent (e_w s)) (e_sout s) in
  Some (set_ent (e_w s) e, e_sin s, sout, x).

(** State of the loop of [decompress]. *)
Record dec_state := mkdec {
  d_w : t;
  d_sin : list Z;
  d_sout : list Z;
  d_max_count : Z;
  d_hist : hist
}.

(** [if (max_count > 0) { --max_count; sout.put(c); }] *)
Definition put_if (mc : Z) (sout : list Z) (c : Z) : Z * list Z :=
  if decide (0 < mc) then (wrap64 (mc - 1), stream_put sout c) else (mc, sout).

Fixpoint decompress_loop (fuel : nat) (s : dec_state) : option dec_state :=
  match fuel with
  | O => None
  | S fuel' =>
      if decide (0 < d_max_count s) then
        let h := d_hist s in
        '(w, sin, ra) ← processSample true (d_w s) (d_sin s) 0 0 0;
        let a := wrap16 (pred_a h + ra) in
        '(w, sin, rb) ← processSample true w sin 0 1 0;
        let b := wrap16 (pred_b h + rb) in
        let '(mc, sout) := put_if (d_max_count s) (d_sout s) (Z.land a 255) in
        let '(mc, sout) := put_if mc sout (Z.shiftr a 8) in
        let '(mc, sout) := put_if mc sout (Z.land b 255) in
        let '(mc, sout) := put_if mc sout (Z.shiftr b 8) in
        decompress_loop fuel' (mkdec w sin sout mc (shift_hist h a b))
      else Some s
  end.

(** [decompress(in_stream, out_stream, max_count)].  The reader is not
    buffered here, so [sin.remain()] is 0 and there is nothing to seek
    back over. *)
Definition decompress (w : t) (in_stream : list Z) (max_count : Z)
  : option (t * list Z * list Z) :=
  let w := init w in
  let '(e, sin) := initDecoder (ent w) in_stream in
  s ← decompress_loop (S (Z.to_nat max_count))
                      (mkdec (set_ent w e) sin [] max_count hist0);
  Some (d_w s, d_sin s, d_sout s).

End Codec.
End Wav16.

(** ** What the codec expects of the two interfaces *)

Section Laws.

Context {M R : Type} `{!StationaryModel M} `{!Range7 R}.

Definition is_bit (b : Z) : Prop := b = 0 \/ b = 1.

(** One call of the encoder: a modelled bit with the probability [p] of a
    0, or a direct bit. *)
Inductive event :=
| EvModel (p bit : Z)
| EvDirect (bit : Z).

Definition valid_event (ev : event) : Prop :=
  match ev with
  | EvModel p bit => 1 <= p < Wav16.kMaxValue /\ is_bit bit
  | EvDirect bit => is_bit bit
  end.

Definition enc_event (st : R * list Z) (ev : event) : R * list Z :=
  match ev with
  | EvModel p bit => encode st.1 st.2 bit p Wav16.kShift
  | EvDirect bit => encodeBit st.1 st.2 bit
  end.

Definition enc_events (st : R * list Z) (evs : list event) : R * list Z :=
  foldl enc_event st evs.

(** The octets of a whole encoder run: [Range7()], the calls, [flush]. *)
Definition encoded (evs : list event) : list Z :=
  let st := enc_events (rc_new, []) evs in (flush st.1 st.2).2.

(** The decoder, asked for the same kinds of bits with the same
    probabilities, returns the bits of [evs]. *)
Fixpoint dec_ok (evs : list event) (st : R * list Z) : Prop :=
  match evs with
  | [] => True
  | EvModel p bit :: evs' =>
      let '(d, bit') := getDecodedBit st.1 p Wav16.kShift in
      bit' = bit /\ dec_ok evs' (Normalize d st.2)
  | EvDirect bit :: evs' =>
      let '(d, sin, bit') := decodeBit st.1 st.2 in
      bit' = bit /\ dec_ok evs' (d, sin)
  end.

(** Round trip of the range coder: for any bit sequence with any sequence
    of probabilities in [1, kMaxValue - 1], encode-then-decode yields the
    original bits. *)
Definition range7_roundtrip : Prop :=
  forall (evs : list event) (r0 : R),
    Forall valid_event evs -> dec_ok evs (initDecoder r0 (encoded evs)).

(** The decoder returns bits. *)
Definition range7_bits : Prop :=
  (forall r p s, is_bit (getDecodedBit r p s).2) /\
  (forall r sin, is_bit (decodeBit r sin).2).

(** The models that [init] and [update] can produce. *)
Inductive reachable : M -> Prop :=
| reach_init : reachable m_init
| reach_update m bit : reachable m -> is_bit bit -> reachable (update m bit).

(** The probability of a reachable model is below [kMaxValue]. *)
Definition model_in_range : Prop :=
  forall m, reachable m -> 0 <= getP m < Wav16.kMaxValue.

End Laws.

(** ** Instances of the interfaces *)

(** Modelled from the spec: [fastBitModel] of [Model.hpp], which is
    absent.  The state is [p] with [kShift] fractional bits, initially
    [kMaxValue / 2]; a 0 adds [(kMaxValue - p) >> 9], capped, and a 1
    subtracts [p >> 9].  The cap is given as
    [kMaxValue - (1 << (kShift - C_adj))] with [C_adj] left open; it is
    taken here as [kMaxValue - 1]. *)
Module FastBitModel.

Definition learn_rate : Z := 9.
Definition p_cap : Z := Wav16.kMaxValue - 1.

Definition init : Z := Wav16.kMaxValue / 2.

Definition getP (p : Z) : Z := p.

Definition update (p bit : Z) : Z :=
  if decide (bit = 0)
  then Z.min (p + Z.shiftr (Wav16.kMaxValue - p) learn_rate) p_cap
  else p - Z.shiftr p learn_rate.

#[global] Instance model : StationaryModel Z :=
  Build_StationaryModel Z init getP update.

End FastBitModel.

(** A coder that is not [Range7]: it stores every bit in an octet of its
    own and keeps the next octet of the input in [code].  It is the
    simplest implementation of the interface, used to run the codec. *)
Module StoreCoder.

Record t := mk { code : Z }.

Definition new : t := mk 0.

Definition encode (r : t) (sout : list Z) (bit p shift : Z) : t * list Z :=
  (r, stream_put sout bit).

Definition encodeBit (r : t) (sout : list Z) (bit : Z) : t * list Z :=
  (r, stream_put sout bit).

Definition flush (r : t) (sout : list Z) : t * list Z := (r, sout).

Definition initDecoder (r : t) (sin : list Z) : t * list Z :=
  let '(c, sin) := stream_get sin in (mk c, sin).

Definition getDecodedBit (r : t) (p shift : Z) : t * Z := (r, code r mod 2).

Definition Normalize (r : t) (sin : list Z) : t * list Z :=
  let '(c, sin) := stream_get sin in (mk c, sin).

Definition decodeBit (r : t) (sin : list Z) : t * list Z * Z :=
  let '(c, sin') := stream_get sin in (mk c, sin', code r mod 2).

#[global] Instance coder : Range7 t :=
  Build_Range7 t new encode encodeBit flush initDecoder getDecodedBit
               Normalize decodeBit.

End StoreCoder.


(** ** The codec as the design document describes it

    These definitions follow the document, not the code: the bits of a
    residual most significant first, the walk of the context tree over
    them, and the octets of a frame.  They are what the code is compared
    with. *)

Section Described.

Context {M : Type} `{!StationaryModel M}.

(** The [n] low bits of [r], most significant first. *)
Fixpoint bits_msb (n : nat) (r : Z) : list Z :=
  match n with
  | O => []
  | S n' => (r / 2 ^ Z.of_nat n') mod 2 :: bits_msb n' r
  end.

(** The value assembled from bits in order, starting from [acc]. *)
Definition assemble (acc : Z) (bits : list Z) : Z :=
  foldl (fun a b => 2 * a + b) acc bits.

(** Total reads and writes of the model table. *)
Definition vget (v : vec M) (i : Z) : M := default m_init (v_elts v !! i).
Definition vset (v : vec M) (i : Z) (x : M) : vec M :=
  mkvec (v_size v) (<[i := x]> (v_elts v)).

(** The probability handed to the coder: 0 is patched to 1. *)
Definition patched (p : Z) : Z := if decide (p = 0) then 1 else p.

(** Result of a walk: the table, the context, the calls of the coder and
    the subscripts, in order. *)
Record walked := mkwalked {
  wk_models : vec M;
  wk_ctx : Z;
  wk_events : list event;
  wk_indices : list Z
}.

(** The walk of the context tree over [bits]: the model at [base + ctx]
    codes the bit and is updated with it, and [ctx] becomes
    [2 * ctx + bit]. *)
Fixpoint walk (base : Z) (bits : list Z) (ms : vec M) (ctx : Z) : walked :=
  match bits with
  | [] => mkwalked ms ctx [] []
  | bit :: bits' =>
      let idx := base + ctx in
      let m := vget ms idx in
      let r := walk base bits' (vset ms idx (update m bit)) (2 * ctx + bit) in
      mkwalked (wk_models r) (wk_ctx r)
               (EvModel (patched (getP m)) bit :: wk_events r)
               (idx :: wk_indices r)
  end.

(** One residual [r] of channel [channel]: 13 modelled bits, 3 direct. *)
Definition sample_walk (ms : vec M) (channel r : Z) : walked :=
  walk (channel * 2 ^ 13) (take 13 (bits_msb 16 r)) ms 1.

Definition sample_events (ms : vec M) (channel r : Z) : list event :=
  wk_events (sample_walk ms channel r)
  ++ map EvDirect (drop 13 (bits_msb 16 r)).

(** The frames that the encoder forms from the octets of the input; a
    missing octet reads as [EOF]. *)
Fixpoint frames_of (sin : list Z) : list (Z * Z) :=
  match sin with
  | [] => []
  | [c1] => [(wrap16 (c1 + EOF * 256), wrap16 (EOF + EOF * 256))]
  | [c1; c2] => [(wrap16 (c1 + c2 * 256), wrap16 (EOF + EOF * 256))]
  | [c1; c2; c3] => [(wrap16 (c1 + c2 * 256), wrap16 (c3 + EOF * 256))]
  | c1 :: c2 :: c3 :: c4 :: sin' =>
      (wrap16 (c1 + c2 * 256), wrap16 (c3 + c4 * 256)) :: frames_of sin'
  end.

(** The four octets of a frame, little-endian within each sample. *)
Definition frame_octets (f : Z * Z) : list Z :=
  [Z.land f.1 255; Z.shiftr f.1 8; Z.land f.2 255; Z.shiftr f.2 8].

(** State of a run over frames: table, history, calls of the coder, and
    the subscripts, most recent first. *)
Record run := mkrun {
  r_models : vec M;
  r_hist : Wav16.hist;
  r_events : list event;
  r_touched : list Z
}.

(** The run of the codec over frames from the table [ms], the history
    [h] and the log [t]: per frame, the residuals of the two channels are
    walked in turn, then the history is shifted. *)
Fixpoint run_frames (ms : vec M) (h : Wav16.hist) (t : list Z)
    (fs : list (Z * Z)) : run :=
  match fs with
  | [] => mkrun ms h [] t
  | f :: fs' =>
      let ra := wrap16 (f.1 - Wav16.pred_a h) in
      let rb := wrap16 (f.2 - Wav16.pred_b h) in
      let wa := sample_walk ms 0 ra in
      let wb := sample_walk (wk_models wa) 1 rb in
      let r := run_frames (wk_models wb) (Wav16.shift_hist h f.1 f.2)
                 (rev (wk_indices wb) ++ rev (wk_indices wa) ++ t) fs' in
      mkrun (r_models r) (r_hist r)
            (sample_events ms 0 ra ++ sample_events (wk_models wa) 1 rb
             ++ r_events r)
            (r_touched r)
  end.

(** The predictor of one channel as the document states it: the
    prediction from the last two samples, the residual of a sample, and
    the sample that a residual gives back. *)
Definition described_pred (last1 last2 : Z) : Z :=
  (2 * last1 - last2) mod 2 ^ 16.
Definition described_residual (sample pred : Z) : Z :=
  (sample - pred) mod 2 ^ 16.
Definition described_sample (pred residual : Z) : Z :=
  (pred + residual) mod 2 ^ 16.

(** The residuals of the samples [xs] of one channel, from the last two
    samples [last1] and [last2], and the samples that residuals give
    back. *)
Fixpoint channel_residuals (last1 last2 : Z) (xs : list Z) : list Z :=
  match xs with
  | [] => []
  | x :: xs' =>
      described_residual x (described_pred last1 last2)
      :: channel_residuals x last1 xs'
  end.

Fixpoint channel_samples (last1 last2 : Z) (rs : list Z) : list Z :=
  match rs with
  | [] => []
  | r :: rs' =>
      let x := described_sample (described_pred last1 last2) r in
      x :: channel_samples x last1 rs'
  end.

(** The history after the frames [fs]: per channel the last three
    samples, newest first, and 0 where there are fewer. *)
Definition described_hist (fs : list (Z * Z)) : Wav16.hist :=
  let r := rev fs in
  Wav16.mkhist (nth 0 r (0, 0)).1 (nth 0 r (0, 0)).2
               (nth 1 r (0, 0)).1 (nth 1 r (0, 0)).2
               (nth 2 r (0, 0)).1 (nth 2 r (0, 0)).2.

(** The coder's calls for pairs of residuals, channel 0 then channel 1 of
    every pair, and the table afterwards; no predictor takes part. *)
Fixpoint run_residuals (ms : vec M) (rs : list (Z * Z))
  : vec M * list event :=
  match rs with
  | [] => (ms, [])
  | r :: rs' =>
      let wa := sample_walk ms 0 r.1 in
      let wb := sample_walk (wk_models wa) 1 r.2 in
      let res := run_residuals (wk_models wb) rs' in
      (res.1,
       sample_events ms 0 r.1 ++ sample_events (wk_models wa) 1 r.2
       ++ res.2)
  end.

(** The number of frames that a loop over a count of [n] octets runs. *)
Definition frame_count (n : Z) : nat := Z.to_nat ((n + 3) / 4).

Definition octet (c : Z) : Prop := 0 <= c < 256.

End Described.

(** * Notions used in the statements *)

Section Notions.

Context {M R : Type} `{!StationaryModel M} `{!Range7 R}.
Implicit Types (w : Wav16.t (M:=M) (R:=R)) (ms : vec M).

Import Wav16.

(** The fields that no loop of [processSample] changes. *)
Definition same_shape w w' : Prop :=
  v_size (models_ w') = v_size (models_ w) /\
  opt_var w' = opt_var w /\
  noise_bits_ w' = noise_bits_ w /\
  non_noise_bits_ w' = non_noise_bits_ w.

(** The object as [init] leaves it. *)
Definition initialised w : Prop :=
  v_size (models_ w) = 2 ^ 16 /\ noise_bits_ w = 3 /\ non_noise_bits_ w = 13.

(** The code register of the encoder holds the bits still to code at its
    top: the next bit is [code >> 31], and [code <<= 1] drops it. *)
Definition code_of (bits : list Z) : Z :=
  assemble 0 bits * 2 ^ (32 - Z.of_nat (length bits)).

(** The samples of a frame are 16-bit values. *)
Definition frame_ok (f : Z * Z) : Prop :=
  0 <= f.1 < 2 ^ 16 /\ 0 <= f.2 < 2 ^ 16.

(** Every entry of the table is a model that [init] and [update] can
    produce. *)
Definition table_reachable ms : Prop :=
  forall i m, v_elts ms !! i = Some m -> reachable m.

(** The part of the table that a channel walks, and the union of the two
    parts. *)
Definition channel_range (channel i : Z) : Prop :=
  channel * 2 ^ 13 + 1 <= i < (channel + 1) * 2 ^ 13.

Definition walked_range (i : Z) : Prop :=
  channel_range 0 i \/ channel_range 1 i.

(** The subscripts of the two calls of a frame, those of the call for
    channel 0 and those of the call for channel 1, each most recent
    first; and the log that frames leave, the last frame first. *)
Definition chunk_ok (c : list Z * list Z) : Prop :=
  length c.1 = 13%nat /\ Forall (channel_range 0) c.1 /\
  length c.2 = 13%nat /\ Forall (channel_range 1) c.2.

Definition frames_log (chunks : list (list Z * list Z)) : list Z :=
  concat (map (fun c => c.2 ++ c.1) chunks).

(** The fields of the object that the codec reads: all but [opt_var] and
    the log. *)
Definition core (w : t (M:=M) (R:=R)) : vec M * R * Z * Z :=
  (models_ w, ent w, noise_bits_ w, non_noise_bits_ w).

Definition ps_core (s : ps (M:=M) (R:=R)) :=
  (core (ps_w s), ps_stream s, ps_code s, ps_ctx s).

Definition result_core (r : t (M:=M) (R:=R) * list Z * Z) :=
  (core r.1.1, r.1.2, r.2).

Definition enc_core (s : enc_state (M:=M) (R:=R)) :=
  (core (e_w s), e_sin s, e_sout s, e_i s, e_hist s).

Definition dec_core (s : dec_state (M:=M) (R:=R)) :=
  (core (d_w s), d_sin s, d_sout s, d_max_count s, d_hist s).

(** What [compress] and [decompress] return besides the object. *)
Definition streams (r : option (t (M:=M) (R:=R) * list Z * list Z))
  : option (list Z * list Z) :=
  (fun x => (x.1.2, x.2)) <$> r.

Definition ev_bit (ev : event) : Z :=
  match ev with EvModel _ bit => bit | EvDirect bit => bit end.

End Notions.

(** The input of the examples: seven octets, one frame and three octets
    of a second. *)
Definition S7 : list Z := [1; 0; 255; 127; 2; 0; 7].

(** A fresh codec over the two instances. *)
Definition W0 : Wav16.t (M:=Z) (R:=StoreCoder.t) := Wav16.new.

(** * Properties *)

(** ** Machine integers *)

Lemma wrap64_small x : 0 <= x < 2 ^ 64 -> wrap64 x = x.
Proof. intros. unfold wrap64. by apply Z.mod_small. Qed.

Lemma wrap32_small x : 0 <= x < 2 ^ 32 -> wrap32 x = x.
Proof. intros. unfold wrap32. by apply Z.mod_small. Qed.

Lemma wrap16_small x : 0 <= x < 2 ^ 16 -> wrap16 x = x.
Proof. intros. unfold wrap16. by apply Z.mod_small. Qed.

Lemma wrap16_range x : 0 <= wrap16 x < 2 ^ 16.
Proof. unfold wrap16. apply Z.mod_pos_bound. lia. Qed.

Lemma pow2_pos k : 0 <= k -> 0 < 2 ^ k.
Proof. intros. by apply Z.pow_pos_nonneg. Qed.

Lemma pow2_le_64 k : 0 <= k < 64 -> 2 * 2 ^ k <= 2 ^ 64.
Proof.
  intros. replace (2 * 2 ^ k) with (2 ^ (k + 1)).
  - apply Z.pow_le_mono_r; lia.
  - rewrite Z.pow_add_r by lia. lia.
Qed.

Lemma land_mask p k : 0 <= k -> Z.land p (2 ^ k - 1) = p mod 2 ^ k.
Proof.
  intros. rewrite <- Z.land_ones by done. f_equal.
  rewrite Z.ones_equiv. lia.
Qed.

Lemma wrap64_mod_pow2 x k : 0 <= k < 64 -> wrap64 x mod 2 ^ k = x mod 2 ^ k.
Proof.
  intros. unfold wrap64. apply Z.mod_mod_divide.
  exists (2 ^ (64 - k)). rewrite <- Z.pow_add_r by lia. f_equal. lia.
Qed.

Lemma wrap64_add_l x y : wrap64 (wrap64 x + y) = wrap64 (x + y).
Proof. unfold wrap64. by rewrite Zplus_mod_idemp_l. Qed.

(** ** CyclicBuffer *)

Section BufferProps.

Context {T : Type}.
Implicit Types (b : CyclicBuffer.t (T:=T)) (l src blk : list T).

Import CyclicBuffer.

Lemma store_Some blk i (v : T) :
  0 <= i < Z.of_nat (length blk) ->
  store blk i v = Some (<[Z.to_nat i := v]> blk).
Proof. intros. unfold store. by rewrite decide_True. Qed.

Lemma store_length blk blk' i (v : T) :
  store blk i v = Some blk' -> length blk' = length blk.
Proof.
  unfold store. case_decide; [|done]. intros [= <-]. apply length_insert.
Qed.

Lemma fill_n_spec blk off n (d : T) :
  0 <= off -> off + Z.of_nat n <= Z.of_nat (length blk) ->
  fill_n blk off n d
  = Some (take (Z.to_nat off) blk ++ replicate n d
          ++ drop (Z.to_nat off + n) blk).
Proof.
  revert blk off. induction n as [|n IH]; intros blk off Hoff Hlen; simpl.
  - rewrite Nat.add_0_r. by rewrite take_drop.
  - rewrite store_Some by lia. simpl.
    rewrite IH by (rewrite ?length_insert; lia).
    f_equal.
    replace (Z.to_nat (off + 1)) with (S (Z.to_nat off)) by lia.
    rewrite drop_insert_lt by lia.
    assert (Hlt : (Z.to_nat off < length blk)%nat) by lia.
    destruct (lookup_lt_is_Some_2 _ _ Hlt) as [y Hy].
    rewrite (take_S_r _ _ d) by (by rewrite list_lookup_insert_eq).
    rewrite take_insert_ge by lia.
    rewrite <- app_assoc. simpl.
    by rewrite Nat.add_succ_r.
Qed.

Lemma land_pow2_pred k : 0 <= k -> Z.land (2 ^ k) (2 ^ k - 1) = 0.
Proof.
  intros. rewrite land_mask by done. apply Z_mod_same_full.
Qed.

(** [fill] after [resize]: the first [getSize()] elements of the block
    are written, the last [2 * padding] are not. *)
Lemma fill_after_resize (zero d : T) b0 k padding :
  0 <= k < 64 -> 0 <= padding -> 2 ^ k + padding * 2 < 2 ^ 64 ->
  (b ← resize zero b0 (2 ^ k) padding; fill b d)
  = Some (mk 0 (2 ^ k - 1) (2 ^ k + padding * 2)
             (replicate (Z.to_nat (2 ^ k)) d
              ++ replicate (Z.to_nat (padding * 2)) zero)
             padding).
Proof.
  intros Hk Hp Hsz. pose proof (pow2_pos k ltac:(lia)) as Hpos.
  unfold resize.
  rewrite (wrap64_small (2 ^ k - 1)) by lia.
  rewrite decide_True by (apply land_pow2_pred; lia).
  rewrite (wrap64_small (2 ^ k + padding * 2)) by lia.
  simpl. unfold fill, getSize, restart. simpl.
  replace (2 ^ k - 1 + 1) with (2 ^ k) by lia.
  rewrite (wrap64_small (2 ^ k)) by lia.
  rewrite fill_n_spec by (rewrite ?length_replicate; lia).
  simpl. do 2 f_equal.
  rewrite drop_replicate. do 2 f_equal. lia.
Qed.

Lemma wf_mask_pos b k :
  wf b k ->
  0 <= Z.land (pos_ b) (mask_ b) < 2 ^ k /\
  Z.land (pos_ b) (mask_ b) = pos_ b mod 2 ^ k.
Proof.
  intros (Hk & -> & Hpos & Hd & Hlen).
  rewrite land_mask by lia. split; [|done].
  apply Z.mod_pos_bound. apply pow2_pos. lia.
Qed.

Lemma push_Some b k x :
  wf b k -> exists b', push b x = Some b' /\ wf b' k /\
                       pos_ b' = wrap64 (pos_ b + 1).
Proof.
  intros Hwf. destruct (wf_mask_pos b k Hwf) as [Hr _].
  destruct Hwf as (Hk & Hm & Hpos & Hd & Hlen).
  unfold push. rewrite store_Some by lia. simpl.
  eexists. split; [done|]. split; [|done].
  repeat split; simpl; try lia; try done.
  - unfold wrap64. apply Z.mod_pos_bound. lia.
  - unfold wrap64. apply Z.mod_pos_bound. lia.
  - rewrite length_insert. lia.
Qed.

Lemma push_wf b b' k x : wf b k -> push b x = Some b' -> wf b' k.
Proof.
  intros Hwf Hp. destruct (push_Some b k x Hwf) as (b'' & Hp' & Hwf' & _).
  congruence.
Qed.

Lemma push_all_Some l : forall b k,
  wf b k -> exists b', push_all b l = Some b' /\ wf b' k.
Proof.
  induction l as [|x l IH]; intros b k Hwf; simpl.
  - eauto.
  - destruct (push_Some b k x Hwf) as (b1 & -> & Hwf1 & _). simpl. eauto.
Qed.

Lemma push_n_0 b k src : wf b k -> push_n b src 0 = Some b.
Proof.
  intros Hwf. destruct (wf_mask_pos b k Hwf) as [Hr _].
  destruct Hwf as (Hk & Hm & Hpos & Hd & Hlen).
  pose proof (pow2_le_64 k Hk).
  unfold push_n. rewrite Hm in *.
  rewrite (wrap64_small (1 + _ - _)) by lia.
  rewrite Z.min_r by lia. simpl.
  rewrite Z.add_0_r, wrap64_small by lia.
  change (Z.to_nat 0) with 0%nat. simpl.
  destruct b as [p m a s d]; simpl in *. by subst m.
Qed.

(** The first element of [push_n] is a [push]. *)
Lemma push_n_cons b k x l c :
  wf b k -> 0 <= c -> c + 1 <= 2 ^ k ->
  push_n b (x :: l) (c + 1) = b' ← push b x; push_n b' l c.
Proof.
  intros Hwf Hc Hle. destruct (wf_mask_pos b k Hwf) as [Hr Hmp].
  destruct Hwf as (Hk & Hm & Hpos & Hd & Hlen).
  pose proof (pow2_le_64 k Hk) as H64.
  unfold push_n at 1, push. rewrite Hm in *.
  set (mp := Z.land (pos_ b) (2 ^ k - 1)) in *.
  rewrite (wrap64_small (1 + _ - mp)) by lia.
  replace (1 + (2 ^ k - 1) - mp) with (2 ^ k - mp) by lia.
  set (cur := Z.min (2 ^ k - mp) (c + 1)).
  assert (Hcur : 1 <= cur <= c + 1) by lia.
  replace (Z.to_nat cur) with (S (Z.to_nat (cur - 1))) by lia.
  simpl copy_n. simpl drop.
  destruct (store (storage_ b) (data_ b + mp) x) as [st1|] eqn:Hst;
    simpl; [|done].
  unfold push_n. simpl.
  rewrite land_mask, wrap64_mod_pow2 by lia.
  assert (Hmp' : (pos_ b + 1) mod 2 ^ k
                 = if decide (mp + 1 < 2 ^ k) then mp + 1 else 0).
  { replace (pos_ b + 1) with (mp + 1 + pos_ b / 2 ^ k * 2 ^ k)
      by (pose proof (Z.div_mod (pos_ b) (2 ^ k)); lia).
    rewrite Z.mod_add by lia.
    case_decide.
    - apply Z.mod_small. lia.
    - replace (mp + 1) with (2 ^ k) by lia. apply Z_mod_same_full. }
  rewrite Hmp'. rewrite wrap64_add_l.
  replace (pos_ b + 1 + c) with (pos_ b + (c + 1)) by lia.
  case_decide as Hcase.
  - (* no wrap after the first element *)
    rewrite (wrap64_small (1 + _ - _)) by lia.
    replace (Z.min (1 + (2 ^ k - 1) - (mp + 1)) c) with (cur - 1) by lia.
    replace (data_ b + (mp + 1)) with (data_ b + mp + 1) by lia.
    by replace (c - (cur - 1)) with (c + 1 - cur) by lia.
  - (* the first element fills the last slot *)
    assert (cur = 1) as -> by lia.
    rewrite (wrap64_small (1 + _ - _)) by lia.
    replace (Z.min (1 + (2 ^ k - 1) - 0) c) with c by lia.
    replace (c + 1 - 1) with c by lia.
    replace (c - c) with 0 by lia.
    rewrite (wrap64_small c) by lia.
    simpl copy_n. simpl.
    case_decide as Hc0; [done|].
    by assert (c = 0) as -> by lia.
Qed.

Lemma push_n_push_all n : forall b k src,
  wf b k -> Z.of_nat n <= 2 ^ k -> (n <= length src)%nat ->
  push_n b src (Z.of_nat n) = push_all b (take n src).
Proof.
  induction n as [|n IH]; intros b k src Hwf Hn Hlen.
  - simpl. by apply (push_n_0 b k).
  - destruct src as [|x l]; [simpl in Hlen; lia|]. simpl in Hlen.
    replace (Z.of_nat (S n)) with (Z.of_nat n + 1) by lia.
    rewrite (push_n_cons b k) by (done || lia). simpl.
    destruct (push b x) as [b1|] eqn:Hp; simpl; [|done].
    apply (IH b1 k); [by eapply push_wf|lia|lia].
Qed.

(** A span copied inside the block is a [list_inserts]. *)
Lemma copy_n_spec n : forall src blk off,
  0 <= off -> off + Z.of_nat n <= Z.of_nat (length blk) ->
  (n <= length src)%nat ->
  copy_n src n blk off = Some (list_inserts (Z.to_nat off) (take n src) blk).
Proof.
  induction n as [|n IH]; intros src blk off Hoff Hlen Hsrc; [done|].
  destruct src as [|x src]; simpl in Hsrc; [lia|]. simpl.
  rewrite store_Some by lia. simpl.
  rewrite IH by (rewrite ?length_insert; lia). f_equal.
  replace (Z.to_nat (off + 1)) with (S (Z.to_nat off)) by lia.
  symmetry. apply list_insert_inserts_lt. lia.
Qed.

(** The two spans of [push_n]: [cur] elements from the masked position,
    the rest from the start of the data area. *)
Lemma push_n_spans b k src count :
  wf b k -> 0 <= count <= 2 ^ k -> count <= Z.of_nat (length src) ->
  let mp := Z.land (pos_ b) (mask_ b) in
  let cur := Z.min (2 ^ k - mp) count in
  push_n b src count
  = Some (mk (wrap64 (pos_ b + count)) (mask_ b) (alloc_size_ b)
             (list_inserts (Z.to_nat (data_ b))
                (take (Z.to_nat (count - cur)) (drop (Z.to_nat cur) src))
                (list_inserts (Z.to_nat (data_ b + mp))
                   (take (Z.to_nat cur) src) (storage_ b)))
             (data_ b)).
Proof.
  intros Hwf Hc Hsrc. destruct (wf_mask_pos b k Hwf) as [Hr _].
  destruct Hwf as (Hk & Hm & Hpos & Hd & Hlen).
  pose proof (pow2_le_64 k Hk) as H64.
  intros mp cur. assert (Hmp : 0 <= mp < 2 ^ k) by exact Hr.
  unfold push_n. fold mp.
  rewrite Hm. rewrite (wrap64_small (1 + _ - mp)) by lia.
  replace (1 + (2 ^ k - 1) - mp) with (2 ^ k - mp) by lia. fold cur.
  rewrite copy_n_spec by lia. simpl.
  rewrite (wrap64_small (count - cur)) by lia.
  case_decide as Hrest.
  - rewrite Z.add_0_r.
    rewrite copy_n_spec
      by (rewrite ?length_inserts, ?length_drop; lia). done.
  - replace (count - cur) with 0 by lia. done.
Qed.

End BufferProps.

(** C8.  [fill] after [resize(8, 4)]: the block has 16 elements, the
    first 8 are written and the last 8 keep their value, among them the
    last four of the data area: [data_[7]] still reads 0. *)
Theorem fill_misses_tail :
  exists b,
    (b0 ← CyclicBuffer.resize 0 CyclicBuffer.empty 8 4; CyclicBuffer.fill b0 1)
    = Some b /\
    CyclicBuffer.alloc_size_ b = 16 /\
    CyclicBuffer.storage_ b = [1; 1; 1; 1; 1; 1; 1; 1; 0; 0; 0; 0; 0; 0; 0; 0] /\
    CyclicBuffer.get b 7 = Some 0.
Proof. eexists. split; [vm_compute; reflexivity|]. by vm_compute. Qed.

(** C9.  For a buffer of capacity [2 ^ k] at any position and
    [count <= 2 ^ k], [push_n] returns the buffer that [count] calls of
    [push] return, with [pos_] advanced by [count], and its block is the
    old one with two spans written. *)
Theorem push_n_refines_push {T} (b : CyclicBuffer.t (T:=T)) k src count :
  CyclicBuffer.wf b k -> 0 <= count <= 2 ^ k ->
  count <= Z.of_nat (length src) ->
  exists b',
    CyclicBuffer.push_n b src count = Some b' /\
    CyclicBuffer.push_all b (take (Z.to_nat count) src) = Some b' /\
    CyclicBuffer.pos_ b' = wrap64 (CyclicBuffer.pos_ b + count) /\
    let mp := Z.land (CyclicBuffer.pos_ b) (CyclicBuffer.mask_ b) in
    let cur := Z.min (2 ^ k - mp) count in
    CyclicBuffer.storage_ b'
    = list_inserts (Z.to_nat (CyclicBuffer.data_ b))
        (take (Z.to_nat (count - cur)) (drop (Z.to_nat cur) src))
        (list_inserts (Z.to_nat (CyclicBuffer.data_ b + mp))
           (take (Z.to_nat cur) src) (CyclicBuffer.storage_ b)).
Proof.
  intros Hwf Hc Hsrc.
  pose proof (push_n_spans b k src count Hwf Hc Hsrc) as Hsp.
  simpl in Hsp. eexists. split; [exact Hsp|].
  split; [|by split].
  rewrite <- Hsp. symmetry.
  rewrite <- (Z2Nat.id count) at 1 by lia.
  apply (push_n_push_all _ b k); [done|lia|lia].
Qed.

Lemma push_n_refines_push_witness :
  CyclicBuffer.wf (CyclicBuffer.mk 6 7 16 (replicate 16 0) 4) 3 /\
  0 <= 5 <= 2 ^ 3 /\ 5 <= Z.of_nat (length [1; 2; 3; 4; 5]) /\
  exists b',
    CyclicBuffer.push_n (CyclicBuffer.mk 6 7 16 (replicate 16 0) 4)
                        [1; 2; 3; 4; 5] 5 = Some b' /\
    CyclicBuffer.push_all (CyclicBuffer.mk 6 7 16 (replicate 16 0) 4)
                          [1; 2; 3; 4; 5] = Some b' /\
    CyclicBuffer.pos_ b' = 11 /\
    CyclicBuffer.storage_ b' = [0; 0; 0; 0; 3; 4; 5; 0; 0; 0; 1; 2; 0; 0; 0; 0].
Proof.
  assert (Hwf : CyclicBuffer.wf (CyclicBuffer.mk 6 7 16 (replicate 16 0) 4) 3)
    by (unfold CyclicBuffer.wf; simpl; lia).
  split; [exact Hwf|]. split; [lia|]. split; [simpl; lia|].
  destruct (push_n_refines_push (CyclicBuffer.mk 6 7 16 (replicate 16 0) 4)
              3 [1; 2; 3; 4; 5] 5 Hwf) as (b' & H1 & H2 & H3 & H4).
  - lia.
  - simpl. lia.
  - exists b'. split; [exact H1|]. split; [exact H2|].
    split; [rewrite H3; reflexivity|]. rewrite H4. reflexivity.
Defined.

(** ** Wav16: the walk over the model table *)

Lemma to_int_small x : 0 <= x < 2 ^ 31 -> to_int x = x.
Proof.
  intros. unfold to_int. rewrite wrap32_small by lia.
  by rewrite decide_True by lia.
Qed.

Lemma shiftr31_bit code : 0 <= code < 2 ^ 32 -> is_bit (Z.shiftr code 31).
Proof.
  intros. rewrite Z.shiftr_div_pow2 by lia.
  assert (0 <= code / 2 ^ 31 < 2) by (split; [apply Z.div_pos|apply Z.div_lt_upper_bound]; lia).
  unfold is_bit. lia.
Qed.

Lemma wrap32_range x : 0 <= wrap32 x < 2 ^ 32.
Proof. unfold wrap32. apply Z.mod_pos_bound. lia. Qed.

Section WalkProps.

Context {M R : Type} `{!StationaryModel M} `{!Range7 R}.
Implicit Types (w : Wav16.t (M:=M) (R:=R)) (s : Wav16.ps (M:=M) (R:=R)).

Import Wav16.

Lemma same_shape_refl w : same_shape w w.
Proof. done. Qed.

Lemma same_shape_trans w1 w2 w3 :
  same_shape w1 w2 -> same_shape w2 w3 -> same_shape w1 w3.
Proof. unfold same_shape. intros (?&?&?&?) (?&?&?&?). repeat split; congruence. Qed.

(** One iteration of the model loop: the subscript is in range, the
    context takes the coded bit. *)
Lemma model_bit_step kDecode base s :
  (kDecode = true -> range7_bits (R:=R)) ->
  0 <= base -> 1 <= ps_ctx s < 2 ^ 30 ->
  base + ps_ctx s < v_size (models_ (ps_w s)) ->
  v_size (models_ (ps_w s)) <= 2 ^ 64 ->
  0 <= ps_code s < 2 ^ 32 ->
  exists s' bit,
    model_bit kDecode base s = Some s' /\ is_bit bit /\
    ps_ctx s' = 2 * ps_ctx s + bit /\
    0 <= ps_code s' < 2 ^ 32 /\
    same_shape (ps_w s) (ps_w s') /\
    touched_ (ps_w s') = (base + ps_ctx s) :: touched_ (ps_w s).
Proof.
  intros Hbits Hbase Hctx Hidx Hsz Hcode.
  unfold model_bit. rewrite (wrap64_small (base + ps_ctx s)) by lia.
  unfold vload, vstore. simpl.
  rewrite !decide_True by lia. simpl.
  destruct kDecode.
  - destruct (getDecodedBit _ _ _) as [e bit] eqn:Hdec.
    assert (Hb : is_bit bit).
    { destruct (Hbits eq_refl) as [Hb _].
      eapply (eq_ind _ (fun x => is_bit x.2) (Hb _ _ _) _ Hdec). }
    simpl. destruct (Normalize _ _) as [e' stream'] eqn:Hn.
    rewrite decide_True by lia. simpl.
    eexists _, bit. split; [done|]. simpl.
    repeat split; try done; try lia.
    rewrite to_int_small; destruct Hb; lia.
  - pose proof (shiftr31_bit _ Hcode) as Hb.
    destruct (encode _ _ _ _ _) as [e stream'] eqn:Henc. simpl.
    rewrite decide_True by lia. simpl.
    eexists _, _. split; [done|]. simpl.
    repeat split; try done; try apply wrap32_range.
    rewrite to_int_small; destruct Hb; lia.
Qed.

Lemma pow2_succ k : 0 <= k -> 2 ^ (k + 1) = 2 * 2 ^ k.
Proof. intros. rewrite Z.pow_add_r by lia. lia. Qed.

Lemma pow2_mono a b : 0 <= a <= b -> 2 ^ a <= 2 ^ b.
Proof. intros. apply Z.pow_le_mono_r; lia. Qed.

(** [n] iterations of the model loop from depth [k] of the context tree:
    the subscripts stay in the subtree of the channel. *)
Lemma model_loop_inv kDecode base n : forall s k,
  (kDecode = true -> range7_bits (R:=R)) ->
  0 <= base -> 0 <= k -> k + Z.of_nat n <= 13 ->
  2 ^ k <= ps_ctx s < 2 ^ (k + 1) ->
  base + 2 ^ (k + Z.of_nat n) <= v_size (models_ (ps_w s)) ->
  v_size (models_ (ps_w s)) <= 2 ^ 64 ->
  0 <= ps_code s < 2 ^ 32 ->
  exists s' new,
    model_loop kDecode base n s = Some s' /\
    2 ^ (k + Z.of_nat n) <= ps_ctx s' < 2 ^ (k + Z.of_nat n + 1) /\
    0 <= ps_code s' < 2 ^ 32 /\
    same_shape (ps_w s) (ps_w s') /\
    touched_ (ps_w s') = new ++ touched_ (ps_w s) /\
    length new = n /\
    Forall (fun i => base + 2 ^ k <= i < base + 2 ^ (k + Z.of_nat n)) new.
Proof.
  induction n as [|n IH]; intros s k Hbits Hbase Hk Hn Hctx Hsz H64 Hcode.
  - exists s, []. simpl. rewrite Z.add_0_r. repeat split; try done; lia.
  - pose proof (pow2_pos k Hk) as Hpk.
    pose proof (pow2_succ k Hk) as Hk1.
    pose proof (pow2_mono (k + 1) (k + Z.of_nat (S n)) ltac:(lia)) as Hmono.
    pose proof (pow2_mono (k + 1) 14 ltac:(lia)) as H14.
    destruct (model_bit_step kDecode base s Hbits Hbase) as
      (s1 & bit & Hs1 & Hbit & Hc1 & Hcode1 & Hsh1 & Ht1); try lia; try done.
    simpl. rewrite Hs1. simpl.
    destruct Hsh1 as (Hv1 & Ho1 & Hnb1 & Hnn1).
    replace (k + Z.of_nat (S n)) with (k + 1 + Z.of_nat n) in * by lia.
    destruct (IH s1 (k + 1)) as
      (s' & new & Hs' & Hc' & Hcode' & Hsh' & Ht' & Hlen & Hall);
      try done; try lia.
    { rewrite Hc1, (pow2_succ (k + 1)) by lia. destruct Hbit; lia. }
    exists s', (new ++ [base + ps_ctx s]).
    split; [done|]. split; [done|]. split; [done|].
    split. { eapply same_shape_trans; [|done]. done. }
    split. { rewrite Ht', Ht1. by rewrite <- app_assoc. }
    split. { rewrite length_app. simpl. lia. }
    apply Forall_app. split.
    + eapply Forall_impl; [done|]. simpl. intros; lia.
    + apply Forall_singleton. lia.
Qed.

Lemma noise_bit_same kDecode s :
  models_ (ps_w (noise_bit kDecode s)) = models_ (ps_w s) /\
  touched_ (ps_w (noise_bit kDecode s)) = touched_ (ps_w s) /\
  same_shape (ps_w s) (ps_w (noise_bit kDecode s)).
Proof.
  unfold noise_bit. destruct kDecode.
  - by destruct (decodeBit _ _) as [[e st] bit].
  - by destruct (encodeBit _ _ _) as [e st].
Qed.

Lemma noise_loop_same kDecode n : forall s,
  models_ (ps_w (noise_loop kDecode n s)) = models_ (ps_w s) /\
  touched_ (ps_w (noise_loop kDecode n s)) = touched_ (ps_w s) /\
  same_shape (ps_w s) (ps_w (noise_loop kDecode n s)).
Proof.
  induction n as [|n IH]; intros s; simpl; [done|].
  destruct (IH (noise_bit kDecode s)) as (-> & -> & Hsh).
  destruct (noise_bit_same kDecode s) as (-> & -> & Hsh').
  split; [done|]. split; [done|]. by eapply same_shape_trans.
Qed.

Lemma init_initialised w : initialised (init w).
Proof. by vm_compute. Qed.

Lemma initialised_shape w w' : initialised w -> same_shape w w' -> initialised w'.
Proof. unfold initialised, same_shape. intros (?&?&?) (?&?&?&?). repeat split; congruence. Qed.

(** A call of [processSample] on an initialised object: it returns, and
    its 13 subscripts lie in the half-open range of the channel. *)
Lemma processSample_ok kDecode w stream channel c :
  (kDecode = true -> range7_bits (R:=R)) ->
  initialised w -> channel = 0 \/ channel = 1 ->
  exists w' stream' r new,
    processSample kDecode w stream 0 channel c = Some (w', stream', r) /\
    same_shape w w' /\
    touched_ w' = new ++ touched_ w /\
    length new = 13%nat /\
    Forall (fun i => channel * 2 ^ 13 + 1 <= i < (channel + 1) * 2 ^ 13) new.
Proof.
  intros Hbits (Hsz & Hnb & Hnn) Hch. unfold processSample.
  rewrite Hnn, Hnb, Hsz.
  assert (Hbase : wrap64 (Z.shiftl (wrap64 (0 * 2 + channel)) 13)
                  = channel * 2 ^ 13)
    by (destruct Hch; subst; reflexivity).
  rewrite Hbase. rewrite decide_True by (destruct Hch; subst; lia).
  set (s0 := mkps w stream _ 1).
  destruct (model_loop_inv kDecode (channel * 2 ^ 13) 13 s0 0) as
    (s' & new & Hs' & Hc' & Hcode' & Hsh' & Ht' & Hlen & Hall);
    try done; try (simpl; destruct Hch; subst; lia).
  { simpl. destruct kDecode; [lia|apply wrap32_range]. }
  change (Z.to_nat 13) with 13%nat. change (Z.to_nat 3) with 3%nat.
  rewrite Hs'. cbn [mbind option_bind].
  destruct (noise_loop_same kDecode 3 s') as (Hm & Ht & Hsh).
  eexists _, _, _, new. split; [done|].
  split. { eapply same_shape_trans; done. }
  split. { by rewrite Ht, Ht'. }
  split; [done|].
  eapply Forall_impl; [done|]. simpl. intros; lia.
Qed.

End WalkProps.

(** ** Bits of a residual *)

Lemma assemble_shift bits : forall acc,
  assemble acc bits = acc * 2 ^ Z.of_nat (length bits) + assemble 0 bits.
Proof.
  unfold assemble.
  induction bits as [|b bits IH]; intros acc; simpl foldl.
  - simpl. lia.
  - rewrite IH, (IH (2 * 0 + b)).
    replace (Z.of_nat (length (b :: bits)))
      with (Z.of_nat (length bits) + 1) by (simpl; lia).
    rewrite pow2_succ by lia. lia.
Qed.

Lemma assemble_cons b bits :
  assemble 0 (b :: bits) = b * 2 ^ Z.of_nat (length bits) + assemble 0 bits.
Proof.
  change (assemble 0 (b :: bits)) with (assemble (2 * 0 + b) bits).
  rewrite assemble_shift. lia.
Qed.

Lemma assemble_range bits :
  Forall is_bit bits -> 0 <= assemble 0 bits < 2 ^ Z.of_nat (length bits).
Proof.
  induction 1 as [|b bits Hb _ IH].
  - by vm_compute.
  - rewrite assemble_cons.
    replace (Z.of_nat (length (b :: bits)))
      with (Z.of_nat (length bits) + 1) by (simpl; lia).
    rewrite pow2_succ by lia. destruct Hb; subst; lia.
Qed.

Lemma bits_msb_length n r : length (bits_msb n r) = n.
Proof. induction n; simpl; congruence. Qed.

Lemma bits_msb_bits n r : Forall is_bit (bits_msb n r).
Proof.
  induction n as [|n IH]; simpl; constructor; [|done].
  pose proof (Z.mod_pos_bound (r / 2 ^ Z.of_nat n) 2 ltac:(lia)).
  unfold is_bit. lia.
Qed.

Lemma bits_msb_assemble n r : assemble 0 (bits_msb n r) = r mod 2 ^ Z.of_nat n.
Proof.
  induction n as [|n IH].
  - simpl. by rewrite Z.mod_1_r.
  - simpl bits_msb. rewrite assemble_cons, bits_msb_length, IH.
    replace (Z.of_nat (S n)) with (Z.of_nat n + 1) by lia.
    rewrite Z.pow_add_r, Z.pow_1_r by lia.
    pose proof (pow2_pos (Z.of_nat n) ltac:(lia)).
    rewrite Z.rem_mul_r by lia. lia.
Qed.

Lemma code_of_range bits :
  Forall is_bit bits -> (length bits <= 32)%nat -> 0 <= code_of bits < 2 ^ 32.
Proof.
  intros Hb Hlen. unfold code_of.
  pose proof (assemble_range bits Hb) as Hr.
  set (n := Z.of_nat (length bits)) in *.
  pose proof (pow2_pos (32 - n) ltac:(lia)).
  replace (2 ^ 32) with (2 ^ n * 2 ^ (32 - n))
    by (rewrite <- Z.pow_add_r by lia; f_equal; lia).
  nia.
Qed.

Lemma code_of_next b bits :
  Forall is_bit (b :: bits) -> (length (b :: bits) <= 32)%nat ->
  Z.shiftr (code_of (b :: bits)) 31 = b /\
  wrap32 (Z.shiftl (code_of (b :: bits)) 1) = code_of bits.
Proof.
  intros Hb Hlen. inversion Hb as [|? ? Hb0 Hbs]; subst.
  simpl in Hlen. unfold code_of.
  rewrite assemble_cons.
  replace (Z.of_nat (length (b :: bits)))
    with (Z.of_nat (length bits) + 1) by (simpl; lia).
  pose proof (assemble_range bits Hbs) as Hr.
  set (n := Z.of_nat (length bits)) in *.
  set (v := assemble 0 bits) in *.
  assert (Hn : 0 <= n <= 31) by lia.
  pose proof (pow2_pos (31 - n) ltac:(lia)) as Hp.
  assert (H31 : 2 ^ n * 2 ^ (31 - n) = 2 ^ 31)
    by (rewrite <- Z.pow_add_r by lia; f_equal; lia).
  replace (32 - (n + 1)) with (31 - n) by lia.
  replace (2 ^ (32 - n)) with (2 * 2 ^ (31 - n))
    by (rewrite <- pow2_succ by lia; f_equal; lia).
  assert (Hlow : 0 <= v * 2 ^ (31 - n) < 2 ^ 31) by nia.
  split.
  - rewrite Z.shiftr_div_pow2 by lia.
    replace ((b * 2 ^ n + v) * 2 ^ (31 - n))
      with (v * 2 ^ (31 - n) + b * 2 ^ 31) by (rewrite <- H31; ring).
    rewrite Z.div_add by lia. rewrite Z.div_small by lia. lia.
  - rewrite Z.shiftl_mul_pow2 by lia. unfold wrap32.
    replace ((b * 2 ^ n + v) * 2 ^ (31 - n) * 2 ^ 1)
      with (v * (2 * 2 ^ (31 - n)) + b * 2 ^ 32)
      by (change (2 ^ 32) with (2 * 2 ^ 31); rewrite <- H31, Z.pow_1_r; ring).
    rewrite Z.mod_add by lia. apply Z.mod_small. lia.
Qed.

Lemma code_of_residual c :
  0 <= c < 2 ^ 16 -> wrap32 (Z.shiftl c (4 * 8 - 16)) = code_of (bits_msb 16 c).
Proof.
  intros Hc. unfold code_of.
  rewrite bits_msb_assemble, bits_msb_length.
  rewrite Z.shiftl_mul_pow2 by lia.
  change (Z.of_nat 16) with 16. rewrite Z.mod_small by lia.
  change (32 - 16) with 16. change (4 * 8 - 16) with 16.
  apply wrap32_small. lia.
Qed.

(** ** Wav16: the loops of [processSample] against the walk *)

Arguments bits_msb : simpl never.
Arguments code_of : simpl never.
Arguments sample_walk : simpl never.
Arguments sample_events : simpl never.

Section SampleProps.

Context {M R : Type} `{!StationaryModel M} `{!Range7 R}.
Implicit Types (w : Wav16.t (M:=M) (R:=R)) (s : Wav16.ps (M:=M) (R:=R)).

Import Wav16.

Lemma patched_eq p : p + (if decide (p = 0) then 1 else 0) = patched p.
Proof. unfold patched. case_decide; lia. Qed.

(** One iteration of the model loop of the encoder. *)
Lemma model_bit_enc base s b rest :
  Forall is_bit (b :: rest) -> (length (b :: rest) <= 32)%nat ->
  ps_code s = code_of (b :: rest) ->
  0 <= base -> 1 <= ps_ctx s < 2 ^ 30 ->
  base + ps_ctx s < v_size (models_ (ps_w s)) ->
  v_size (models_ (ps_w s)) <= 2 ^ 64 ->
  let w := ps_w s in
  let idx := base + ps_ctx s in
  let m := vget (models_ w) idx in
  let st := enc_event (ent w, ps_stream s) (EvModel (patched (getP m)) b) in
  model_bit false base s
  = Some (mkps (mk (vset (models_ w) idx (update m b)) st.1 (opt_var w)
                   (noise_bits_ w) (non_noise_bits_ w) (idx :: touched_ w))
               st.2 (code_of rest) (2 * ps_ctx s + b)).
Proof.
  intros Hb Hlen Hcode Hbase Hctx Hidx Hsz. simpl.
  destruct (code_of_next b rest Hb Hlen) as [Hbit Hnext].
  unfold model_bit. rewrite (wrap64_small (base + ps_ctx s)) by lia.
  unfold vload, vstore. simpl.
  rewrite decide_True by lia. simpl.
  rewrite patched_eq, Hcode, Hbit, Hnext.
  fold (vget (models_ (ps_w s)) (base + ps_ctx s)).
  destruct (encode _ _ _ _ _) as [e stream'] eqn:Henc. simpl.
  rewrite decide_True by lia. simpl.
  rewrite to_int_small by (inversion Hb as [|? ? [-> | ->] ?]; lia).
  unfold set_ent, set_models, log_touch, vset. simpl.
  do 3 f_equal. lia.
Qed.

(** One iteration of the model loop of the decoder, when the coder is
    about to return the bit [b]. *)
Lemma model_bit_dec base s b evs :
  is_bit b -> 0 <= base -> 1 <= ps_ctx s < 2 ^ 30 ->
  base + ps_ctx s < v_size (models_ (ps_w s)) ->
  v_size (models_ (ps_w s)) <= 2 ^ 64 ->
  let w := ps_w s in
  let idx := base + ps_ctx s in
  let m := vget (models_ w) idx in
  dec_ok (EvModel (patched (getP m)) b :: evs) (ent w, ps_stream s) ->
  exists e' stream',
    model_bit true base s
    = Some (mkps (mk (vset (models_ w) idx (update m b)) e' (opt_var w)
                     (noise_bits_ w) (non_noise_bits_ w) (idx :: touched_ w))
                 stream' (ps_code s) (2 * ps_ctx s + b)) /\
    dec_ok evs (e', stream').
Proof.
  intros Hb Hbase Hctx Hidx Hsz. simpl. intros Hok.
  unfold model_bit. rewrite (wrap64_small (base + ps_ctx s)) by lia.
  unfold vload, vstore. simpl.
  rewrite decide_True by lia. simpl.
  rewrite patched_eq.
  fold (vget (models_ (ps_w s)) (base + ps_ctx s)).
  destruct (getDecodedBit _ _ _) as [e bit] eqn:Hdec.
  destruct Hok as [-> Hok]. simpl.
  destruct (Normalize e (ps_stream s)) as [e' stream'] eqn:Hn.
  rewrite decide_True by lia. simpl.
  rewrite to_int_small by (destruct Hb; lia).
  exists e', stream'. split; [|done].
  unfold set_ent, set_models, log_touch, vset. simpl.
  do 3 f_equal. lia.
Qed.

Lemma walk_ctx base bits : forall (ms : vec M) ctx,
  wk_ctx (walk base bits ms ctx) = assemble ctx bits.
Proof.
  induction bits as [|b bits IH]; intros ms ctx; [done|].
  simpl. by rewrite IH.
Qed.

Lemma walk_models_size base bits : forall (ms : vec M) ctx,
  v_size (wk_models (walk base bits ms ctx)) = v_size ms.
Proof.
  induction bits as [|b bits IH]; intros ms ctx; [done|].
  simpl. by rewrite IH.
Qed.

Lemma walk_indices_length base bits : forall (ms : vec M) ctx,
  length (wk_indices (walk base bits ms ctx)) = length bits.
Proof.
  induction bits as [|b bits IH]; intros ms ctx; [done|].
  simpl. by rewrite IH.
Qed.

(** The model loop of the encoder is the walk over the bits at the top
    of the code register. *)
Lemma model_loop_enc base bits : forall s rest k,
  Forall is_bit (bits ++ rest) -> (length (bits ++ rest) <= 32)%nat ->
  ps_code s = code_of (bits ++ rest) ->
  0 <= base -> 0 <= k -> k + Z.of_nat (length bits) <= 13 ->
  2 ^ k <= ps_ctx s < 2 ^ (k + 1) ->
  base + 2 ^ (k + Z.of_nat (length bits)) <= v_size (models_ (ps_w s)) ->
  v_size (models_ (ps_w s)) <= 2 ^ 64 ->
  let w := ps_w s in
  let r := walk base bits (models_ w) (ps_ctx s) in
  let st := enc_events (ent w, ps_stream s) (wk_events r) in
  model_loop false base (length bits) s
  = Some (mkps (mk (wk_models r) st.1 (opt_var w) (noise_bits_ w)
                   (non_noise_bits_ w) (rev (wk_indices r) ++ touched_ w))
               st.2 (code_of rest) (wk_ctx r)).
Proof.
  induction bits as [|b bits IH];
    intros s rest k Hb Hlen Hcode Hbase Hk Hn Hctx Hsz H64; simpl.
  - simpl in Hcode. rewrite <- Hcode. by destruct s as [[] ? ? ?].
  - pose proof (pow2_pos k Hk) as Hpk.
    pose proof (pow2_succ k Hk) as Hk1.
    assert (Hl : Z.of_nat (length (b :: bits)) = Z.of_nat (length bits) + 1)
      by (simpl; lia).
    rewrite Hl in Hn, Hsz.
    replace (k + (Z.of_nat (length bits) + 1))
      with (k + 1 + Z.of_nat (length bits)) in Hsz by lia.
    pose proof (pow2_mono (k + 1) (k + 1 + Z.of_nat (length bits))
                  ltac:(lia)) as Hmono.
    pose proof (pow2_mono (k + 1) 14 ltac:(lia)) as H14.
    simpl in Hb, Hlen, Hcode.
    rewrite (model_bit_enc base s b (bits ++ rest)); try done; try lia.
    cbn [mbind option_bind].
    rewrite (IH _ rest (k + 1)); simpl; try done; try lia.
    + unfold enc_events. simpl. destruct (encode _ _ _ _ _). simpl.
      by rewrite <- app_assoc.
    + by inversion Hb.
    + rewrite (pow2_succ (k + 1)) by lia.
      inversion Hb as [|? ? [-> | ->] ?]; lia.
Qed.

(** The model loop of the decoder, when the coder is about to return the
    bits of the walk. *)
Lemma model_loop_dec base bits : forall s k evs,
  Forall is_bit bits ->
  0 <= base -> 0 <= k -> k + Z.of_nat (length bits) <= 13 ->
  2 ^ k <= ps_ctx s < 2 ^ (k + 1) ->
  base + 2 ^ (k + Z.of_nat (length bits)) <= v_size (models_ (ps_w s)) ->
  v_size (models_ (ps_w s)) <= 2 ^ 64 ->
  let w := ps_w s in
  let r := walk base bits (models_ w) (ps_ctx s) in
  dec_ok (wk_events r ++ evs) (ent w, ps_stream s) ->
  exists e' stream',
    model_loop true base (length bits) s
    = Some (mkps (mk (wk_models r) e' (opt_var w) (noise_bits_ w)
                     (non_noise_bits_ w) (rev (wk_indices r) ++ touched_ w))
                 stream' (ps_code s) (wk_ctx r)) /\
    dec_ok evs (e', stream').
Proof.
  induction bits as [|b bits IH];
    intros s k evs Hb Hbase Hk Hn Hctx Hsz H64; simpl; intros Hok.
  - exists (ent (ps_w s)), (ps_stream s). split; [|done].
    by destruct s as [[] ? ? ?].
  - pose proof (pow2_pos k Hk) as Hpk.
    pose proof (pow2_succ k Hk) as Hk1.
    assert (Hl : Z.of_nat (length (b :: bits)) = Z.of_nat (length bits) + 1)
      by (simpl; lia).
    rewrite Hl in Hn, Hsz.
    replace (k + (Z.of_nat (length bits) + 1))
      with (k + 1 + Z.of_nat (length bits)) in Hsz by lia.
    pose proof (pow2_mono (k + 1) (k + 1 + Z.of_nat (length bits))
                  ltac:(lia)) as Hmono.
    pose proof (pow2_mono (k + 1) 14 ltac:(lia)) as H14.
    inversion Hb as [|? ? Hb0 Hbs]; subst.
    destruct (model_bit_dec base s b _ Hb0 Hbase ltac:(lia) ltac:(lia) H64 Hok)
      as (e1 & stream1 & -> & Hok1).
    cbn [mbind option_bind].
    match goal with
    | |- context [model_loop true base _ ?s1] =>
        destruct (IH s1 (k + 1) evs) as (e' & stream' & -> & Hok')
    end; simpl; try done; try lia.
    + rewrite (pow2_succ (k + 1)) by lia. destruct Hb0; lia.
    + exists e', stream'. split; [|done]. do 3 f_equal.
      by rewrite <- app_assoc.
Qed.

(** The noise loop of the encoder codes the next bits of the code register
    directly and leaves [ctx] alone. *)
Lemma noise_loop_enc bits : forall s rest,
  Forall is_bit (bits ++ rest) -> (length (bits ++ rest) <= 32)%nat ->
  ps_code s = code_of (bits ++ rest) ->
  let st := enc_events (ent (ps_w s), ps_stream s) (map EvDirect bits) in
  noise_loop false (length bits) s
  = mkps (set_ent (ps_w s) st.1) st.2 (code_of rest) (ps_ctx s).
Proof.
  induction bits as [|b bits IH]; intros s rest Hb Hlen Hcode; simpl.
  - simpl in Hcode. rewrite <- Hcode. by destruct s as [[] ? ? ?].
  - simpl in Hb, Hlen, Hcode.
    destruct (code_of_next b (bits ++ rest) Hb Hlen) as [Hbit Hnext].
    rewrite Hcode, Hbit, Hnext.
    destruct (encodeBit _ _ _) as [e stream'].
    rewrite (IH _ rest); simpl; [done|by inversion Hb|lia|done].
Qed.

(** The noise loop of the decoder shifts the decoded bits into [ctx]. *)
Lemma noise_loop_dec bits : forall s k evs,
  Forall is_bit bits ->
  0 <= k -> k + Z.of_nat (length bits) <= 30 -> 0 <= ps_ctx s < 2 ^ k ->
  dec_ok (map EvDirect bits ++ evs) (ent (ps_w s), ps_stream s) ->
  exists e' stream',
    noise_loop true (length bits) s
    = mkps (set_ent (ps_w s) e') stream' (ps_code s)
           (assemble (ps_ctx s) bits) /\
    dec_ok evs (e', stream').
Proof.
  induction bits as [|b bits IH]; intros s k evs Hb Hk Hn Hctx Hok; simpl.
  - exists (ent (ps_w s)), (ps_stream s). split; [|done].
    by destruct s as [[] ? ? ?].
  - assert (Hl : Z.of_nat (length (b :: bits)) = Z.of_nat (length bits) + 1)
      by (simpl; lia).
    rewrite Hl in Hn.
    pose proof (pow2_succ k Hk) as Hk1.
    pose proof (pow2_mono (k + 1) 30 ltac:(lia)) as H30.
    inversion Hb as [|? ? Hb0 Hbs]; subst.
    simpl in Hok.
    destruct (decodeBit _ _) as [[e stream1] bit].
    destruct Hok as [-> Hok].
    assert (Hstep : to_int (ps_ctx s + wrap32 (ps_ctx s + b))
                    = 2 * ps_ctx s + b).
    { rewrite (wrap32_small (ps_ctx s + b)) by (destruct Hb0; lia).
      rewrite to_int_small by (destruct Hb0; lia). lia. }
    rewrite Hstep.
    match goal with
    | |- context [noise_loop true _ ?s1] =>
        destruct (IH s1 (k + 1) evs) as (e' & stream' & -> & Hok')
    end; simpl; try done; try lia.
    + destruct Hb0; lia.
    + by exists e', stream'.
Qed.

(** The two decoder loops on an explicit state. *)
Lemma model_loop_dec_mk base bits w stream code ctx k evs :
  Forall is_bit bits ->
  0 <= base -> 0 <= k -> k + Z.of_nat (length bits) <= 13 ->
  2 ^ k <= ctx < 2 ^ (k + 1) ->
  base + 2 ^ (k + Z.of_nat (length bits)) <= v_size (models_ w) ->
  v_size (models_ w) <= 2 ^ 64 ->
  dec_ok (wk_events (walk base bits (models_ w) ctx) ++ evs) (ent w, stream) ->
  exists e' stream',
    model_loop true base (length bits) (mkps w stream code ctx)
    = Some (mkps (mk (wk_models (walk base bits (models_ w) ctx)) e'
                     (opt_var w) (noise_bits_ w) (non_noise_bits_ w)
                     (rev (wk_indices (walk base bits (models_ w) ctx))
                      ++ touched_ w))
                 stream' code (wk_ctx (walk base bits (models_ w) ctx))) /\
    dec_ok evs (e', stream').
Proof. exact (model_loop_dec base bits (mkps w stream code ctx) k evs). Qed.

Lemma noise_loop_dec_mk bits w stream code ctx k evs :
  Forall is_bit bits ->
  0 <= k -> k + Z.of_nat (length bits) <= 30 -> 0 <= ctx < 2 ^ k ->
  dec_ok (map EvDirect bits ++ evs) (ent w, stream) ->
  exists e' stream',
    noise_loop true (length bits) (mkps w stream code ctx)
    = mkps (set_ent w e') stream' code (assemble ctx bits) /\
    dec_ok evs (e', stream').
Proof. exact (noise_loop_dec bits (mkps w stream code ctx) k evs). Qed.

Lemma land_pow2_16 a : 0 <= a < 2 ^ 16 -> Z.land a (2 ^ 16) = 0.
Proof.
  intros Ha. apply Z.bits_inj'. intros n Hn.
  rewrite Z.land_spec, Z.bits_0.
  destruct (decide (n = 16)) as [->|Hne].
  - assert (Z.testbit a 16 = false) as ->; [|done].
    apply Z.testbit_false; [lia|]. by rewrite Z.div_small by lia.
  - rewrite (Z.pow2_bits_false 16 n) by lia. by rewrite andb_false_r.
Qed.

Lemma lxor_marker a : 0 <= a < 2 ^ 16 -> Z.lxor (2 ^ 16 + a) (2 ^ 16) = a.
Proof.
  intros Ha. rewrite (Z.add_comm (2 ^ 16)).
  rewrite Z.add_nocarry_lxor by (by apply land_pow2_16).
  by rewrite Z.lxor_assoc, Z.lxor_nilpotent, Z.lxor_0_r.
Qed.

Lemma lxor_no_marker a : 0 <= a < 2 ^ 16 -> Z.lxor a (2 ^ 16) = 2 ^ 16 + a.
Proof.
  intros Ha. rewrite (Z.add_comm (2 ^ 16)).
  by rewrite Z.add_nocarry_lxor by (by apply land_pow2_16).
Qed.

Lemma channel_base channel :
  channel = 0 \/ channel = 1 ->
  wrap64 (Z.shiftl (wrap64 (0 * 2 + channel)) 13) = channel * 2 ^ 13.
Proof. by intros [-> | ->]. Qed.

Lemma assemble_app acc bits1 bits2 :
  assemble (assemble acc bits1) bits2 = assemble acc (bits1 ++ bits2).
Proof. unfold assemble. by rewrite foldl_app. Qed.

Lemma enc_events_app (st : R * list Z) evs1 evs2 :
  enc_events (enc_events st evs1) evs2 = enc_events st (evs1 ++ evs2).
Proof. unfold enc_events. by rewrite foldl_app. Qed.

(** The context after the 13 modelled bits of a residual. *)
Lemma sample_walk_ctx (ms : vec M) channel c :
  0 <= c < 2 ^ 16 ->
  wk_ctx (sample_walk ms channel c) = 2 ^ 13 + c / 2 ^ 3.
Proof.
  intros Hc. unfold sample_walk. rewrite walk_ctx.
  pose proof (bits_msb_assemble 16 c) as Hall.
  rewrite <- (take_drop 13 (bits_msb 16 c)), <- assemble_app in Hall.
  rewrite assemble_shift in Hall.
  rewrite length_drop, bits_msb_length in Hall.
  change (Z.of_nat (16 - 13)) with 3 in Hall.
  change (Z.of_nat 16) with 16 in Hall.
  rewrite (Z.mod_small c) in Hall by lia.
  rewrite assemble_shift.
  rewrite length_take, bits_msb_length. change (Z.of_nat (13 `min` 16)) with 13.
  assert (Hd : Forall is_bit (drop 13 (bits_msb 16 c)))
    by (apply Forall_drop, bits_msb_bits).
  pose proof (assemble_range _ Hd) as Hr.
  rewrite length_drop, bits_msb_length in Hr.
  change (Z.of_nat (16 - 13)) with 3 in Hr.
  set (hi := assemble 0 (take 13 (bits_msb 16 c))) in *.
  set (lo := assemble 0 (drop 13 (bits_msb 16 c))) in *.
  assert (c / 2 ^ 3 = hi) as ->; [|lia].
  rewrite <- Hall. rewrite Z.add_comm, Z.div_add by lia.
  rewrite Z.div_small by lia. lia.
Qed.

Lemma sample_walk_eq (ms : vec M) channel c :
  sample_walk ms channel c
  = walk (channel * 2 ^ 13) (take 13 (bits_msb 16 c)) ms 1.
Proof. reflexivity. Qed.

Lemma sample_events_eq (ms : vec M) channel c :
  sample_events ms channel c
  = wk_events (sample_walk ms channel c)
    ++ map EvDirect (drop 13 (bits_msb 16 c)).
Proof. reflexivity. Qed.

Lemma sample_walk_ctx_range (ms : vec M) channel c :
  0 <= c < 2 ^ 16 ->
  0 <= wk_ctx (sample_walk ms channel c) < 2 ^ 32 /\
  0 <= wk_ctx (sample_walk ms channel c) < 2 ^ 16.
Proof.
  intros Hc. rewrite sample_walk_ctx by done.
  assert (0 <= c / 2 ^ 3 < 2 ^ 13)
    by (split; [apply Z.div_pos|apply Z.div_lt_upper_bound]; lia).
  lia.
Qed.

(** [processSample<false>]: the walk of the residual, coded. *)
Lemma processSample_enc w sout channel c :
  initialised w -> channel = 0 \/ channel = 1 -> 0 <= c < 2 ^ 16 ->
  let r := sample_walk (models_ w) channel c in
  let st := enc_events (ent w, sout) (sample_events (models_ w) channel c) in
  processSample false w sout 0 channel c
  = Some (mk (wk_models r) st.1 (opt_var w) (noise_bits_ w)
             (non_noise_bits_ w) (rev (wk_indices r) ++ touched_ w),
          st.2, 2 ^ 16 + wk_ctx r).
Proof.
  intros (Hsz & Hnb & Hnn) Hch Hc. cbv zeta.
  destruct (sample_walk_ctx_range (models_ w) channel c Hc) as [Hx32 Hx16].
  unfold processSample. rewrite Hnn, Hnb, Hsz, (channel_base _ Hch).
  rewrite decide_True by lia.
  rewrite (code_of_residual c Hc).
  rewrite sample_events_eq, <- enc_events_app.
  rewrite !sample_walk_eq. rewrite sample_walk_eq in Hx32, Hx16.
  pose proof (bits_msb_bits 16 c) as HB.
  pose proof (bits_msb_length 16 c) as HlB.
  rewrite <- (take_drop 13 (bits_msb 16 c)) in HB, HlB |- * at 1.
  assert (Hl13 : length (take 13 (bits_msb 16 c)) = 13%nat)
    by (rewrite length_take, bits_msb_length; lia).
  assert (Hl3 : length (drop 13 (bits_msb 16 c)) = 3%nat)
    by (rewrite length_drop, bits_msb_length; lia).
  set (B1 := take 13 (bits_msb 16 c)) in *.
  set (B2 := drop 13 (bits_msb 16 c)) in *.
  clearbody B1 B2.
  change (Z.to_nat 13) with 13%nat. change (Z.to_nat 3) with 3%nat.
  rewrite <- Hl13 at 1.
  rewrite (model_loop_enc _ B1 _ B2 0);
    cbn [ps_w ps_ctx ps_code ps_stream models_];
    [| done | lia | done | lia | lia | lia | lia
     | rewrite Hl13, Hsz; lia | rewrite Hsz; lia ].
  cbn [mbind option_bind]. rewrite <- Hl3.
  rewrite (noise_loop_enc B2 _ []);
    cbn [ps_w ps_ctx ps_code ps_stream ent];
    [| by rewrite app_nil_r; eapply Forall_app
     | rewrite app_nil_r; lia | by rewrite app_nil_r ].
  unfold set_ent. cbn [ps_w ps_ctx ps_code ps_stream models_ ent opt_var
                       noise_bits_ non_noise_bits_ touched_].
  rewrite Hnb, Hnn.
  rewrite (wrap32_small _ Hx32).
  change (Z.shiftl 1 16) with (2 ^ 16).
  rewrite (lxor_no_marker _ Hx16).
  destruct (enc_events (ent w, sout) (wk_events _)) as [e1 s1].
  cbn [fst snd]. reflexivity.
Qed.

(** [processSample<true>], when the coder is about to return the bits of
    the residual [c]: the same walk, and [c] is returned. *)
Lemma processSample_dec w sin channel c evs :
  initialised w -> channel = 0 \/ channel = 1 -> 0 <= c < 2 ^ 16 ->
  let r := sample_walk (models_ w) channel c in
  dec_ok (sample_events (models_ w) channel c ++ evs) (ent w, sin) ->
  exists e' sin',
    processSample true w sin 0 channel 0
    = Some (mk (wk_models r) e' (opt_var w) (noise_bits_ w)
               (non_noise_bits_ w) (rev (wk_indices r) ++ touched_ w),
            sin', c) /\
    dec_ok evs (e', sin').
Proof.
  intros (Hsz & Hnb & Hnn) Hch Hc. cbv zeta. intros Hok.
  destruct (sample_walk_ctx_range (models_ w) channel c Hc) as [Hx32 Hx16].
  unfold processSample. rewrite Hnn, Hnb, Hsz, (channel_base _ Hch).
  rewrite decide_True by lia.
  rewrite sample_events_eq, <- app_assoc in Hok.
  rewrite !sample_walk_eq. rewrite sample_walk_eq in Hok, Hx32, Hx16.
  pose proof (bits_msb_bits 16 c) as HB.
  pose proof (bits_msb_assemble 16 c) as Hasm.
  rewrite <- (take_drop 13 (bits_msb 16 c)) in HB, Hasm.
  apply Forall_app in HB as [HB1 HB2].
  assert (Hl13 : length (take 13 (bits_msb 16 c)) = 13%nat)
    by (rewrite length_take, bits_msb_length; lia).
  assert (Hl3 : length (drop 13 (bits_msb 16 c)) = 3%nat)
    by (rewrite length_drop, bits_msb_length; lia).
  set (B1 := take 13 (bits_msb 16 c)) in *.
  set (B2 := drop 13 (bits_msb 16 c)) in *.
  assert (Hfin : assemble (wk_ctx (walk (channel * 2 ^ 13) B1 (models_ w) 1))
                          B2 = 2 ^ 16 + c).
  { rewrite walk_ctx, assemble_app, assemble_shift, Hasm.
    rewrite length_app, Hl13, Hl3. change (Z.of_nat (13 + 3)) with 16.
    change (Z.of_nat 16) with 16. rewrite Z.mod_small by lia. lia. }
  clearbody B1 B2.
  change (Z.to_nat 13) with 13%nat. change (Z.to_nat 3) with 3%nat.
  destruct (model_loop_dec_mk (channel * 2 ^ 13) B1 w sin 0 1 0
              (map EvDirect B2 ++ evs))
    as (e1 & sin1 & Hm & Hok1);
    [ done | lia | lia | lia | lia | rewrite Hl13, Hsz; lia
    | rewrite Hsz; lia | done | ].
  rewrite Hl13 in Hm. rewrite Hm. cbn [mbind option_bind].
  match goal with
  | |- context [noise_loop true _ (mkps ?w1 _ _ ?ctx1)] =>
      destruct (noise_loop_dec_mk B2 w1 sin1 0 ctx1 16 evs)
        as (e' & sin' & Hn & Hok')
  end;
    [ done | lia | rewrite Hl3; lia | exact Hx16 | done | ].
  rewrite Hl3 in Hn. rewrite Hn. exists e', sin'. split; [|done].
  unfold set_ent. cbn [ps_w ps_ctx ps_code ps_stream models_ ent opt_var
                       noise_bits_ non_noise_bits_ touched_].
  rewrite Hnb, Hnn, Hfin.
  change (Z.shiftl 1 16) with (2 ^ 16).
  rewrite (wrap32_small (2 ^ 16 + c)) by lia.
  by rewrite lxor_marker.
Qed.

End SampleProps.

(** ** Wav16: the frame loops *)

Lemma frame_count_le n : n <= 0 -> frame_count n = O.
Proof.
  intros. unfold frame_count.
  assert ((n + 3) / 4 <= 0) by (apply Z.lt_succ_r, Z.div_lt_upper_bound; lia).
  lia.
Qed.

Lemma frame_count_succ n : 0 < n -> frame_count n = S (frame_count (n - 4)).
Proof.
  intros. unfold frame_count.
  replace (n + 3) with (n - 4 + 3 + 1 * 4) by lia.
  rewrite Z.div_add by lia.
  assert (0 <= (n - 4 + 3) / 4) by (apply Z.div_pos; lia).
  lia.
Qed.

(** The four reads of an iteration of the loop of [compress], on an input
    of octets that is not at its end. *)
Lemma get4 sin :
  sin <> [] -> Forall octet sin ->
  exists c1 c2 c3 c4 s1 s2 s3 s4,
    stream_get sin = (c1, s1) /\ stream_get s1 = (c2, s2) /\
    stream_get s2 = (c3, s3) /\ stream_get s3 = (c4, s4) /\
    c1 <> EOF /\
    frames_of sin
    = (wrap16 (c1 + c2 * 256), wrap16 (c3 + c4 * 256)) :: frames_of s4 /\
    s4 = drop 4 sin /\ Forall octet s4 /\ (length s4 < length sin)%nat.
Proof.
  intros Hne Hoct.
  destruct sin as [|c1 [|c2 [|c3 [|c4 sin']]]]; [done|..];
    inversion Hoct as [|? ? Hc1 Hrest]; subst;
    (assert (c1 <> EOF) by (unfold octet, EOF in *; lia)).
  - exists c1, EOF, EOF, EOF, [], [], [], [].
    repeat split; simpl; (done || lia).
  - exists c1, c2, EOF, EOF, [c2], [], [], [].
    repeat split; simpl; (done || lia).
  - exists c1, c2, c3, EOF, [c2; c3], [c3], [], [].
    repeat split; simpl; (done || lia).
  - exists c1, c2, c3, c4, (c2 :: c3 :: c4 :: sin'), (c3 :: c4 :: sin'),
      (c4 :: sin'), sin'.
    repeat split; try done.
    + inversion Hrest as [|? ? ? Hr2]; subst.
      inversion Hr2 as [|? ? ? Hr3]; subst. by inversion Hr3.
    + simpl. lia.
Qed.

Arguments Wav16.processSample : simpl never.

Section FrameProps.

Context {M R : Type} `{!StationaryModel M} `{!Range7 R}.
Implicit Types (w : Wav16.t (M:=M) (R:=R)).

Import Wav16.

Lemma sample_walk_size (ms : vec M) channel c :
  v_size (wk_models (sample_walk ms channel c)) = v_size ms.
Proof. apply walk_models_size. Qed.

(** [processSample] on an object given by its fields. *)
Lemma processSample_enc_mk (ms : vec M) (e : R) o t sout channel c :
  v_size ms = 2 ^ 16 -> channel = 0 \/ channel = 1 -> 0 <= c < 2 ^ 16 ->
  processSample false (mk ms e o 3 13 t) sout 0 channel c
  = Some (mk (wk_models (sample_walk ms channel c))
             (enc_events (e, sout) (sample_events ms channel c)).1 o 3 13
             (rev (wk_indices (sample_walk ms channel c)) ++ t),
          (enc_events (e, sout) (sample_events ms channel c)).2,
          2 ^ 16 + wk_ctx (sample_walk ms channel c)).
Proof. intros. by apply (processSample_enc (mk ms e o 3 13 t)). Qed.

Lemma processSample_dec_mk (ms : vec M) (e : R) o t sin channel c evs :
  v_size ms = 2 ^ 16 -> channel = 0 \/ channel = 1 -> 0 <= c < 2 ^ 16 ->
  dec_ok (sample_events ms channel c ++ evs) (e, sin) ->
  exists e' sin',
    processSample true (mk ms e o 3 13 t) sin 0 channel 0
    = Some (mk (wk_models (sample_walk ms channel c)) e' o 3 13
               (rev (wk_indices (sample_walk ms channel c)) ++ t),
            sin', c) /\
    dec_ok evs (e', sin').
Proof. intros. by apply (processSample_dec (mk ms e o 3 13 t)). Qed.

Lemma compress_loop_S fuel max_count (s : enc_state (M:=M) (R:=R)) :
  compress_loop (S fuel) max_count s
  = if decide (e_i s < max_count) then
      let h := e_hist s in
      let '(c1, sin) := stream_get (e_sin s) in
      let '(c2, sin) := stream_get sin in
      let a := wrap16 (c1 + c2 * 256) in
      let '(c3, sin) := stream_get sin in
      let '(c4, sin) := stream_get sin in
      let b := wrap16 (c3 + c4 * 256) in
      let error_a := a - pred_a h in
      let error_b := b - pred_b h in
      if decide (c1 = EOF) then
        Some (mkenc (e_w s) sin (e_sout s) (e_i s) h)
      else
        '(w, sout, _) ← processSample false (e_w s) (e_sout s) 0 0
                                      (wrap16 error_a);
        '(w, sout, _) ← processSample false w sout 0 1 (wrap16 error_b);
        compress_loop fuel max_count
          (mkenc w sin sout (wrap64 (e_i s + 4)) (shift_hist h a b))
    else Some s.
Proof. reflexivity. Qed.

(** The loop of [compress] runs the codec over the frames of the input,
    as many as the count allows. *)
Lemma compress_loop_run max_count fuel :
  forall sin (ms : vec M) (e : R) o t sout i h,
  Forall octet sin -> (length sin < fuel)%nat -> v_size ms = 2 ^ 16 ->
  0 <= i -> max_count <= 2 ^ 64 - 4 ->
  let fs := take (frame_count (max_count - i)) (frames_of sin) in
  let r := run_frames ms h t fs in
  compress_loop fuel max_count (mkenc (mk ms e o 3 13 t) sin sout i h)
  = Some (mkenc (mk (r_models r) (enc_events (e, sout) (r_events r)).1 o 3 13
                    (r_touched r))
                (drop (4 * length fs) sin)
                (enc_events (e, sout) (r_events r)).2
                (i + 4 * Z.of_nat (length fs)) (r_hist r)).
Proof.
  induction fuel as [|fuel IH];
    intros sin ms e o t sout i h Hoct Hfuel Hsz Hi Hmc; [lia|].
  cbv zeta. rewrite compress_loop_S.
  cbn [e_i e_sin e_w e_sout e_hist].
  case_decide as Hlt.
  2:{ rewrite frame_count_le by lia. cbn [take length run_frames r_models
        r_events r_touched r_hist enc_events foldl fst snd drop Nat.mul].
      by rewrite Z.add_0_r. }
  rewrite frame_count_succ by lia.
  destruct (decide (sin = [])) as [->|Hne].
  { cbn [stream_get]. cbv beta iota zeta. rewrite decide_True by done.
    cbn [frames_of take length run_frames r_models
        r_events r_touched r_hist enc_events foldl fst snd drop Nat.mul].
    by rewrite Z.add_0_r. }
  destruct (get4 sin Hne Hoct) as
    (c1 & c2 & c3 & c4 & s1 & s2 & s3 & s4 &
     Hg1 & Hg2 & Hg3 & Hg4 & Hc1 & Hfs & Hs4 & Hoct4 & Hlen4).
  rewrite Hg1. cbv beta iota zeta. rewrite Hg2. cbv beta iota zeta.
  rewrite Hg3. cbv beta iota zeta. rewrite Hg4. cbv beta iota zeta.
  rewrite decide_False by done.
  rewrite Hfs. cbn [take].
  set (a := wrap16 (c1 + c2 * 256)). set (b := wrap16 (c3 + c4 * 256)).
  rewrite processSample_enc_mk by (done || (by left) || apply wrap16_range).
  cbn [mbind option_bind]. cbv beta iota zeta.
  rewrite processSample_enc_mk
    by (by rewrite ?sample_walk_size || (by right) || apply wrap16_range).
  cbn [mbind option_bind]. cbv beta iota zeta.
  rewrite (wrap64_small (i + 4)) by lia.
  rewrite IH;
    [| done | lia | by rewrite !sample_walk_size | lia | lia ].
  replace (max_count - (i + 4)) with (max_count - i - 4) by lia.
  set (fs' := take (frame_count (max_count - i - 4)) (frames_of s4)).
  cbn [run_frames r_models r_events r_touched r_hist length].
  rewrite <- !surjective_pairing.
  rewrite !enc_events_app, <- ?app_assoc.
  do 2 f_equal.
  - rewrite Hs4, drop_drop. f_equal. lia.
  - lia.
Qed.

(** The decoder reconstructs the sample from the residual. *)
Lemma reconstruct a p : 0 <= a < 2 ^ 16 -> wrap16 (p + wrap16 (a - p)) = a.
Proof.
  intros Ha. unfold wrap16.
  rewrite Zplus_mod_idemp_r. replace (p + (a - p)) with a by lia.
  by apply Z.mod_small.
Qed.

Lemma low_octet a : 0 <= Z.land a 255 < 256.
Proof.
  change 255 with (Z.ones 8). rewrite Z.land_ones by lia.
  apply Z.mod_pos_bound. lia.
Qed.

Lemma high_octet a : 0 <= a < 2 ^ 16 -> 0 <= Z.shiftr a 8 < 256.
Proof.
  intros. rewrite Z.shiftr_div_pow2 by lia.
  split; [apply Z.div_pos|apply Z.div_lt_upper_bound]; lia.
Qed.

Lemma stream_put_octet sout c :
  0 <= c < 256 -> stream_put sout c = sout ++ [c].
Proof. intros. unfold stream_put. by rewrite Z.mod_small. Qed.

Lemma put_if_pos mc sout c :
  0 < mc < 2 ^ 64 -> 0 <= c < 256 -> put_if mc sout c = (mc - 1, sout ++ [c]).
Proof.
  intros. unfold put_if. rewrite decide_True by lia.
  by rewrite wrap64_small, stream_put_octet by lia.
Qed.

Lemma put_if_0 sout c : put_if 0 sout c = (0, sout).
Proof. done. Qed.

(** The four guarded writes of an iteration of the loop of [decompress]. *)
Lemma put_if4 {A} (K : Z -> list Z -> A) mc sout a b :
  0 < mc < 2 ^ 64 -> 0 <= a < 2 ^ 16 -> 0 <= b < 2 ^ 16 ->
  (let '(mc, sout) := put_if mc sout (Z.land a 255) in
   let '(mc, sout) := put_if mc sout (Z.shiftr a 8) in
   let '(mc, sout) := put_if mc sout (Z.land b 255) in
   let '(mc, sout) := put_if mc sout (Z.shiftr b 8) in
   K mc sout)
  = K (Z.max (mc - 4) 0)
      (sout ++ take (Z.to_nat mc) (frame_octets (a, b))).
Proof.
  intros Hmc Ha Hb. unfold frame_octets. cbn [fst snd].
  pose proof (low_octet a) as Hla. pose proof (low_octet b) as Hlb.
  pose proof (high_octet a Ha) as Hha. pose proof (high_octet b Hb) as Hhb.
  rewrite (put_if_pos mc) by done. cbv beta iota zeta.
  destruct (decide (mc = 1)) as [->|].
  { change (1 - 1) with 0. rewrite !put_if_0. reflexivity. }
  rewrite (put_if_pos (mc - 1)) by (done || lia). cbv beta iota zeta.
  destruct (decide (mc = 2)) as [->|].
  { change (2 - 1 - 1) with 0. rewrite !put_if_0.
    cbv beta iota zeta. by rewrite <- app_assoc. }
  rewrite (put_if_pos (mc - 1 - 1)) by (done || lia). cbv beta iota zeta.
  destruct (decide (mc = 3)) as [->|].
  { change (3 - 1 - 1 - 1) with 0. rewrite !put_if_0.
    cbv beta iota zeta. by rewrite <- !app_assoc. }
  rewrite (put_if_pos (mc - 1 - 1 - 1)) by (done || lia). cbv beta iota zeta.
  rewrite Z.max_l by lia.
  replace (Z.to_nat mc) with (4 + Z.to_nat (mc - 4))%nat by lia.
  cbn [take Nat.add]. rewrite take_nil, <- !app_assoc. cbn [app].
  f_equal. lia.
Qed.

Lemma decompress_loop_S fuel (s : dec_state (M:=M) (R:=R)) :
  decompress_loop (S fuel) s
  = if decide (0 < d_max_count s) then
      let h := d_hist s in
      '(w, sin, ra) ← processSample true (d_w s) (d_sin s) 0 0 0;
      let a := wrap16 (pred_a h + ra) in
      '(w, sin, rb) ← processSample true w sin 0 1 0;
      let b := wrap16 (pred_b h + rb) in
      let '(mc, sout) := put_if (d_max_count s) (d_sout s) (Z.land a 255) in
      let '(mc, sout) := put_if mc sout (Z.shiftr a 8) in
      let '(mc, sout) := put_if mc sout (Z.land b 255) in
      let '(mc, sout) := put_if mc sout (Z.shiftr b 8) in
      decompress_loop fuel (mkdec w sin sout mc (shift_hist h a b))
    else Some s.
Proof. reflexivity. Qed.

(** The loop of [decompress], when the coder is about to return the bits
    of a run over the frames [fs] and the count ends within the last of
    them: the same run, and the octets of the frames up to the count. *)
Lemma decompress_loop_run fs : forall fuel (ms : vec M) (e : R) o t sin sout
    mc h evs,
  Forall frame_ok fs -> (length fs < fuel)%nat -> v_size ms = 2 ^ 16 ->
  0 <= mc < 2 ^ 64 ->
  4 * (Z.of_nat (length fs) - 1) < mc <= 4 * Z.of_nat (length fs) ->
  let r := run_frames ms h t fs in
  dec_ok (r_events r ++ evs) (e, sin) ->
  exists e' sin',
    decompress_loop fuel (mkdec (mk ms e o 3 13 t) sin sout mc h)
    = Some (mkdec (mk (r_models r) e' o 3 13 (r_touched r)) sin'
                  (sout ++ take (Z.to_nat mc) (concat (map frame_octets fs)))
                  0 (r_hist r)) /\
    dec_ok evs (e', sin').
Proof.
  induction fs as [|f fs IH];
    intros fuel ms e o t sin sout mc h evs Hfs Hfuel Hsz Hmc Hcount;
    (destruct fuel as [|fuel]; [simpl in Hfuel; lia|]);
    cbv zeta; rewrite decompress_loop_S;
    cbn [d_max_count d_hist d_w d_sin d_sout].
  - simpl in Hcount. assert (mc = 0) as -> by lia.
    rewrite decide_False by lia.
    cbn [run_frames r_models r_events r_touched r_hist map concat].
    intros Hok. exists e, sin. split; [|done].
    by rewrite take_nil, app_nil_r.
  - assert (Hl : Z.of_nat (length (f :: fs)) = Z.of_nat (length fs) + 1)
      by (simpl; lia).
    rewrite Hl in Hcount.
    inversion Hfs as [|? ? [Hf1 Hf2] Hfs']; subst.
    rewrite decide_True by lia.
    cbn [run_frames r_models r_events r_touched r_hist].
    rewrite <- !app_assoc. intros Hok.
    destruct (processSample_dec_mk ms e o t sin 0 _ _ Hsz ltac:(by left)
                (wrap16_range _) Hok) as (e1 & sin1 & -> & Hok1).
    cbn [mbind option_bind]. cbv beta iota zeta.
    match goal with
    | |- context [processSample true (mk ?ms1 _ _ _ _ ?t1) _ _ _ _] =>
        destruct (processSample_dec_mk ms1 e1 o t1 sin1 1 _ _
                    ltac:(by rewrite sample_walk_size) ltac:(by right)
                    (wrap16_range _) Hok1) as (e2 & sin2 & -> & Hok2)
    end.
    cbn [mbind option_bind]. cbv beta iota zeta.
    rewrite !reconstruct by done.
    rewrite put_if4 by (done || lia).
    match goal with
    | |- context [decompress_loop _ (mkdec (mk ?ms2 _ _ _ _ ?t2) _ ?so _ _)] =>
        destruct (IH fuel ms2 e2 o t2 sin2 so
                    (Z.max (mc - 4) 0) (shift_hist h f.1 f.2) evs)
          as (e' & sin' & -> & Hok')
    end;
      [ done | simpl in Hfuel; lia | by rewrite !sample_walk_size | lia | lia
      | done | ].
    exists e', sin'. split; [|done].
    do 2 f_equal. rewrite <- app_assoc. f_equal.
    cbn [map concat]. rewrite take_app.
    destruct f as [a b]. cbn [fst snd]. f_equal.
    unfold frame_octets. cbn [length fst snd]. f_equal. lia.
Qed.

End FrameProps.

(** ** Frames and octets *)

(** Induction over a list four elements at a time. *)
Lemma list4_ind {A} (P : list A -> Prop) :
  P [] -> (forall a, P [a]) -> (forall a b, P [a; b]) ->
  (forall a b c, P [a; b; c]) ->
  (forall a b c d l, P l -> P (a :: b :: c :: d :: l)) ->
  forall l, P l.
Proof.
  intros H0 H1 H2 H3 H4.
  fix IH 1.
  intros [|a [|b [|c [|d l]]]];
    [exact H0|apply H1|apply H2|apply H3|apply H4, IH].
Qed.

Lemma frames_of_ok sin : Forall frame_ok (frames_of sin).
Proof.
  induction sin as [| | | |c1 c2 c3 c4 sin IH] using list4_ind;
    repeat constructor; try apply wrap16_range; done.
Qed.

Lemma frames_of_length sin :
  length (frames_of sin) = frame_count (Z.of_nat (length sin)).
Proof.
  induction sin as [| | | |c1 c2 c3 c4 sin IH] using list4_ind; try done.
  cbn [frames_of length]. rewrite IH.
  rewrite (frame_count_succ (Z.of_nat (S (S (S (S (length sin))))))) by lia.
  do 2 f_equal. lia.
Qed.

Lemma land_255 x : Z.land x 255 = x mod 256.
Proof. change 255 with (Z.ones 8). by rewrite Z.land_ones by lia. Qed.

(** The octets of a sample formed from two octets: the low one is kept
    whatever stands for the high one. *)
Lemma sample_low c1 c2 : octet c1 -> Z.land (wrap16 (c1 + c2 * 256)) 255 = c1.
Proof.
  unfold octet, wrap16. intros. rewrite land_255.
  rewrite Z.mod_mod_divide by (exists 256; lia).
  rewrite Z.mod_add by lia. by apply Z.mod_small.
Qed.

Lemma sample_high c1 c2 :
  octet c1 -> octet c2 -> Z.shiftr (wrap16 (c1 + c2 * 256)) 8 = c2.
Proof.
  unfold octet. intros. rewrite wrap16_small by lia.
  rewrite Z.shiftr_div_pow2 by lia. change (2 ^ 8) with 256.
  rewrite Z.div_add by lia. rewrite Z.div_small by lia. lia.
Qed.

(** The octets of the frames of an input, cut at its length, are the
    input. *)
Lemma frames_of_octets sin :
  Forall octet sin ->
  take (length sin) (concat (map frame_octets (frames_of sin))) = sin.
Proof.
  induction sin as [|c1|c1 c2|c1 c2 c3|c1 c2 c3 c4 sin IH] using list4_ind;
    intros Hoct; [done|..];
    repeat match goal with
           | H : Forall octet (_ :: _) |- _ =>
               apply Forall_cons in H as [? H]
           end;
    cbn [frames_of map concat frame_octets fst snd length app take];
    rewrite ?sample_low, ?sample_high by done; try done.
  by rewrite IH.
Qed.

Lemma frame_octets_length f : length (frame_octets f) = 4%nat.
Proof. done. Qed.

Lemma concat_frame_octets_take k (fs : list (Z * Z)) :
  concat (map frame_octets (take k fs))
  = take (4 * k) (concat (map frame_octets fs)).
Proof.
  revert fs. induction k as [|k IH]; intros fs.
  - by rewrite take_0.
  - destruct fs as [|f fs].
    + cbn [map concat take]. by rewrite take_nil.
    + replace (4 * S k)%nat with (4 + 4 * k)%nat by lia.
      cbn [map concat take]. rewrite IH.
      by destruct f.
Qed.

(** ** Runs over frames *)

Section RunProps.

Context {M : Type} `{!StationaryModel M}.
Implicit Types (ms : vec M).

Lemma vec_new_reachable n : table_reachable (vec_new n).
Proof. intros i m. unfold vec_new. simpl. by rewrite lookup_empty. Qed.

Lemma vget_reachable ms i : table_reachable ms -> reachable (vget ms i).
Proof.
  intros Hms. unfold vget.
  destruct (v_elts ms !! i) as [m|] eqn:Hm; simpl.
  - by eapply Hms.
  - constructor.
Qed.

Lemma vset_reachable ms i m :
  table_reachable ms -> reachable m -> table_reachable (vset ms i m).
Proof.
  intros Hms Hm j m'. unfold vset. simpl.
  destruct (decide (i = j)) as [->|Hne].
  - rewrite lookup_insert_eq. by intros [= <-].
  - rewrite lookup_insert_ne by done. apply Hms.
Qed.

Lemma patched_range p :
  0 <= p < Wav16.kMaxValue -> 1 <= patched p < Wav16.kMaxValue.
Proof.
  change Wav16.kMaxValue with 4096. unfold patched. case_decide; lia.
Qed.

Lemma walk_valid base bits : forall ms ctx,
  model_in_range (M:=M) -> table_reachable ms -> Forall is_bit bits ->
  Forall valid_event (wk_events (walk base bits ms ctx)) /\
  table_reachable (wk_models (walk base bits ms ctx)).
Proof.
  induction bits as [|b bits IH]; intros ms ctx Hrange Hms Hbits.
  - by split; [constructor|].
  - inversion Hbits as [|? ? Hb Hbits']; subst.
    cbn [walk wk_events wk_models].
    pose proof (vget_reachable ms (base + ctx) Hms) as Hm.
    destruct (IH (vset ms (base + ctx) (update (vget ms (base + ctx)) b))
                 (2 * ctx + b) Hrange) as [Hev Hms'];
      [apply vset_reachable; [done|by constructor]|done|].
    split; [|done]. constructor; [|done].
    split; [|done]. apply patched_range. by apply Hrange.
Qed.

Lemma sample_valid ms channel c :
  model_in_range (M:=M) -> table_reachable ms ->
  Forall valid_event (sample_events ms channel c) /\
  table_reachable (wk_models (sample_walk ms channel c)).
Proof.
  intros Hrange Hms. rewrite sample_events_eq, sample_walk_eq.
  destruct (walk_valid (channel * 2 ^ 13) (take 13 (bits_msb 16 c)) ms 1
              Hrange Hms) as [Hev Hms'].
  { apply Forall_take, bits_msb_bits. }
  split; [|done]. apply Forall_app. split; [done|].
  apply Forall_fmap. eapply Forall_impl; [apply Forall_drop, bits_msb_bits|].
  done.
Qed.

Lemma run_valid fs : forall ms h t,
  model_in_range (M:=M) -> table_reachable ms ->
  Forall valid_event (r_events (run_frames ms h t fs)).
Proof.
  induction fs as [|f fs IH]; intros ms h t Hrange Hms.
  - constructor.
  - cbn [run_frames r_events].
    destruct (sample_valid ms 0 (wrap16 (f.1 - Wav16.pred_a h)) Hrange Hms)
      as [Ha Hms1].
    destruct (sample_valid _ 1 (wrap16 (f.2 - Wav16.pred_b h)) Hrange Hms1)
      as [Hb Hms2].
    apply Forall_app. split; [done|]. apply Forall_app. split; [done|].
    by apply IH.
Qed.

(** A run over [fs1 ++ fs2] is a run over [fs1] followed by one over
    [fs2]. *)
Lemma run_frames_app fs1 fs2 : forall ms h t,
  let r1 := run_frames ms h t fs1 in
  let r2 := run_frames (r_models r1) (r_hist r1) (r_touched r1) fs2 in
  run_frames ms h t (fs1 ++ fs2)
  = mkrun (r_models r2) (r_hist r2) (r_events r1 ++ r_events r2)
          (r_touched r2).
Proof.
  induction fs1 as [|f fs1 IH]; intros ms h t; cbv zeta.
  - cbn [app run_frames r_models r_hist r_touched r_events].
    by destruct (run_frames ms h t fs2).
  - cbn [app run_frames r_models r_hist r_touched r_events].
    rewrite IH. cbn [r_models r_hist r_touched r_events].
    by rewrite <- !app_assoc.
Qed.

(** The log a run starts from is only extended. *)
Lemma run_frames_touched fs : forall ms h t,
  run_frames ms h t fs
  = let r := run_frames ms h [] fs in
    mkrun (r_models r) (r_hist r) (r_events r) (r_touched r ++ t).
Proof.
  induction fs as [|f fs IH]; intros ms h t; cbv zeta.
  - done.
  - cbn [run_frames r_models r_hist r_touched r_events].
    rewrite IH. rewrite (IH _ _ (_ ++ _ ++ [])).
    cbn [r_models r_hist r_touched r_events].
    by rewrite app_nil_r, <- !app_assoc.
Qed.

(** The history after a run: one shift per frame. *)
Lemma run_frames_hist fs : forall ms h t,
  r_hist (run_frames ms h t fs)
  = foldl (fun h f => Wav16.shift_hist h f.1 f.2) h fs.
Proof.
  induction fs as [|f fs IH]; intros ms h t; [done|].
  cbn [run_frames r_hist foldl]. by rewrite IH.
Qed.

End RunProps.

(** ** Wav16: the subscripts of a whole run *)

Lemma stream_get_length sin c sin' :
  stream_get sin = (c, sin') -> (length sin' <= length sin)%nat.
Proof. destruct sin; intros [= <- <-]; simpl; lia. Qed.

Lemma stream_get_more sin c sin' :
  stream_get sin = (c, sin') -> c <> EOF -> (length sin' < length sin)%nat.
Proof. destruct sin; intros [= <- <-]; simpl; [done|lia]. Qed.

Section TouchProps.

Context {M R : Type} `{!StationaryModel M} `{!Range7 R}.

Import Wav16.

Lemma channel_walked channel l :
  channel = 0 \/ channel = 1 ->
  Forall (fun i => channel * 2 ^ 13 + 1 <= i < (channel + 1) * 2 ^ 13) l ->
  Forall walked_range l.
Proof.
  intros Hch Hl. eapply Forall_impl; [done|].
  intros i Hi. unfold walked_range, channel_range.
  destruct Hch as [-> | ->]; [by left|by right].
Qed.

(** The loop of [compress] on any input: it ends, and every subscript is
    in the part of the table of one of the channels. *)
Lemma compress_loop_touch max_count fuel :
  forall s : enc_state (M:=M) (R:=R),
  initialised (e_w s) -> (length (e_sin s) < fuel)%nat ->
  exists s' new,
    compress_loop fuel max_count s = Some s' /\
    same_shape (e_w s) (e_w s') /\
    touched_ (e_w s') = new ++ touched_ (e_w s) /\
    Forall walked_range new.
Proof.
  induction fuel as [|fuel IH]; intros s Hw Hfuel; [lia|].
  rewrite compress_loop_S. case_decide as Hlt.
  2:{ exists s, []. by repeat split. }
  cbv zeta.
  destruct (stream_get (e_sin s)) as [c1 s1] eqn:Hg1.
  destruct (stream_get s1) as [c2 s2] eqn:Hg2.
  destruct (stream_get s2) as [c3 s3] eqn:Hg3.
  destruct (stream_get s3) as [c4 s4] eqn:Hg4.
  case_decide as Heof.
  { eexists _, []. by repeat split. }
  pose proof (stream_get_more _ _ _ Hg1 Heof).
  pose proof (stream_get_length _ _ _ Hg2).
  pose proof (stream_get_length _ _ _ Hg3).
  pose proof (stream_get_length _ _ _ Hg4).
  edestruct (processSample_ok false (e_w s) (e_sout s) 0) as
    (w1 & so1 & r1 & new1 & -> & Hsh1 & Ht1 & _ & Hall1);
    [done|done|by left|].
  cbn [mbind option_bind]. cbv beta iota zeta.
  edestruct (processSample_ok false w1 so1 1) as
    (w2 & so2 & r2 & new2 & -> & Hsh2 & Ht2 & _ & Hall2);
    [done|by eapply initialised_shape|by right|].
  cbn [mbind option_bind]. cbv beta iota zeta.
  match goal with
  | |- context [compress_loop fuel max_count ?s2] =>
      destruct (IH s2) as (s' & new & -> & Hsh & Ht & Hall)
  end.
  { cbn [e_w]. eapply initialised_shape; [|done].
    by eapply initialised_shape. }
  { cbn [e_sin]. lia. }
  cbn [e_w] in Hsh, Ht.
  exists s', (new ++ new2 ++ new1). split; [done|].
  split. { eapply same_shape_trans; [|done]. by eapply same_shape_trans. }
  split. { by rewrite Ht, Ht2, Ht1, <- !app_assoc. }
  apply Forall_app. split; [done|]. apply Forall_app.
  split; (eapply channel_walked; [|done]); [by right|by left].
Qed.

(** The loop of [decompress] on any input, for a coder that returns
    bits. *)
Lemma decompress_loop_touch fuel :
  forall s : dec_state (M:=M) (R:=R),
  range7_bits (R:=R) -> initialised (d_w s) ->
  0 <= d_max_count s < 2 ^ 64 -> (Z.to_nat (d_max_count s) < fuel)%nat ->
  exists s' new,
    decompress_loop fuel s = Some s' /\
    same_shape (d_w s) (d_w s') /\
    touched_ (d_w s') = new ++ touched_ (d_w s) /\
    Forall walked_range new.
Proof.
  induction fuel as [|fuel IH]; intros s Hbits Hw Hmc Hfuel; [lia|].
  rewrite decompress_loop_S. case_decide as Hlt.
  2:{ exists s, []. by repeat split. }
  cbv zeta.
  edestruct (processSample_ok true (d_w s) (d_sin s) 0 0) as
    (w1 & si1 & r1 & new1 & -> & Hsh1 & Ht1 & _ & Hall1);
    [done|done|by left|].
  cbn [mbind option_bind]. cbv beta iota zeta.
  edestruct (processSample_ok true w1 si1 1 0) as
    (w2 & si2 & r2 & new2 & -> & Hsh2 & Ht2 & _ & Hall2);
    [done|by eapply initialised_shape|by right|].
  cbn [mbind option_bind]. cbv beta iota zeta.
  rewrite put_if4 by (done || lia || apply wrap16_range).
  match goal with
  | |- context [decompress_loop fuel ?s2] =>
      destruct (IH s2) as (s' & new & -> & Hsh & Ht & Hall)
  end.
  { done. }
  { cbn [d_w]. eapply initialised_shape; [|done].
    by eapply initialised_shape. }
  { cbn [d_max_count]. lia. }
  { cbn [d_max_count]. lia. }
  cbn [d_w] in Hsh, Ht.
  exists s', (new ++ new2 ++ new1). split; [done|].
  split. { eapply same_shape_trans; [|done]. by eapply same_shape_trans. }
  split. { by rewrite Ht, Ht2, Ht1, <- !app_assoc. }
  apply Forall_app. split; [done|]. apply Forall_app.
  split; (eapply channel_walked; [|done]); [by right|by left].
Qed.

Lemma compress_touch (w : t (M:=M) (R:=R)) in_stream max_count :
  exists w' rest out new,
    compress w in_stream max_count = Some (w', rest, out) /\
    touched_ w' = new ++ touched_ w /\ Forall walked_range new.
Proof.
  unfold compress.
  destruct (compress_loop_touch max_count (S (length in_stream))
              (mkenc (set_ent (init w) rc_new) in_stream [] 0 hist0))
    as (s' & new & -> & Hsh & Ht & Hall).
  { by vm_compute. }
  { cbn [e_sin]. lia. }
  cbn [mbind option_bind].
  destruct (flush (ent (e_w s')) (e_sout s')) as [e so].
  by exists (set_ent (e_w s') e), (e_sin s'), so, new.
Qed.

Lemma decompress_touch (w : t (M:=M) (R:=R)) in_stream max_count :
  range7_bits (R:=R) -> 0 <= max_count < 2 ^ 64 ->
  exists w' rest out new,
    decompress w in_stream max_count = Some (w', rest, out) /\
    touched_ w' = new ++ touched_ w /\ Forall walked_range new.
Proof.
  intros Hbits Hmc. unfold decompress.
  destruct (initDecoder (ent (init w)) in_stream) as [e sin].
  destruct (decompress_loop_touch (S (Z.to_nat max_count))
              (mkdec (set_ent (init w) e) sin [] max_count hist0))
    as (s' & new & -> & Hsh & Ht & Hall).
  { done. }
  { by vm_compute. }
  { done. }
  { cbn [d_max_count]. lia. }
  cbn [mbind option_bind].
  by exists (d_w s'), (d_sin s'), (d_sout s'), new.
Qed.

End TouchProps.

(** C7.  [init] allocates [2 << (non_noise_bits + kContextBits) = 2 ^ 16]
    models, and on an object that [init] has set up, every call of
    [processSample] for channel 0 or 1 passes its bounds check and
    subscripts the table 13 times, each time inside it; the table keeps
    its size.  (For the decoder, the coder is taken to return bits.) *)
Theorem model_table_bounds {M R : Type} `{!StationaryModel M} `{!Range7 R}
    (w0 w : Wav16.t (M:=M) (R:=R)) kDecode stream channel c :
  (kDecode = true -> range7_bits (R:=R)) ->
  initialised w -> channel = 0 \/ channel = 1 ->
  v_size (Wav16.models_ (Wav16.init w0))
  = wrap64 (Z.shiftl 2 (13 + Wav16.kContextBits)) /\
  v_size (Wav16.models_ (Wav16.init w0)) = 2 ^ 16 /\
  initialised (Wav16.init w0) /\
  exists w' stream' r new,
    Wav16.processSample kDecode w stream 0 channel c
    = Some (w', stream', r) /\
    initialised w' /\
    Wav16.touched_ w' = new ++ Wav16.touched_ w /\
    length new = 13%nat /\
    Forall (fun i => 0 <= i < v_size (Wav16.models_ w)) new.
Proof.
  intros Hbits Hw Hch.
  split; [done|]. split; [done|]. split; [apply init_initialised|].
  destruct (processSample_ok kDecode w stream channel c Hbits Hw Hch)
    as (w' & stream' & r & new & Hp & Hsh & Ht & Hlen & Hall).
  exists w', stream', r, new. split; [done|].
  split; [by eapply initialised_shape|]. split; [done|]. split; [done|].
  destruct Hw as (-> & _ & _).
  eapply Forall_impl; [done|]. simpl. intros i Hi.
  destruct Hch as [-> | ->]; lia.
Qed.

(** ** Wav16: what a run depends on *)

Section CoreProps.

Context {M R : Type} `{!StationaryModel M} `{!Range7 R}.

Import Wav16.

Local Abbreviation core := (core (M:=M) (R:=R)) (only parsing).
Local Abbreviation ps_core := (ps_core (M:=M) (R:=R)) (only parsing).
Local Abbreviation result_core := (result_core (M:=M) (R:=R)) (only parsing).
Local Abbreviation enc_core := (enc_core (M:=M) (R:=R)) (only parsing).
Local Abbreviation dec_core := (dec_core (M:=M) (R:=R)) (only parsing).

Lemma model_bit_core kDecode base s s' :
  ps_core s = ps_core s' ->
  ps_core <$> model_bit kDecode base s = ps_core <$> model_bit kDecode base s'.
Proof.
  destruct s as [[ms e o nb nn t] st code ctx].
  destruct s' as [[ms' e' o' nb' nn' t'] st' code' ctx'].
  unfold ps_core, core. cbn. intros [= -> -> -> -> -> -> ->].
  unfold model_bit. cbn.
  destruct (vload m_init ms' (wrap64 (base + ctx'))) as [m|]; [|done]. cbn.
  destruct kDecode.
  - destruct (getDecodedBit _ _ _) as [e1 bit]. cbn.
    destruct (vstore _ _ _) as [ms1|]; [|done]. cbn.
    by destruct (Normalize _ _).
  - destruct (encode _ _ _ _ _) as [e1 st1]. cbn.
    by destruct (vstore _ _ _) as [ms1|].
Qed.

Lemma model_loop_core kDecode base n : forall s s',
  ps_core s = ps_core s' ->
  ps_core <$> model_loop kDecode base n s
  = ps_core <$> model_loop kDecode base n s'.
Proof.
  induction n as [|n IH]; intros s s' Hs; cbn [model_loop].
  - cbn. by rewrite Hs.
  - pose proof (model_bit_core kDecode base s s' Hs) as Hb.
    destruct (model_bit kDecode base s) as [s1|],
             (model_bit kDecode base s') as [s1'|]; try done.
    cbn in Hb. cbn [mbind option_bind]. apply IH. congruence.
Qed.

Lemma noise_bit_core kDecode s s' :
  ps_core s = ps_core s' ->
  ps_core (noise_bit kDecode s) = ps_core (noise_bit kDecode s').
Proof.
  destruct s as [[ms e o nb nn t] st code ctx].
  destruct s' as [[ms' e' o' nb' nn' t'] st' code' ctx'].
  unfold ps_core, core. cbn. intros [= -> -> -> -> -> -> ->].
  unfold noise_bit. cbn. destruct kDecode.
  - by destruct (decodeBit _ _) as [[e1 st1] bit].
  - by destruct (encodeBit _ _ _) as [e1 st1].
Qed.

Lemma noise_loop_core kDecode n : forall s s',
  ps_core s = ps_core s' ->
  ps_core (noise_loop kDecode n s) = ps_core (noise_loop kDecode n s').
Proof.
  induction n as [|n IH]; intros s s' Hs; cbn [noise_loop]; [done|].
  by apply IH, noise_bit_core.
Qed.

Lemma processSample_core kDecode w w' stream context channel c :
  core w = core w' ->
  result_core <$> processSample kDecode w stream context channel c
  = result_core <$> processSample kDecode w' stream context channel c.
Proof.
  intros Hw. pose proof Hw as Hw'. unfold core in Hw'.
  injection Hw' as Hms He Hnb Hnn.
  unfold processSample. rewrite Hnn, Hnb, Hms.
  case_decide; [|done].
  match goal with
  | |- context [model_loop kDecode ?base ?n (mkps w ?st ?code ?ctx)] =>
      pose proof (model_loop_core kDecode base n (mkps w st code ctx)
                    (mkps w' st code ctx)) as Hl;
      destruct (model_loop kDecode base n (mkps w st code ctx)) as [s1|],
               (model_loop kDecode base n (mkps w' st code ctx)) as [s1'|]
  end;
    (assert (Hl' := Hl ltac:(unfold ps_core; cbn [ps_w ps_stream ps_code
                                                   ps_ctx]; by rewrite Hw)));
    clear Hl; try done.
  apply (inj Some) in Hl'.
  cbn [mbind option_bind fmap option_fmap option_map].
  pose proof (noise_loop_core kDecode (Z.to_nat (noise_bits_ w')) s1 s1' Hl')
    as Hn.
  unfold ps_core in Hn.
  pose proof (f_equal (fun x => x.1.1.1) Hn) as Hn1.
  pose proof (f_equal (fun x => x.1.1.2) Hn) as Hn2.
  pose proof (f_equal (fun x => x.2) Hn) as Hn4.
  cbn [fst snd] in Hn1, Hn2, Hn4.
  unfold result_core. cbn [fst snd]. by rewrite Hn1, Hn2, Hn4.
Qed.

(** Two calls of [processSample] on objects with the same core: both
    fail, or both return, with the same core, stream and value. *)
Lemma processSample_core_cases kDecode w w' stream context channel c :
  core w = core w' ->
  match processSample kDecode w stream context channel c,
        processSample kDecode w' stream context channel c with
  | Some (w1, st1, r1), Some (w1', st1', r1') =>
      core w1 = core w1' /\ st1 = st1' /\ r1 = r1'
  | None, None => True
  | _, _ => False
  end.
Proof.
  intros Hw.
  pose proof (processSample_core kDecode w w' stream context channel c Hw)
    as Hp.
  destruct (processSample kDecode w stream context channel c)
    as [[[w1 st1] r1]|],
    (processSample kDecode w' stream context channel c)
    as [[[w1' st1'] r1']|]; try done.
  apply (inj Some) in Hp. unfold result_core in Hp. cbn [fst snd] in Hp.
  pose proof (f_equal (fun x => x.1.1) Hp) as H1.
  pose proof (f_equal (fun x => x.1.2) Hp) as H2.
  pose proof (f_equal (fun x => x.2) Hp) as H3.
  done.
Qed.

Lemma compress_loop_core max_count fuel : forall s s',
  enc_core s = enc_core s' ->
  enc_core <$> compress_loop fuel max_count s
  = enc_core <$> compress_loop fuel max_count s'.
Proof.
  induction fuel as [|fuel IH]; intros s s' Hs; [done|].
  destruct s as [w sin sout i h], s' as [w' sin' sout' i' h'].
  unfold enc_core in Hs. cbn [e_w e_sin e_sout e_i e_hist] in Hs.
  pose proof (f_equal (fun x => x.1.1.1.1) Hs) as Hw.
  pose proof (f_equal (fun x => x.1.1.1.2) Hs) as Hsin.
  pose proof (f_equal (fun x => x.1.1.2) Hs) as Hsout.
  pose proof (f_equal (fun x => x.1.2) Hs) as Hi.
  pose proof (f_equal (fun x => x.2) Hs) as Hh.
  cbn [fst snd] in Hw, Hsin, Hsout, Hi, Hh. subst sin' sout' i' h'.
  rewrite !compress_loop_S. cbn [e_w e_sin e_sout e_i e_hist].
  case_decide.
  2:{ cbn. unfold enc_core. cbn. by rewrite Hw. }
  cbv zeta.
  destruct (stream_get sin) as [c1 s1].
  destruct (stream_get s1) as [c2 s2].
  destruct (stream_get s2) as [c3 s3].
  destruct (stream_get s3) as [c4 s4].
  case_decide.
  { cbn. unfold enc_core. cbn. by rewrite Hw. }
  match goal with
  | |- context [processSample false w sout 0 0 ?c] =>
      pose proof (processSample_core_cases false w w' sout 0 0 c Hw) as Hp;
      destruct (processSample false w sout 0 0 c) as [[[w1 so1] r1]|],
               (processSample false w' sout 0 0 c) as [[[w1' so1'] r1']|]
  end; try done.
  destruct Hp as (Hw1 & -> & ->). cbn [mbind option_bind].
  cbv beta iota zeta.
  match goal with
  | |- context [processSample false w1 so1' 0 1 ?c] =>
      pose proof (processSample_core_cases false w1 w1' so1' 0 1 c Hw1)
        as Hp;
      destruct (processSample false w1 so1' 0 1 c) as [[[w2 so2] r2]|],
               (processSample false w1' so1' 0 1 c) as [[[w2' so2'] r2']|]
  end; try done.
  destruct Hp as (Hw2 & -> & ->). cbn [mbind option_bind].
  cbv beta iota zeta.
  apply IH. unfold enc_core. cbn [e_w e_sin e_sout e_i e_hist].
  by rewrite Hw2.
Qed.

Lemma decompress_loop_core fuel : forall s s',
  dec_core s = dec_core s' ->
  dec_core <$> decompress_loop fuel s = dec_core <$> decompress_loop fuel s'.
Proof.
  induction fuel as [|fuel IH]; intros s s' Hs; [done|].
  destruct s as [w sin sout mc h], s' as [w' sin' sout' mc' h'].
  unfold dec_core in Hs. cbn [d_w d_sin d_sout d_max_count d_hist] in Hs.
  pose proof (f_equal (fun x => x.1.1.1.1) Hs) as Hw.
  pose proof (f_equal (fun x => x.1.1.1.2) Hs) as Hsin.
  pose proof (f_equal (fun x => x.1.1.2) Hs) as Hsout.
  pose proof (f_equal (fun x => x.1.2) Hs) as Hmc.
  pose proof (f_equal (fun x => x.2) Hs) as Hh.
  cbn [fst snd] in Hw, Hsin, Hsout, Hmc, Hh. subst sin' sout' mc' h'.
  rewrite !decompress_loop_S. cbn [d_w d_sin d_sout d_max_count d_hist].
  case_decide.
  2:{ cbn. unfold dec_core. cbn. by rewrite Hw. }
  cbv zeta.
  pose proof (processSample_core_cases true w w' sin 0 0 0 Hw) as Hp.
  destruct (processSample true w sin 0 0 0) as [[[w1 si1] r1]|],
           (processSample true w' sin 0 0 0) as [[[w1' si1'] r1']|];
    try done.
  destruct Hp as (Hw1 & -> & ->). cbn [mbind option_bind].
  cbv beta iota zeta.
  pose proof (processSample_core_cases true w1 w1' si1' 0 1 0 Hw1) as Hp.
  destruct (processSample true w1 si1' 0 1 0) as [[[w2 si2] r2]|],
           (processSample true w1' si1' 0 1 0) as [[[w2' si2'] r2']|];
    try done.
  destruct Hp as (Hw2 & -> & ->). cbn [mbind option_bind].
  cbv beta iota zeta.
  destruct (put_if mc sout _) as [mc1 so1].
  destruct (put_if mc1 so1 _) as [mc2 so2].
  destruct (put_if mc2 so2 _) as [mc3 so3].
  destruct (put_if mc3 so3 _) as [mc4 so4].
  apply IH. unfold dec_core. cbn [d_w d_sin d_sout d_max_count d_hist].
  by rewrite Hw2.
Qed.

Lemma compress_core (w w' : t (M:=M) (R:=R)) in_stream max_count :
  streams (compress w in_stream max_count)
  = streams (compress w' in_stream max_count).
Proof.
  unfold compress.
  pose proof (compress_loop_core max_count (S (length in_stream))
                (mkenc (set_ent (init w) rc_new) in_stream [] 0 hist0)
                (mkenc (set_ent (init w') rc_new) in_stream [] 0 hist0)
                eq_refl) as Hl.
  destruct (compress_loop _ _ (mkenc (set_ent (init w) rc_new) _ _ _ _))
    as [s|],
    (compress_loop _ _ (mkenc (set_ent (init w') rc_new) _ _ _ _))
    as [s'|]; try done.
  apply (inj Some) in Hl. unfold enc_core, core in Hl.
  cbn [mbind option_bind].
  injection Hl as Hms He Hnb Hnn Hsin Hsout Hi Hh.
  rewrite He, Hsout, Hsin.
  by destruct (flush (ent (e_w s')) (e_sout s')).
Qed.

Lemma decompress_core (w w' : t (M:=M) (R:=R)) in_stream max_count :
  ent w = ent w' ->
  streams (decompress w in_stream max_count)
  = streams (decompress w' in_stream max_count).
Proof.
  intros He. unfold decompress. cbn [init ent]. rewrite He.
  destruct (initDecoder (ent w') in_stream) as [e sin].
  pose proof (decompress_loop_core (S (Z.to_nat max_count))
                (mkdec (set_ent (init w) e) sin [] max_count hist0)
                (mkdec (set_ent (init w') e) sin [] max_count hist0)
                eq_refl) as Hl.
  destruct (decompress_loop _ (mkdec (set_ent (init w) e) _ _ _ _)) as [s|],
    (decompress_loop _ (mkdec (set_ent (init w') e) _ _ _ _)) as [s'|];
    try done.
  apply (inj Some) in Hl. unfold dec_core, core in Hl.
  cbn [mbind option_bind].
  injection Hl as Hms He' Hnb Hnn Hsin Hsout Hi Hh.
  unfold streams. cbn [fmap option_fmap option_map fst snd].
  by rewrite Hsout, Hsin.
Qed.

End CoreProps.

(** C6.  The streams that [compress] returns (what is left of the input
    and the octets written) are the same from any two objects, so for any
    two runs and for any two values of [opt_var]; those of [decompress]
    are the same for any two values of [opt_var]; [setOpt] returns
    [true]. *)
Theorem compress_deterministic {M R : Type} `{!StationaryModel M}
    `{!Range7 R} (w w' : Wav16.t (M:=M) (R:=R)) v1 v2 in_stream max_count :
  streams (Wav16.compress w in_stream max_count)
  = streams (Wav16.compress w' in_stream max_count) /\
  streams (Wav16.compress (Wav16.setOpt w v1).1 in_stream max_count)
  = streams (Wav16.compress (Wav16.setOpt w v2).1 in_stream max_count) /\
  streams (Wav16.decompress (Wav16.setOpt w v1).1 in_stream max_count)
  = streams (Wav16.decompress (Wav16.setOpt w v2).1 in_stream max_count) /\
  (Wav16.setOpt w v1).2 = true /\
  Wav16.opt_var (Wav16.setOpt w v1).1 = v1.
Proof.
  split; [apply compress_core|]. split; [apply compress_core|].
  split; [by apply decompress_core|]. done.
Qed.

(** ** Wav16: whole runs *)

Lemma frame_count_bounds n :
  0 <= n ->
  4 * (Z.of_nat (frame_count n) - 1) < n <= 4 * Z.of_nat (frame_count n).
Proof.
  intros Hn. unfold frame_count.
  assert (0 <= (n + 3) / 4) by (apply Z.div_pos; lia).
  rewrite Z2Nat.id by done.
  pose proof (Z.div_mod (n + 3) 4 ltac:(lia)).
  pose proof (Z.mod_pos_bound (n + 3) 4 ltac:(lia)). lia.
Qed.

Lemma frame_count_mono n m : n <= m -> (frame_count n <= frame_count m)%nat.
Proof.
  intros. unfold frame_count.
  assert ((n + 3) / 4 <= (m + 3) / 4) by (apply Z.div_le_mono; lia).
  lia.
Qed.

Section StreamProps.

Context {M R : Type} `{!StationaryModel M} `{!Range7 R}.
Implicit Types (w : Wav16.t (M:=M) (R:=R)).

Import Wav16.

Lemma init_eq w e :
  set_ent (init w) e = mk (vec_new (2 ^ 16)) e (opt_var w) 3 13 (touched_ w).
Proof. reflexivity. Qed.

(** [compress] on an input of octets: the run over the frames that the
    count allows, coded and flushed. *)
Lemma compress_run w in_stream max_count :
  Forall octet in_stream -> max_count <= 2 ^ 64 - 4 ->
  let fs := take (frame_count max_count) (frames_of in_stream) in
  let r := run_frames (vec_new (2 ^ 16)) hist0 (touched_ w) fs in
  let st := enc_events (rc_new, []) (r_events r) in
  compress w in_stream max_count
  = Some (mk (r_models r) (flush st.1 st.2).1 (opt_var w) 3 13 (r_touched r),
          drop (4 * length fs) in_stream,
          encoded (r_events r)).
Proof.
  intros Hoct Hmc. cbv zeta. unfold compress. rewrite init_eq.
  rewrite compress_loop_run by (done || lia).
  rewrite Z.sub_0_r. cbn [mbind option_bind e_w e_sin e_sout ent].
  unfold encoded.
  by destruct (flush _ _) as [e so].
Qed.

(** [decompress], when the coder is about to return the bits of a run
    over [fs] and the count ends within the last frame. *)
Lemma decompress_run w in_stream max_count fs evs :
  Forall frame_ok fs -> 0 <= max_count < 2 ^ 64 ->
  4 * (Z.of_nat (length fs) - 1) < max_count <= 4 * Z.of_nat (length fs) ->
  let r := run_frames (vec_new (2 ^ 16)) hist0 (touched_ w) fs in
  dec_ok (r_events r ++ evs) (initDecoder (ent w) in_stream) ->
  exists e' sin',
    decompress w in_stream max_count
    = Some (mk (r_models r) e' (opt_var w) 3 13 (r_touched r), sin',
            take (Z.to_nat max_count) (concat (map frame_octets fs))) /\
    dec_ok evs (e', sin').
Proof.
  intros Hfs Hmc Hcount. cbv zeta. intros Hok.
  unfold decompress. cbn [init ent].
  destruct (initDecoder (ent w) in_stream) as [e sin].
  rewrite init_eq.
  destruct (decompress_loop_run fs (S (Z.to_nat max_count))
              (vec_new (2 ^ 16)) e (opt_var w) (touched_ w) sin []
              max_count hist0 evs) as (e' & sin' & -> & Hok');
    [done|lia|done|done|done|done|].
  cbn [mbind option_bind d_w d_sin d_sout app].
  by exists e', sin'.
Qed.

End StreamProps.

(** C1.  For every sequence [S] of octets, [decompress] of the octets
    that [compress] writes for [S], with the length of [S] as count,
    writes exactly [S], whatever the length of [S] modulo 4.  The range
    coder is any that round-trips, the model any whose probabilities stay
    below [kMaxValue]. *)
Theorem roundtrip {M R : Type} `{!StationaryModel M} `{!Range7 R}
    (w w' : Wav16.t (M:=M) (R:=R)) (S : list Z) :
  range7_roundtrip (R:=R) -> model_in_range (M:=M) ->
  Forall octet S -> Z.of_nat (length S) <= 2 ^ 64 - 4 ->
  exists w1 rest out w2 rest',
    Wav16.compress w S (Z.of_nat (length S)) = Some (w1, rest, out) /\
    Wav16.decompress w' out (Z.of_nat (length S)) = Some (w2, rest', S).
Proof.
  intros Hrt Hrange Hoct Hlen.
  set (L := Z.of_nat (length S)) in *.
  rewrite (compress_run w S L) by done.
  assert (Hfs : take (frame_count L) (frames_of S) = frames_of S)
    by (apply take_ge; rewrite frames_of_length; fold L; lia).
  rewrite Hfs.
  set (r := run_frames (vec_new (2 ^ 16)) Wav16.hist0 (Wav16.touched_ w)
              (frames_of S)).
  assert (Hval : Forall valid_event (r_events r))
    by (apply run_valid; [done|apply vec_new_reachable]).
  pose proof (Hrt (r_events r) (Wav16.ent w') Hval) as Hok.
  assert (Hev : r_events r
                = r_events (run_frames (vec_new (2 ^ 16)) Wav16.hist0
                              (Wav16.touched_ w') (frames_of S))).
  { unfold r. rewrite (run_frames_touched _ _ _ (Wav16.touched_ w)).
    by rewrite (run_frames_touched _ _ _ (Wav16.touched_ w')). }
  rewrite <- (app_nil_r (r_events r)) in Hok at 1. rewrite Hev in Hok at 1.
  destruct (decompress_run w' (encoded (r_events r)) L (frames_of S) []
              (frames_of_ok S)) as (e' & sin' & Hd & _);
    [lia| |done|].
  { rewrite frames_of_length. fold L. apply frame_count_bounds. lia. }
  eexists _, _, _, _, _. split; [done|].
  rewrite Hd. do 2 f_equal. unfold L. rewrite Nat2Z.id.
  by apply frames_of_octets.
Qed.

(** ** The instances satisfy what the codec expects *)

Lemma fast_bit_model_in_range : model_in_range (M:=Z).
Proof.
  assert (Hinv : forall m : Z, reachable m -> 1 <= m <= 4095).
  { induction 1 as [|m bit Hm IH Hbit].
    - by vm_compute.
    - cbn [update FastBitModel.model]. unfold FastBitModel.update.
      change FastBitModel.p_cap with 4095.
      change Wav16.kMaxValue with 4096.
      change FastBitModel.learn_rate with 9.
      rewrite !Z.shiftr_div_pow2 by lia. change (2 ^ 9) with 512.
      assert (0 <= (4096 - m) / 512) by (apply Z.div_pos; lia).
      assert (0 <= m / 512) by (apply Z.div_pos; lia).
      assert (m / 512 <= m - 1).
      { pose proof (Z.div_mod m 512 ltac:(lia)).
        pose proof (Z.mod_pos_bound m 512 ltac:(lia)). lia. }
      case_decide; lia. }
  intros m Hm. specialize (Hinv m Hm).
  cbn [getP FastBitModel.model]. unfold FastBitModel.getP.
  change Wav16.kMaxValue with 4096. lia.
Qed.

Lemma store_coder_bits : range7_bits (R:=StoreCoder.t).
Proof.
  split.
  - intros r p s. cbn. pose proof (Z.mod_pos_bound (StoreCoder.code r) 2).
    unfold is_bit. lia.
  - intros r sin. cbn. unfold StoreCoder.decodeBit.
    destruct (stream_get sin). cbn.
    pose proof (Z.mod_pos_bound (StoreCoder.code r) 2).
    unfold is_bit. lia.
Qed.

Lemma store_coder_enc evs : forall r out,
  Forall valid_event evs ->
  enc_events (R:=StoreCoder.t) (r, out) evs = (r, out ++ map ev_bit evs).
Proof.
  unfold enc_events.
  induction evs as [|ev evs IH]; intros r out Hval.
  - cbn. by rewrite app_nil_r.
  - inversion Hval as [|? ? Hev Hval']; subst.
    assert (Hb : is_bit (ev_bit ev))
      by (destruct ev; cbn in *; tauto).
    assert (Hput : stream_put out (ev_bit ev) = out ++ [ev_bit ev])
      by (apply stream_put_octet; destruct Hb as [-> | ->]; lia).
    cbn [foldl].
    assert (Hstep : enc_event (R:=StoreCoder.t) (r, out) ev
                    = (r, out ++ [ev_bit ev]))
      by (destruct ev; cbn in *;
          unfold StoreCoder.encode, StoreCoder.encodeBit; by rewrite Hput).
    rewrite Hstep, IH by done. by rewrite <- app_assoc.
Qed.

(** The decoder holds the next octet in [code]: it returns the bits of
    [evs] when that octet and the input start with them. *)
Lemma store_coder_dec evs : forall c sin tail,
  Forall valid_event evs ->
  (evs <> [] -> c :: sin = map ev_bit evs ++ tail) ->
  dec_ok (R:=StoreCoder.t) evs (StoreCoder.mk c, sin).
Proof.
  induction evs as [|ev evs IH]; intros c sin tail Hval Hs; [done|].
  inversion Hval as [|? ? Hev Hval']; subst.
  specialize (Hs ltac:(done)). cbn [map app] in Hs.
  injection Hs as -> ->.
  assert (Hb : is_bit (ev_bit ev)) by (destruct ev; cbn in *; tauto).
  assert (Hmod : ev_bit ev mod 2 = ev_bit ev)
    by (destruct Hb as [-> | ->]; done).
  assert (Hnext : forall evs', evs' = evs ->
            dec_ok (R:=StoreCoder.t) evs'
              (let '(c, s) := stream_get (map ev_bit evs ++ tail) in
               (StoreCoder.mk c, s))).
  { intros evs' ->. destruct evs as [|ev2 evs2]; [by destruct tail|].
    cbn [map app stream_get]. eapply IH; [done|]. intros _. done. }
  destruct ev as [p bit|bit]; cbn in Hmod |- *.
  - unfold StoreCoder.getDecodedBit, StoreCoder.Normalize. cbn.
    split; [done|]. by apply Hnext.
  - unfold StoreCoder.decodeBit. cbn.
    specialize (Hnext evs eq_refl).
    destruct (stream_get (map ev_bit evs ++ tail)) as [c' s'].
    cbn. by split.
Qed.

Lemma store_coder_roundtrip : range7_roundtrip (R:=StoreCoder.t).
Proof.
  intros evs r0 Hval. unfold encoded.
  rewrite store_coder_enc by done. cbn.
  unfold StoreCoder.initDecoder.
  destruct evs as [|ev evs]; [done|].
  cbn [map app stream_get]. apply (store_coder_dec _ _ _ []); [done|].
  intros _. by rewrite app_nil_r.
Qed.

Lemma S7_octets : Forall octet S7.
Proof. repeat constructor; unfold octet; lia. Qed.

Lemma roundtrip_witness :
  range7_roundtrip (R:=StoreCoder.t) /\ model_in_range (M:=Z) /\
  Forall octet S7 /\ Z.of_nat (length S7) <= 2 ^ 64 - 4 /\
  exists w1 rest out w2 rest',
    Wav16.compress (M:=Z) (R:=StoreCoder.t) Wav16.new S7
                   (Z.of_nat (length S7)) = Some (w1, rest, out) /\
    Wav16.decompress Wav16.new out (Z.of_nat (length S7))
    = Some (w2, rest', S7).
Proof.
  split; [exact store_coder_roundtrip|].
  split; [exact fast_bit_model_in_range|].
  split; [exact S7_octets|].
  split; [by vm_compute|].
  apply (roundtrip Wav16.new Wav16.new S7).
  - exact store_coder_roundtrip.
  - exact fast_bit_model_in_range.
  - exact S7_octets.
  - by vm_compute.
Defined.

(** C2.  When the encoder has coded a prefix of [S] (the frames that a
    count [n] allows) and the decoder has decoded as much from the octets
    that [compress] writes for the whole of [S], the two model tables
    are equal, and the two logs have been extended by the same sequence
    of subscripts. *)
Theorem model_parity {M R : Type} `{!StationaryModel M} `{!Range7 R}
    (w w' : Wav16.t (M:=M) (R:=R)) (S : list Z) (n : Z) :
  range7_roundtrip (R:=R) -> model_in_range (M:=M) ->
  Forall octet S -> Z.of_nat (length S) <= 2 ^ 64 - 4 ->
  0 <= n <= Z.of_nat (length S) ->
  exists w_all rest_all out,
    Wav16.compress w S (Z.of_nat (length S)) = Some (w_all, rest_all, out) /\
    exists we re oe wd rd idxs,
      Wav16.compress w S n = Some (we, re, oe) /\
      Wav16.decompress w' out n = Some (wd, rd, take (Z.to_nat n) S) /\
      Wav16.models_ we = Wav16.models_ wd /\
      Wav16.touched_ we = idxs ++ Wav16.touched_ w /\
      Wav16.touched_ wd = idxs ++ Wav16.touched_ w'.
Proof.
  intros Hrt Hrange Hoct Hlen Hn.
  set (L := Z.of_nat (length S)) in *.
  rewrite (compress_run w S L), (compress_run w S n) by (done || lia).
  assert (HfsL : take (frame_count L) (frames_of S) = frames_of S)
    by (apply take_ge; rewrite frames_of_length; fold L; lia).
  rewrite HfsL.
  set (k := frame_count n). set (fs := frames_of S).
  assert (Hk : length (take k fs) = k).
  { rewrite length_take. unfold fs. rewrite frames_of_length. fold L.
    pose proof (frame_count_mono n L ltac:(lia)). unfold k. lia. }
  set (ms0 := vec_new (T:=M) (2 ^ 16)).
  set (r_all := run_frames ms0 Wav16.hist0 (Wav16.touched_ w) fs).
  set (rn := run_frames ms0 Wav16.hist0 [] (take k fs)).
  assert (Hrn : forall t, run_frames ms0 Wav16.hist0 t (take k fs)
                = mkrun (r_models rn) (r_hist rn) (r_events rn)
                        (r_touched rn ++ t))
    by (intros t; apply run_frames_touched).
  set (rest := r_events (run_frames (r_models rn) (r_hist rn)
                           (r_touched rn ++ Wav16.touched_ w) (drop k fs))).
  assert (Hsplit : r_events r_all = r_events rn ++ rest).
  { unfold r_all, rest.
    rewrite <- (take_drop k fs) at 1.
    rewrite run_frames_app. cbn [r_events]. rewrite Hrn.
    by cbn [r_events r_models r_hist r_touched]. }
  clearbody rest.
  assert (Hval : Forall valid_event (r_events r_all))
    by (apply run_valid; [done|apply vec_new_reachable]).
  pose proof (Hrt (r_events r_all) (Wav16.ent w') Hval) as Hok.
  rewrite Hsplit in Hok at 1.
  destruct (decompress_run w' (encoded (r_events r_all)) n (take k fs) rest)
    as (e' & sin' & Hd & _).
  { apply Forall_take, frames_of_ok. }
  { lia. }
  { rewrite Hk. apply frame_count_bounds. lia. }
  { rewrite Hrn. done. }
  assert (Hout : take (Z.to_nat n) (concat (map frame_octets (take k fs)))
                 = take (Z.to_nat n) S).
  { rewrite concat_frame_octets_take, take_take.
    pose proof (frame_count_bounds n ltac:(lia)) as Hb. fold k in Hb.
    replace (Z.to_nat n `min` (4 * k))%nat with (Z.to_nat n) by lia.
    transitivity (take (Z.to_nat n)
                    (take (length S) (concat (map frame_octets fs)))).
    - rewrite take_take. f_equal. lia.
    - unfold fs. by rewrite (frames_of_octets S Hoct). }
  rewrite Hout, Hrn in Hd. cbn [r_models r_touched] in Hd.
  eexists _, _, _. split; [done|].
  eexists _, _, _, _, _, (r_touched rn). split; [done|].
  split; [exact Hd|].
  rewrite !Hrn. by cbn [r_models r_touched Wav16.models_ Wav16.touched_].
Qed.

Lemma model_parity_witness :
  range7_roundtrip (R:=StoreCoder.t) /\ model_in_range (M:=Z) /\
  Forall octet S7 /\ Z.of_nat (length S7) <= 2 ^ 64 - 4 /\
  0 <= 4 <= Z.of_nat (length S7) /\
  exists w_all rest_all out,
    Wav16.compress (M:=Z) (R:=StoreCoder.t) Wav16.new S7
                   (Z.of_nat (length S7)) = Some (w_all, rest_all, out) /\
    exists we re oe wd rd idxs,
      Wav16.compress (M:=Z) (R:=StoreCoder.t) Wav16.new S7 4
      = Some (we, re, oe) /\
      Wav16.decompress (M:=Z) (R:=StoreCoder.t) Wav16.new out 4
      = Some (wd, rd, take (Z.to_nat 4) S7) /\
      Wav16.models_ we = Wav16.models_ wd /\
      Wav16.touched_ we = idxs ++ Wav16.touched_ (Wav16.new (M:=Z) (R:=StoreCoder.t)) /\
      Wav16.touched_ wd = idxs ++ Wav16.touched_ (Wav16.new (M:=Z) (R:=StoreCoder.t)).
Proof.
  split; [exact store_coder_roundtrip|].
  split; [exact fast_bit_model_in_range|].
  split; [exact S7_octets|].
  split; [by vm_compute|].
  split; [by vm_compute|].
  apply (model_parity Wav16.new Wav16.new S7 4).
  - exact store_coder_roundtrip.
  - exact fast_bit_model_in_range.
  - exact S7_octets.
  - by vm_compute.
  - by vm_compute.
Defined.

(** The iteration of the loop of [compress] on a whole frame: the
    residuals are the samples minus the predictions modulo 2^16, and the
    history is shifted from the samples. *)
Lemma compress_frame_step {M R : Type} `{!StationaryModel M} `{!Range7 R}
    (w : Wav16.t (M:=M) (R:=R)) fuel max_count c1 c2 c3 c4 sin sout i h :
  i < max_count -> c1 <> EOF ->
  let a := wrap16 (c1 + c2 * 256) in
  let b := wrap16 (c3 + c4 * 256) in
  Wav16.compress_loop (S fuel) max_count
    (Wav16.mkenc w (c1 :: c2 :: c3 :: c4 :: sin) sout i h)
  = '(w1, so1, _) ← Wav16.processSample false w sout 0 0
                      (wrap16 (a - Wav16.pred_a h));
    '(w2, so2, _) ← Wav16.processSample false w1 so1 0 1
                      (wrap16 (b - Wav16.pred_b h));
    Wav16.compress_loop fuel max_count
      (Wav16.mkenc w2 sin so2 (wrap64 (i + 4)) (Wav16.shift_hist h a b)).
Proof.
  intros Hi Hc1. cbv zeta. rewrite compress_loop_S.
  cbn [Wav16.e_i Wav16.e_sin Wav16.e_w Wav16.e_sout Wav16.e_hist stream_get].
  rewrite decide_True by done. cbv beta iota zeta.
  by rewrite decide_False by done.
Qed.

(** The iteration of the loop of [decompress]: the samples are the
    predictions plus the decoded residuals modulo 2^16, and the history is
    shifted from them. *)
Lemma decompress_frame_step {M R : Type} `{!StationaryModel M} `{!Range7 R}
    (w : Wav16.t (M:=M) (R:=R)) fuel sin sout max_count h :
  4 <= max_count < 2 ^ 64 ->
  Wav16.decompress_loop (S fuel) (Wav16.mkdec w sin sout max_count h)
  = '(w1, si1, ra) ← Wav16.processSample true w sin 0 0 0;
    '(w2, si2, rb) ← Wav16.processSample true w1 si1 0 1 0;
    let a := wrap16 (Wav16.pred_a h + ra) in
    let b := wrap16 (Wav16.pred_b h + rb) in
    Wav16.decompress_loop fuel
      (Wav16.mkdec w2 si2 (sout ++ frame_octets (a, b)) (max_count - 4)
                   (Wav16.shift_hist h a b)).
Proof.
  intros Hmc. rewrite decompress_loop_S.
  cbn [Wav16.d_max_count Wav16.d_hist Wav16.d_w Wav16.d_sin Wav16.d_sout].
  rewrite decide_True by lia. cbv zeta.
  destruct (Wav16.processSample true w sin 0 0 0) as [[[w1 si1] ra]|];
    [|done].
  cbn [mbind option_bind]. cbv beta iota zeta.
  destruct (Wav16.processSample true w1 si1 0 1 0) as [[[w2 si2] rb]|];
    [|done].
  cbn [mbind option_bind]. cbv beta iota zeta.
  rewrite put_if4 by (lia || apply wrap16_range).
  rewrite Z.max_l by lia.
  rewrite take_ge by (rewrite frame_octets_length; lia). done.
Qed.

Lemma walk_events_length {M : Type} `{!StationaryModel M} base bits :
  forall (ms : vec M) ctx,
  length (wk_events (walk base bits ms ctx)) = length bits.
Proof.
  induction bits as [|b bits IH]; intros ms ctx; [done|].
  cbn [walk wk_events length]. by rewrite IH.
Qed.

(** C4 as stated fails for the encoder: for the residual 5 the call
    returns [0x12000], not the value 5 assembled from the 16 coded
    bits. *)
Lemma encoder_return_not_residual :
  exists w' sout,
    Wav16.processSample false (Wav16.init W0) [] 0 0 5
    = Some (w', sout, 73728) /\
    assemble 0 (bits_msb 16 5) = 5 /\ 73728 <> 5.
Proof.
  eexists _, _. split; [vm_compute; reflexivity|]. split; [|done].
  by vm_compute.
Qed.

(** C4, amended.  A call of [processSample] for a 16-bit residual [r] of
    channel 0 or 1 codes the 16 bits of [r], most significant first: the
    first 13 through the models at [(channel << 13) + ctx], where [ctx]
    starts at 1 and becomes [2 * ctx + bit], each with the probability of
    its model patched from 0 to 1 while the model itself is updated as it
    is, and the last 3 directly.  The decoder, when the coder returns
    those bits, makes the same walk, shifts all 16 bits into [ctx] and
    returns [ctx ^ (1 << 16)], which is [r].  The encoder leaves the 3
    direct bits out of [ctx] and returns [2^16 + 2^13 + (r >> 3)]. *)
Theorem processSample_codes_16_bits {M R : Type} `{!StationaryModel M}
    `{!Range7 R} (w : Wav16.t (M:=M) (R:=R)) stream channel r evs :
  initialised w -> channel = 0 \/ channel = 1 -> 0 <= r < 2 ^ 16 ->
  let bits := bits_msb 16 r in
  let wk := walk (channel * 2 ^ 13) (take 13 bits) (Wav16.models_ w) 1 in
  let coded := wk_events wk ++ map EvDirect (drop 13 bits) in
  let st := enc_events (Wav16.ent w, stream) coded in
  length bits = 16%nat /\ assemble 0 bits = r /\
  length (wk_events wk) = 13%nat /\ length (drop 13 bits) = 3%nat /\
  wk_ctx wk = assemble 1 (take 13 bits) /\
  Wav16.processSample false w stream 0 channel r
  = Some (Wav16.mk (wk_models wk) st.1 (Wav16.opt_var w)
                   (Wav16.noise_bits_ w) (Wav16.non_noise_bits_ w)
                   (rev (wk_indices wk) ++ Wav16.touched_ w),
          st.2, 2 ^ 16 + 2 ^ 13 + r / 2 ^ 3) /\
  (dec_ok (coded ++ evs) (Wav16.ent w, stream) ->
   exists e' stream',
     Wav16.processSample true w stream 0 channel 0
     = Some (Wav16.mk (wk_models wk) e' (Wav16.opt_var w)
                      (Wav16.noise_bits_ w) (Wav16.non_noise_bits_ w)
                      (rev (wk_indices wk) ++ Wav16.touched_ w),
             stream', r) /\
     r = Z.lxor (assemble 1 bits) (Z.shiftl 1 16) /\
     dec_ok evs (e', stream')).
Proof.
  intros Hw Hch Hr. cbv zeta.
  split; [apply bits_msb_length|].
  split; [rewrite bits_msb_assemble; by apply Z.mod_small|].
  split.
  { by rewrite walk_events_length, length_take, bits_msb_length. }
  split; [by rewrite length_drop, bits_msb_length|].
  split; [apply walk_ctx|].
  rewrite <- !sample_walk_eq, <- sample_events_eq.
  split.
  { rewrite processSample_enc by done.
    rewrite sample_walk_ctx by done. do 2 f_equal. lia. }
  intros Hok.
  destruct (processSample_dec w stream channel r evs Hw Hch Hr Hok)
    as (e' & stream' & Hd & Hok').
  exists e', stream'. split; [done|]. split; [|done].
  rewrite assemble_shift, bits_msb_length, bits_msb_assemble.
  change (Z.of_nat 16) with 16. rewrite Z.mod_small by done.
  change (Z.shiftl 1 16) with (2 ^ 16). rewrite Z.mul_1_l.
  by rewrite lxor_marker.
Qed.

Lemma processSample_codes_16_bits_witness :
  initialised (Wav16.init W0) /\ (1 = 0 \/ 1 = 1) /\ 0 <= 5 < 2 ^ 16 /\
  exists w' sout,
    Wav16.processSample false (Wav16.init W0) [] 0 1 5
    = Some (w', sout, 2 ^ 16 + 2 ^ 13 + 5 / 2 ^ 3).
Proof.
  split; [apply init_initialised|]. split; [by right|]. split; [lia|].
  destruct (processSample_codes_16_bits (Wav16.init W0) [] 1 5 [])
    as (_ & _ & _ & _ & _ & He & _).
  - apply init_initialised.
  - by right.
  - lia.
  - eexists _, _. exact He.
Defined.

Lemma model_table_bounds_witness :
  (true = true -> range7_bits (R:=StoreCoder.t)) /\
  initialised (Wav16.init W0) /\ (1 = 0 \/ 1 = 1) /\
  v_size (Wav16.models_ (Wav16.init W0)) = 2 ^ 16 /\
  exists w' stream' r new,
    Wav16.processSample true (Wav16.init W0) [1; 0; 1] 0 1 0
    = Some (w', stream', r) /\
    initialised w' /\
    Wav16.touched_ w' = new ++ Wav16.touched_ (Wav16.init W0) /\
    length new = 13%nat /\
    Forall (fun i => 0 <= i < v_size (Wav16.models_ (Wav16.init W0))) new.
Proof.
  split; [intros _; exact store_coder_bits|].
  split; [apply init_initialised|]. split; [by right|].
  destruct (model_table_bounds W0 (Wav16.init W0) true [1; 0; 1] 1 0)
    as (_ & Hsz & _ & Hex).
  - intros _. exact store_coder_bits.
  - apply init_initialised.
  - by right.
  - by split.
Defined.

(** C5 as stated fails: on an input of 7 octets the loop of [compress]
    does not stop after the first frame.  It runs a second iteration on
    the 3 octets left, with [EOF] for the missing one, codes both
    residuals of that frame (64 coded bits against 32 for the first 4
    octets alone), shifts the history and leaves [i = 8]. *)
Lemma partial_frame_is_coded :
  exists se se4,
    Wav16.compress_loop 8 7
      (Wav16.mkenc (Wav16.set_ent (Wav16.init W0) rc_new) S7 [] 0
                   Wav16.hist0) = Some se /\
    Wav16.compress_loop 8 7
      (Wav16.mkenc (Wav16.set_ent (Wav16.init W0) rc_new) (take 4 S7) [] 0
                   Wav16.hist0) = Some se4 /\
    Wav16.e_i se = 8 /\ Wav16.e_i se4 = 4 /\
    length (Wav16.e_sout se) = 64%nat /\
    length (Wav16.e_sout se4) = 32%nat /\
    Wav16.e_hist se = Wav16.mkhist 2 (wrap16 (7 + EOF * 256)) 1 32767 0 0 /\
    Wav16.e_hist se4 = Wav16.mkhist 1 32767 0 0 0 0 /\
    Wav16.e_sout se <> Wav16.e_sout se4.
Proof.
  eexists _, _. split; [vm_compute; reflexivity|].
  split; [vm_compute; reflexivity|]. by vm_compute.
Qed.

Lemma frames_of_app sin tail :
  Z.of_nat (length sin) mod 4 = 0 ->
  frames_of (sin ++ tail) = frames_of sin ++ frames_of tail.
Proof.
  induction sin as [|c1|c1 c2|c1 c2 c3|c1 c2 c3 c4 sin IH] using list4_ind;
    intros Hlen; try done.
  cbn [app frames_of]. rewrite IH; [done|].
  cbn [length] in Hlen.
  replace (Z.of_nat (S (S (S (S (length sin))))))
    with (Z.of_nat (length sin) + 1 * 4) in Hlen by lia.
  by rewrite Z.mod_add in Hlen by lia.
Qed.

(** C5, amended.  On an input of octets that the count covers, the loop
    of [compress] stops only when the first octet of a frame is missing:
    it codes one frame for every 4 octets and one more for 1 to 3 octets
    left over, whose missing octets read as [EOF], and consumes the whole
    input. *)
Theorem compress_codes_partial_frame {M R : Type} `{!StationaryModel M}
    `{!Range7 R} (w : Wav16.t (M:=M) (R:=R)) (S : list Z) max_count :
  Forall octet S -> Z.of_nat (length S) <= max_count <= 2 ^ 64 - 4 ->
  let fs := frames_of S in
  let r := run_frames (vec_new (2 ^ 16)) Wav16.hist0 (Wav16.touched_ w) fs in
  length fs = frame_count (Z.of_nat (length S)) /\
  (forall sin tail, S = sin ++ tail -> Z.of_nat (length sin) mod 4 = 0 ->
     fs = frames_of sin ++ frames_of tail) /\
  (forall c1 c2 c3 : Z,
     frames_of [c1; c2; c3]
     = [(wrap16 (c1 + c2 * 256), wrap16 (c3 + EOF * 256))] /\
     frames_of [c1; c2]
     = [(wrap16 (c1 + c2 * 256), wrap16 (EOF + EOF * 256))] /\
     frames_of [c1]
     = [(wrap16 (c1 + EOF * 256), wrap16 (EOF + EOF * 256))]) /\
  exists se,
    Wav16.compress_loop (Datatypes.S (length S)) max_count
      (Wav16.mkenc (Wav16.set_ent (Wav16.init w) rc_new) S [] 0 Wav16.hist0)
    = Some se /\
    Wav16.e_i se = 4 * Z.of_nat (frame_count (Z.of_nat (length S))) /\
    Wav16.e_sin se = [] /\
    (Wav16.ent (Wav16.e_w se), Wav16.e_sout se)
    = enc_events (rc_new, []) (r_events r) /\
    Wav16.e_hist se
    = foldl (fun h f => Wav16.shift_hist h f.1 f.2) Wav16.hist0 fs.
Proof.
  intros Hoct Hlen. cbv zeta.
  split; [apply frames_of_length|].
  split; [intros sin tail -> Hs; by apply frames_of_app|].
  split; [done|].
  rewrite init_eq, compress_loop_run by (done || lia).
  rewrite Z.sub_0_r.
  assert (Hfs : take (frame_count max_count) (frames_of S) = frames_of S).
  { apply take_ge. rewrite frames_of_length.
    apply frame_count_mono. lia. }
  rewrite Hfs. eexists. split; [done|].
  cbn [Wav16.e_i Wav16.e_sin Wav16.e_w Wav16.e_sout Wav16.e_hist Wav16.ent].
  rewrite frames_of_length.
  split; [lia|]. split.
  { apply drop_ge.
    pose proof (frame_count_bounds (Z.of_nat (length S)) ltac:(lia)). lia. }
  split; [by destruct (enc_events _ _)|].
  apply run_frames_hist.
Qed.

Lemma compress_codes_partial_frame_witness :
  Forall octet S7 /\ Z.of_nat (length S7) <= 7 <= 2 ^ 64 - 4 /\
  exists se,
    Wav16.compress_loop (Datatypes.S (length S7)) 7
      (Wav16.mkenc (Wav16.set_ent (Wav16.init W0) rc_new) S7 [] 0
                   Wav16.hist0)
    = Some se /\
    Wav16.e_i se = 4 * Z.of_nat (frame_count (Z.of_nat (length S7))) /\
    Wav16.e_sin se = [].
Proof.
  split; [exact S7_octets|]. split; [by vm_compute|].
  destruct (compress_codes_partial_frame W0 S7 7)
    as (_ & _ & _ & se & H1 & H2 & H3 & _).
  - exact S7_octets.
  - by vm_compute.
  - exists se. split; [exact H1|]. split; [exact H2|exact H3].
Defined.

(** * Further properties of the two headers *)

(** ** CyclicBuffer: the other members *)

Section BufferMore.

Context {T : Type}.
Implicit Types (b : CyclicBuffer.t (T:=T)) (l src blk : list T).

Import CyclicBuffer.

Lemma load_Some blk i :
  0 <= i < Z.of_nat (length blk) -> exists x, load blk i = Some x.
Proof.
  intros Hi. unfold load. rewrite decide_True by lia.
  apply lookup_lt_is_Some_2. lia.
Qed.

Lemma load_None blk i :
  i < 0 \/ Z.of_nat (length blk) <= i -> load blk i = None.
Proof.
  intros Hi. unfold load. destruct (decide (0 <= i)); [|done].
  apply lookup_ge_None_2. lia.
Qed.

Lemma store_None blk i (v : T) :
  i < 0 \/ Z.of_nat (length blk) <= i -> store blk i v = None.
Proof. intros Hi. unfold store. by rewrite decide_False by lia. Qed.

Lemma load_store blk i j (v : T) :
  0 <= i < Z.of_nat (length blk) ->
  load (<[Z.to_nat i := v]> blk) j
  = if decide (j = i) then Some v else load blk j.
Proof.
  intros Hi. unfold load. destruct (decide (j = i)) as [->|Hne].
  - rewrite decide_True by lia. apply list_lookup_insert_eq. lia.
  - destruct (decide (0 <= j)); [|done].
    apply list_lookup_insert_ne. lia.
Qed.

Lemma mask_mod k off : 0 <= k -> Z.land off (2 ^ k - 1) = off mod 2 ^ k.
Proof. intros. by apply land_mask. Qed.

Lemma mod_pow2_range k off : 0 <= k -> 0 <= off mod 2 ^ k < 2 ^ k.
Proof. intros. apply Z.mod_pos_bound. by apply pow2_pos. Qed.


Lemma wrap64_mod_pow2' x k : 0 <= k <= 64 -> wrap64 x mod 2 ^ k = x mod 2 ^ k.
Proof.
  intros. unfold wrap64. apply Z.mod_mod_divide.
  exists (2 ^ (64 - k)). rewrite <- Z.pow_add_r by lia. f_equal. lia.
Qed.

Lemma mod_neq_shift p c n :
  0 < c < n -> (p - c) mod n <> p mod n.
Proof.
  intros Hc Heq.
  assert (H0 : (p - (p - c)) mod n = 0).
  { rewrite Zminus_mod, Heq, Z.sub_diag. apply Z.mod_0_l. lia. }
  replace (p - (p - c)) with c in H0 by lia.
  rewrite Z.mod_small in H0 by lia. lia.
Qed.

Lemma prev_mod b k pos count :
  0 <= k <= 64 -> mask_ b = 2 ^ k - 1 ->
  prev b pos count = (pos - count) mod 2 ^ k.
Proof.
  intros Hk Hm. unfold prev. rewrite Hm, land_mask by lia.
  by apply wrap64_mod_pow2'.
Qed.

Lemma next_mod b k pos count :
  0 <= k <= 64 -> mask_ b = 2 ^ k - 1 ->
  next b pos count = (pos + count) mod 2 ^ k.
Proof.
  intros Hk Hm. unfold next. rewrite Hm, land_mask by lia.
  by apply wrap64_mod_pow2'.
Qed.

(** The storage after [push]. *)
Lemma push_storage b k v :
  wf b k ->
  push b v
  = Some (mk (wrap64 (pos_ b + 1)) (mask_ b) (alloc_size_ b)
             (<[Z.to_nat (data_ b + pos_ b mod 2 ^ k) := v]> (storage_ b))
             (data_ b)).
Proof.
  intros Hwf. destruct (wf_mask_pos b k Hwf) as [Hr He].
  destruct Hwf as (Hk & Hm & Hp & Hd & Hlen).
  unfold push. rewrite He, store_Some by lia. done.
Qed.

Lemma get_raw_push b k v off :
  wf b k ->
  get_raw (mk (wrap64 (pos_ b + 1)) (mask_ b) (alloc_size_ b)
              (<[Z.to_nat (data_ b + pos_ b mod 2 ^ k) := v]> (storage_ b))
              (data_ b)) off
  = if decide (off = pos_ b mod 2 ^ k) then Some v else get_raw b off.
Proof.
  intros (Hk & Hm & Hp & Hd & Hlen).
  pose proof (mod_pow2_range k (pos_ b) ltac:(lia)).
  unfold get_raw. cbn [storage_ data_].
  rewrite load_store by lia.
  destruct (decide (off = pos_ b mod 2 ^ k)) as [->|Hne].
  - by rewrite decide_True.
  - by rewrite decide_False by lia.
Qed.

Lemma push_all_app l l' : forall b,
  push_all b (l ++ l') = b' ← push_all b l; push_all b' l'.
Proof.
  induction l as [|x l IH]; intros b; [done|].
  cbn [app push_all]. destruct (push b x) as [b1|]; [|done].
  cbn. apply IH.
Qed.

(** [operator[]] is the raw read at the offset reduced modulo the
    capacity. *)
Lemma get_masked b k off : wf b k -> get b off = get_raw b (off mod 2 ^ k).
Proof.
  intros (Hk & Hm & _). unfold get, get_raw.
  by rewrite Hm, land_mask by lia.
Qed.

End BufferMore.

(** X1.  Masked indexing never leaves the data area, and is periodic in the
    capacity. *)
Theorem get_in_bounds {T} (b : CyclicBuffer.t (T:=T)) k off :
  CyclicBuffer.wf b k ->
  CyclicBuffer.get b off = CyclicBuffer.get_raw b (off mod 2 ^ k) /\
  (exists x, CyclicBuffer.get b off = Some x) /\
  CyclicBuffer.get b (wrap64 (off + 2 ^ k)) = CyclicBuffer.get b off.
Proof.
  intros (Hk & Hm & Hp & Hd & Hlen).
  pose proof (mod_pow2_range k off ltac:(lia)).
  unfold CyclicBuffer.get, CyclicBuffer.get_raw.
  rewrite Hm, !land_mask by lia.
  split; [done|]. split.
  - apply load_Some. lia.
  - rewrite wrap64_mod_pow2 by lia.
    rewrite <- (Z.mul_1_l (2 ^ k)) at 1. rewrite Z.mod_add; [done|].
    pose proof (pow2_pos k). lia.
Qed.

Lemma get_in_bounds_witness :
  CyclicBuffer.wf (CyclicBuffer.mk 6 7 16 (replicate 16 0) 4) 3 /\
  CyclicBuffer.get (CyclicBuffer.mk 6 7 16 (replicate 16 0) 4) 13
  = CyclicBuffer.get_raw (CyclicBuffer.mk 6 7 16 (replicate 16 0) 4) 5.
Proof.
  assert (Hwf : CyclicBuffer.wf (CyclicBuffer.mk 6 7 16 (replicate 16 0) 4) 3)
    by (unfold CyclicBuffer.wf; simpl; lia).
  split; [exact Hwf|].
  exact (proj1 (get_in_bounds (CyclicBuffer.mk 6 7 16 (replicate 16 0) 4)
                              3 13 Hwf)).
Defined.

(** X2.  [prev] and [next] are subtraction and addition modulo the capacity,
    also when [pos - count] underflows, and undo each other. *)
Theorem prev_next_inverse {T} (b : CyclicBuffer.t (T:=T)) k pos count :
  0 <= k <= 64 -> CyclicBuffer.mask_ b = 2 ^ k - 1 ->
  CyclicBuffer.prev b pos count = (pos - count) mod 2 ^ k /\
  CyclicBuffer.next b pos count = (pos + count) mod 2 ^ k /\
  CyclicBuffer.next b (CyclicBuffer.prev b pos count) count = pos mod 2 ^ k /\
  CyclicBuffer.prev b (CyclicBuffer.next b pos count) count = pos mod 2 ^ k.
Proof.
  intros Hk Hm.
  assert (Hpos : 0 < 2 ^ k) by (apply pow2_pos; lia).
  rewrite !(prev_mod b k), !(next_mod b k) by done.
  split; [done|]. split; [done|]. split.
  - rewrite Zplus_mod_idemp_l. f_equal. lia.
  - rewrite Zminus_mod_idemp_l. f_equal. lia.
Qed.

Lemma prev_next_inverse_witness :
  0 <= 3 <= 64 /\
  CyclicBuffer.mask_ (CyclicBuffer.mk 6 7 16 (replicate 16 0) 4) = 2 ^ 3 - 1 /\
  CyclicBuffer.prev (CyclicBuffer.mk 6 7 16 (replicate 16 0) 4) 2 5 = 5.
Proof.
  split; [lia|]. split; [reflexivity|].
  rewrite (proj1 (prev_next_inverse
                    (CyclicBuffer.mk 6 7 16 (replicate 16 0) 4) 3 2 5
                    ltac:(lia) eq_refl)).
  reflexivity.
Defined.

(** X3.  [push] writes the slot of the old position and no other, and the
    masked read of that position returns the value. *)
Theorem push_then_get {T} (b : CyclicBuffer.t (T:=T)) k v :
  CyclicBuffer.wf b k ->
  exists b',
    CyclicBuffer.push b v = Some b' /\ CyclicBuffer.wf b' k /\
    CyclicBuffer.pos_ b' = wrap64 (CyclicBuffer.pos_ b + 1) /\
    CyclicBuffer.get b' (CyclicBuffer.pos_ b) = Some v /\
    (forall off, off mod 2 ^ k <> CyclicBuffer.pos_ b mod 2 ^ k ->
       CyclicBuffer.get b' off = CyclicBuffer.get b off) /\
    (forall off, off <> CyclicBuffer.pos_ b mod 2 ^ k ->
       CyclicBuffer.get_raw b' off = CyclicBuffer.get_raw b off).
Proof.
  intros Hwf. eexists. split; [by apply push_storage|].
  assert (Hwf' : CyclicBuffer.wf
            (CyclicBuffer.mk (wrap64 (CyclicBuffer.pos_ b + 1))
               (CyclicBuffer.mask_ b) (CyclicBuffer.alloc_size_ b)
               (<[Z.to_nat (CyclicBuffer.data_ b
                            + CyclicBuffer.pos_ b mod 2 ^ k) := v]>
                  (CyclicBuffer.storage_ b))
               (CyclicBuffer.data_ b)) k).
  { eapply push_wf; [exact Hwf|]. by apply push_storage. }
  split; [exact Hwf'|]. split; [done|].
  split; [|split].
  - rewrite (get_masked _ k _ Hwf'), get_raw_push by done.
    by rewrite decide_True.
  - intros off Hoff.
    rewrite (get_masked _ k _ Hwf'), get_raw_push by done.
    rewrite decide_False by done.
    by rewrite (get_masked _ k _ Hwf).
  - intros off Hoff. rewrite get_raw_push by done.
    by rewrite decide_False.
Qed.

Lemma push_then_get_witness :
  CyclicBuffer.wf (CyclicBuffer.mk 6 7 16 (replicate 16 0) 4) 3 /\
  exists b',
    CyclicBuffer.push (CyclicBuffer.mk 6 7 16 (replicate 16 0) 4) 9 = Some b' /\
    CyclicBuffer.get b' 6 = Some 9.
Proof.
  assert (Hwf : CyclicBuffer.wf (CyclicBuffer.mk 6 7 16 (replicate 16 0) 4) 3)
    by (unfold CyclicBuffer.wf; simpl; lia).
  split; [exact Hwf|].
  destruct (push_then_get (CyclicBuffer.mk 6 7 16 (replicate 16 0) 4) 3 9 Hwf)
    as (b' & H1 & _ & _ & H2 & _).
  exists b'. split; [exact H1|exact H2].
Defined.

(** X4.  After the elements of [l] are pushed, [prev] from the new position
    finds the last [2 ^ k] of them, newest first. *)
Theorem push_all_window {T} (l : list T) (b : CyclicBuffer.t (T:=T)) k :
  CyclicBuffer.wf b k ->
  exists b',
    CyclicBuffer.push_all b l = Some b' /\ CyclicBuffer.wf b' k /\
    CyclicBuffer.getPos b'
    = wrap64 (CyclicBuffer.pos_ b + Z.of_nat (length l)) /\
    forall (j : nat) x,
      rev l !! j = Some x -> Z.of_nat j < 2 ^ k ->
      CyclicBuffer.get_raw b'
        (CyclicBuffer.prev b' (CyclicBuffer.getPos b') (Z.of_nat j + 1))
      = Some x.
Proof.
  intros Hwf. induction l as [|x l IH] using rev_ind.
  - exists b. split; [done|]. split; [done|]. split.
    + destruct Hwf as (_ & _ & Hp & _). unfold CyclicBuffer.getPos.
      simpl. rewrite Z.add_0_r. symmetry. by apply wrap64_small.
    + intros j y Hj. done.
  - destruct IH as (b1 & H1 & Hwf1 & Hpos1 & Hwin).
    rewrite push_all_app, H1. cbn [mbind option_bind CyclicBuffer.push_all].
    rewrite (push_storage b1 k x Hwf1). cbn [mbind option_bind].
    eexists. split; [done|].
    assert (Hwf' : CyclicBuffer.wf
              (CyclicBuffer.mk (wrap64 (CyclicBuffer.pos_ b1 + 1))
                 (CyclicBuffer.mask_ b1) (CyclicBuffer.alloc_size_ b1)
                 (<[Z.to_nat (CyclicBuffer.data_ b1
                              + CyclicBuffer.pos_ b1 mod 2 ^ k) := x]>
                    (CyclicBuffer.storage_ b1))
                 (CyclicBuffer.data_ b1)) k).
    { eapply push_wf; [exact Hwf1|]. by apply push_storage. }
    split; [exact Hwf'|].
    unfold CyclicBuffer.getPos in *. cbn [CyclicBuffer.pos_].
    destruct Hwf1 as (Hk & Hm & Hp & Hd & Hlen).
    assert (Hpow : 0 < 2 ^ k) by (apply pow2_pos; lia).
    split.
    + rewrite Hpos1, wrap64_add_l, length_app. cbn [length]. f_equal. lia.
    + intros j y Hj Hlt.
      rewrite rev_app_distr in Hj. cbn [rev app] in Hj.
      rewrite (prev_mod _ k) by (done || lia).
      rewrite get_raw_push by done.
      assert (Hshift : forall c,
                (wrap64 (CyclicBuffer.pos_ b1 + 1) - (c + 1)) mod 2 ^ k
                = (CyclicBuffer.pos_ b1 - c) mod 2 ^ k).
      { intros c. rewrite Zminus_mod, wrap64_mod_pow2 by lia.
        rewrite <- Zminus_mod. f_equal. lia. }
      rewrite Hshift.
      destruct j as [|j].
      * injection Hj as ->. rewrite Z.sub_0_r. by rewrite decide_True.
      * cbn in Hj. rewrite decide_False by (apply mod_neq_shift; lia).
        specialize (Hwin j y Hj ltac:(lia)).
        rewrite (prev_mod _ k) in Hwin by (done || lia).
        replace (Z.of_nat (S j)) with (Z.of_nat j + 1) by lia. exact Hwin.
Qed.

Lemma push_all_window_witness :
  CyclicBuffer.wf (CyclicBuffer.mk 6 7 16 (replicate 16 0) 4) 3 /\
  exists b',
    CyclicBuffer.push_all (CyclicBuffer.mk 6 7 16 (replicate 16 0) 4)
                          [1; 2; 3] = Some b' /\
    CyclicBuffer.get_raw b'
      (CyclicBuffer.prev b' (CyclicBuffer.getPos b') (Z.of_nat 1 + 1))
    = Some 2.
Proof.
  assert (Hwf : CyclicBuffer.wf (CyclicBuffer.mk 6 7 16 (replicate 16 0) 4) 3)
    by (unfold CyclicBuffer.wf; simpl; lia).
  split; [exact Hwf|].
  destruct (push_all_window [1; 2; 3]
              (CyclicBuffer.mk 6 7 16 (replicate 16 0) 4) 3 Hwf)
    as (b' & H1 & _ & _ & H2).
  exists b'. split; [exact H1|]. apply (H2 1%nat 2); [reflexivity|lia].
Defined.

Section BufferResize.

Context {T : Type}.
Implicit Types (b : CyclicBuffer.t (T:=T)) (l src blk : list T).

Import CyclicBuffer.

Lemma land_pred_pow2 n :
  0 < n -> Z.land n (n - 1) = 0 -> exists k, 0 <= k /\ n = 2 ^ k.
Proof.
  intros Hn Hl. exists (Z.log2 n).
  pose proof (Z.log2_nonneg n) as Hk.
  destruct (Z.log2_spec n Hn) as [Hlo Hhi].
  split; [done|].
  destruct (decide (n = 2 ^ Z.log2 n)) as [|Hne]; [done|exfalso].
  assert (Hl2 : Z.log2 (n - 1) = Z.log2 n)
    by (apply Z.log2_unique; [done|lia]).
  assert (Hb1 : Z.testbit n (Z.log2 n) = true) by (apply Z.bit_log2; lia).
  assert (Hb2 : Z.testbit (n - 1) (Z.log2 n) = true).
  { rewrite <- Hl2. apply Z.bit_log2.
    pose proof (pow2_pos (Z.log2 n) Hk). lia. }
  assert (Hb : Z.testbit (Z.land n (n - 1)) (Z.log2 n) = true)
    by (by rewrite Z.land_spec, Hb1, Hb2).
  rewrite Hl, Z.bits_0 in Hb. done.
Qed.

Lemma resize_pow2 (zero : T) b0 k p :
  0 <= k < 64 -> 0 <= p -> 2 ^ k + p * 2 < 2 ^ 64 ->
  resize zero b0 (2 ^ k) p
  = Some (mk 0 (2 ^ k - 1) (2 ^ k + p * 2)
             (replicate (Z.to_nat (2 ^ k + p * 2)) zero) p).
Proof.
  intros Hk Hp Hfit. pose proof (pow2_pos k ltac:(lia)).
  unfold resize, restart. cbn [mask_ alloc_size_ storage_ data_].
  rewrite !wrap64_small by lia.
  by rewrite decide_True by (apply land_pow2_pred; lia).
Qed.

End BufferResize.

(** X5.  [resize] accepts the sizes 0 and [2 ^ k] and no other; after
    [resize(0, p)] the mask is all ones and the capacity 0. *)
Theorem resize_accepts {T} (zero : T) (b0 : CyclicBuffer.t (T:=T)) n p :
  0 <= n < 2 ^ 64 ->
  (is_Some (CyclicBuffer.resize zero b0 n p)
   <-> n = 0 \/ exists k, 0 <= k < 64 /\ n = 2 ^ k) /\
  (forall b, CyclicBuffer.resize zero b0 0 p = Some b ->
     CyclicBuffer.mask_ b = 2 ^ 64 - 1 /\ CyclicBuffer.getSize b = 0 /\
     CyclicBuffer.alloc_size_ b = wrap64 (p * 2)).
Proof.
  intros Hn. split.
  - unfold CyclicBuffer.resize. split.
    + intros Hs.
      destruct (decide (Z.land n (wrap64 (n - 1)) = 0)) as [Hl|];
        [|by destruct Hs].
      destruct (decide (n = 0)) as [|Hn0]; [by left|right].
      rewrite wrap64_small in Hl by lia.
      destruct (land_pred_pow2 n ltac:(lia) Hl) as (k & Hk & ->).
      exists k. split; [|done]. split; [done|].
      apply (Z.pow_lt_mono_r_iff 2); lia.
    + intros [->|(k & Hk & ->)].
      * by rewrite decide_True by done.
      * pose proof (pow2_pos k ltac:(lia)).
        rewrite wrap64_small by lia.
        by rewrite decide_True by (apply land_pow2_pred; lia).
  - intros b. unfold CyclicBuffer.resize.
    rewrite decide_True by done. intros [= <-].
    unfold CyclicBuffer.restart, CyclicBuffer.getSize.
    cbn [CyclicBuffer.mask_ CyclicBuffer.alloc_size_].
    split; [reflexivity|]. split; [reflexivity|]. by rewrite Z.add_0_l.
Qed.

Lemma resize_accepts_witness :
  0 <= 8 < 2 ^ 64 /\
  is_Some (CyclicBuffer.resize 0 CyclicBuffer.empty 8 4) /\
  ~ is_Some (CyclicBuffer.resize 0 CyclicBuffer.empty 12 4).
Proof.
  split; [lia|]. split.
  - apply (proj1 (resize_accepts 0 CyclicBuffer.empty 8 4 ltac:(lia))).
    right. exists 3. split; [lia|reflexivity].
  - intros [x Hx]. vm_compute in Hx. discriminate Hx.
Defined.

(** X6.  After [resize(2 ^ k, p)] the buffer is at position 0 with capacity
    [2 ^ k]; every element of the data area and of both paddings reads as
    the value-initialised element, and a raw read beyond them is outside
    the block. *)
Theorem resize_reads_zero {T} (zero : T) (b0 : CyclicBuffer.t (T:=T)) k p :
  0 <= k < 64 -> 0 <= p -> 2 ^ k + p * 2 < 2 ^ 64 ->
  exists b,
    CyclicBuffer.resize zero b0 (2 ^ k) p = Some b /\
    CyclicBuffer.wf b k /\ CyclicBuffer.padded b k p /\
    CyclicBuffer.getPos b = 0 /\ CyclicBuffer.getSize b = 2 ^ k /\
    CyclicBuffer.alloc_size_ b = 2 ^ k + p * 2 /\
    (forall off, CyclicBuffer.get b off = Some zero) /\
    (forall off, - p <= off < 2 ^ k + p ->
       CyclicBuffer.get_raw b off = Some zero) /\
    (forall off, off < - p \/ 2 ^ k + p <= off ->
       CyclicBuffer.get_raw b off = None).
Proof.
  intros Hk Hp Hfit. pose proof (pow2_pos k ltac:(lia)) as Hpow.
  eexists. split; [by apply resize_pow2|].
  assert (Hlen : Z.of_nat (length (replicate (Z.to_nat (2 ^ k + p * 2)) zero))
                 = 2 ^ k + p * 2) by (rewrite length_replicate; lia).
  assert (Hraw : forall off, - p <= off < 2 ^ k + p ->
            CyclicBuffer.get_raw
              (CyclicBuffer.mk 0 (2 ^ k - 1) (2 ^ k + p * 2)
                 (replicate (Z.to_nat (2 ^ k + p * 2)) zero) p) off
            = Some zero).
  { intros off Hoff. unfold CyclicBuffer.get_raw, load.
    cbn [CyclicBuffer.storage_ CyclicBuffer.data_].
    rewrite decide_True by lia. apply lookup_replicate_2. lia. }
  assert (Hwf : CyclicBuffer.wf
            (CyclicBuffer.mk 0 (2 ^ k - 1) (2 ^ k + p * 2)
               (replicate (Z.to_nat (2 ^ k + p * 2)) zero) p) k).
  { unfold CyclicBuffer.wf.
    cbn [CyclicBuffer.mask_ CyclicBuffer.pos_ CyclicBuffer.data_
         CyclicBuffer.storage_].
    rewrite Hlen. repeat split; lia. }
  split; [exact Hwf|]. split.
  { unfold CyclicBuffer.padded.
    cbn [CyclicBuffer.mask_ CyclicBuffer.pos_ CyclicBuffer.data_
         CyclicBuffer.storage_].
    rewrite Hlen. repeat split; lia. }
  split; [done|]. split.
  { unfold CyclicBuffer.getSize. cbn [CyclicBuffer.mask_].
    rewrite wrap64_small by lia. lia. }
  split; [done|]. split; [|split].
  - intros off. rewrite (get_masked _ k off Hwf).
    pose proof (mod_pow2_range k off ltac:(lia)). apply Hraw. lia.
  - exact Hraw.
  - intros off Hoff. unfold CyclicBuffer.get_raw.
    cbn [CyclicBuffer.storage_ CyclicBuffer.data_].
    apply load_None. rewrite Hlen. lia.
Qed.

Lemma resize_reads_zero_witness :
  0 <= 3 < 64 /\ 0 <= 4 /\ 2 ^ 3 + 4 * 2 < 2 ^ 64 /\
  exists b,
    CyclicBuffer.resize 0 CyclicBuffer.empty (2 ^ 3) 4 = Some b /\
    CyclicBuffer.get b 100 = Some 0 /\ CyclicBuffer.get_raw b 12 = None.
Proof.
  split; [lia|]. split; [lia|]. split; [lia|].
  destruct (resize_reads_zero 0 CyclicBuffer.empty 3 4)
    as (b & H1 & _ & _ & _ & _ & _ & H2 & _ & H3); [lia|lia|lia|].
  exists b. split; [exact H1|]. split; [apply H2|apply H3; lia].
Defined.

(** X7.  After [release] the capacity is 0 (the sentinel mask plus one wraps),
    [fill] writes nothing, every read and [push] is outside the (absent)
    block, and [resize] behaves as on a new buffer. *)
Theorem release_spec {T} (zero : T) (b : CyclicBuffer.t (T:=T)) d off n p :
  let r := CyclicBuffer.release b in
  CyclicBuffer.getSize r = 0 /\ CyclicBuffer.getPos r = 0 /\
  CyclicBuffer.getMask r = 2 ^ 64 - 1 /\
  CyclicBuffer.fill r d = Some r /\
  CyclicBuffer.get r off = None /\ CyclicBuffer.get_raw r off = None /\
  CyclicBuffer.push r d = None /\
  CyclicBuffer.resize zero r n p = CyclicBuffer.resize zero b n p.
Proof.
  cbv zeta. split; [reflexivity|]. split; [reflexivity|].
  split; [reflexivity|]. split; [reflexivity|].
  assert (Hload : forall i, load (@nil T) i = None)
    by (intros i; unfold load; by destruct (decide (0 <= i))).
  split; [apply Hload|]. split; [apply Hload|].
  split.
  - unfold CyclicBuffer.push, CyclicBuffer.release.
    cbn [CyclicBuffer.storage_ CyclicBuffer.data_ CyclicBuffer.pos_
         CyclicBuffer.mask_].
    rewrite store_None; [done|]. cbn [length]. 
    change (Z.land 0 (wrap64 (-1))) with 0. lia.
  - done.
Qed.

Section BufferCopy.

Context {T : Type}.
Implicit Types (b : CyclicBuffer.t (T:=T)) (l src blk : list T).

Import CyclicBuffer.

Lemma load_store_Some blk blk' i j (v : T) :
  store blk i v = Some blk' ->
  load blk' j = if decide (j = i) then Some v else load blk j.
Proof.
  unfold store. destruct (decide (0 <= i < Z.of_nat (length blk))); [|done].
  intros [= <-]. by apply load_store.
Qed.

(** The loop of [copyStartToEndOfBuffer]: every element written equals
    the one [size] places before it in the block that results. *)
Lemma copyStartToEnd_loop_spec n : forall data size i blk,
  0 <= data -> 1 <= size -> 0 <= i ->
  data + size + i + Z.of_nat n <= Z.of_nat (length blk) ->
  Z.of_nat (length blk) < 2 ^ 64 ->
  exists blk',
    copyStartToEnd_loop n data size i blk = Some blk' /\
    length blk' = length blk /\
    (forall j, ~ (data + size + i <= j < data + size + i + Z.of_nat n) ->
       load blk' j = load blk j) /\
    (forall j, i <= j < i + Z.of_nat n ->
       load blk' (data + size + j) = load blk' (data + j)).
Proof.
  induction n as [|n IH]; intros data size i blk Hd Hs Hi Hlen Hfit.
  - exists blk. split; [done|]. split; [done|]. split; [done|].
    intros j Hj. lia.
  - cbn [copyStartToEnd_loop].
    destruct (load_Some blk (data + i) ltac:(lia)) as [x Hx].
    rewrite Hx. cbn [mbind option_bind].
    rewrite wrap64_small by lia.
    rewrite store_Some by lia. cbn [mbind option_bind].
    destruct (IH data size (i + 1) (<[Z.to_nat (data + (size + i)) := x]> blk))
      as (blk' & Hloop & Hl' & Hout & Hper);
      [done|done|lia|rewrite length_insert; lia|by rewrite length_insert|].
    exists blk'. split; [done|]. split; [by rewrite Hl', length_insert|].
    split.
    + intros j Hj. rewrite Hout by lia. rewrite load_store by lia.
      by rewrite decide_False by lia.
    + intros j Hj. destruct (decide (j = i)) as [->|Hne].
      * rewrite !Hout by lia. rewrite !load_store by lia.
        rewrite decide_True by lia. by rewrite decide_False by lia.
      * apply Hper. lia.
Qed.

Lemma copyStartToEnd_loop_app n m : forall data size i blk,
  copyStartToEnd_loop (n + m) data size i blk
  = blk' ← copyStartToEnd_loop n data size i blk;
    copyStartToEnd_loop m data size (i + Z.of_nat n) blk'.
Proof.
  induction n as [|n IH]; intros data size i blk.
  - cbn. by rewrite Z.add_0_r.
  - cbn [Nat.add copyStartToEnd_loop].
    destruct (load blk (data + i)) as [x|]; [|done]. cbn [mbind option_bind].
    destruct (store blk (data + wrap64 (size + i)) x) as [blk1|]; [|done].
    cbn [mbind option_bind]. rewrite IH. do 2 f_equal. lia.
Qed.

(** The loop of [copyEndToStartOfBuffer]: every element written is the
    one [size] places behind it in the block at the start. *)
Lemma copyEndToStart_loop_spec n : forall size i blk,
  1 <= size -> 0 <= i ->
  i + size + Z.of_nat n <= Z.of_nat (length blk) ->
  Z.of_nat (length blk) < 2 ^ 64 ->
  exists blk',
    copyEndToStart_loop n size i blk = Some blk' /\
    length blk' = length blk /\
    (forall j, ~ (i <= j < i + Z.of_nat n) -> load blk' j = load blk j) /\
    (forall j, i <= j < i + Z.of_nat n -> load blk' j = load blk (j + size)).
Proof.
  induction n as [|n IH]; intros size i blk Hs Hi Hlen Hfit.
  - exists blk. split; [done|]. split; [done|]. split; [done|].
    intros j Hj. lia.
  - cbn [copyEndToStart_loop].
    rewrite wrap64_small by lia.
    destruct (load_Some blk (i + size) ltac:(lia)) as [x Hx].
    rewrite Hx. cbn [mbind option_bind].
    rewrite store_Some by lia. cbn [mbind option_bind].
    destruct (IH size (i + 1) (<[Z.to_nat i := x]> blk))
      as (blk' & Hloop & Hl' & Hout & Hcp);
      [done|lia|rewrite length_insert; lia|by rewrite length_insert|].
    exists blk'. split; [done|]. split; [by rewrite Hl', length_insert|].
    split.
    + intros j Hj. rewrite Hout by lia. rewrite load_store by lia.
      by rewrite decide_False by lia.
    + intros j Hj. destruct (decide (j = i)) as [->|Hne].
      * rewrite Hout by lia. rewrite load_store by lia.
        by rewrite decide_True.
      * rewrite Hcp by lia. rewrite load_store by lia.
        by rewrite decide_False by lia.
Qed.

Lemma copyEndToStart_loop_app n m : forall size i blk,
  copyEndToStart_loop (n + m) size i blk
  = blk' ← copyEndToStart_loop n size i blk;
    copyEndToStart_loop m size (i + Z.of_nat n) blk'.
Proof.
  induction n as [|n IH]; intros size i blk.
  - cbn. by rewrite Z.add_0_r.
  - cbn [Nat.add copyEndToStart_loop].
    destruct (load blk (wrap64 (i + size))) as [x|]; [|done].
    cbn [mbind option_bind].
    destruct (store blk i x) as [blk1|]; [|done].
    cbn [mbind option_bind]. rewrite IH. do 2 f_equal. lia.
Qed.

Lemma padded_size b k p :
  padded b k p -> getSize b = 2 ^ k /\ 1 <= 2 ^ k.
Proof.
  intros (Hk & Hm & _). pose proof (pow2_pos k ltac:(lia)).
  assert (2 ^ k <= 2 ^ 63) by (apply Z.pow_le_mono_r; lia).
  unfold getSize. rewrite Hm, wrap64_small by lia. lia.
Qed.

End BufferCopy.

(** X8.  [copyStartToEndOfBuffer(count)] stays inside the block exactly when
    [count] is at most the padding.  It then changes only the [count]
    elements behind the data area, and a raw read at [2 ^ k + j] returns
    what the element at [j mod 2 ^ k] held. *)
Theorem copyStartToEnd_spec {T} (b : CyclicBuffer.t (T:=T)) k p count :
  CyclicBuffer.padded b k p -> 2 ^ k + 2 * p < 2 ^ 64 -> 0 <= count ->
  (p < count -> CyclicBuffer.copyStartToEndOfBuffer b count = None) /\
  (count <= p ->
   exists b',
     CyclicBuffer.copyStartToEndOfBuffer b count = Some b' /\
     CyclicBuffer.padded b' k p /\
     CyclicBuffer.getPos b' = CyclicBuffer.getPos b /\
     (forall off, ~ (2 ^ k <= off < 2 ^ k + count) ->
        CyclicBuffer.get_raw b' off = CyclicBuffer.get_raw b off) /\
     (forall j, 0 <= j < count ->
        CyclicBuffer.get_raw b' (2 ^ k + j)
        = CyclicBuffer.get_raw b (j mod 2 ^ k))).
Proof.
  intros Hpad Hfit Hc.
  destruct (padded_size b k p Hpad) as [Hsize Hpow].
  pose proof Hpad as (Hk & Hm & Hpos & Hp & Hd & Hlen).
  unfold CyclicBuffer.copyStartToEndOfBuffer. rewrite Hsize, Hd.
  split.
  - intros Hgt.
    replace (Z.to_nat count) with (Z.to_nat p + S (Z.to_nat (count - p - 1)))%nat
      by lia.
    rewrite copyStartToEnd_loop_app.
    destruct (copyStartToEnd_loop_spec (Z.to_nat p) p (2 ^ k) 0
                (CyclicBuffer.storage_ b))
      as (blk1 & -> & Hl1 & _); [lia..|].
    cbn [mbind option_bind CyclicBuffer.copyStartToEnd_loop].
    destruct (load blk1 (p + (0 + Z.of_nat (Z.to_nat p)))) as [x|]; [|done].
    cbn [mbind option_bind].
    rewrite wrap64_small by lia.
    rewrite store_None; [done|]. rewrite Hl1. lia.
  - intros Hle.
    destruct (copyStartToEnd_loop_spec (Z.to_nat count) p (2 ^ k) 0
                (CyclicBuffer.storage_ b))
      as (blk' & -> & Hl' & Hout & Hper); [lia..|].
    cbn [mbind option_bind]. eexists. split; [done|].
    split.
    { unfold CyclicBuffer.padded.
      cbn [CyclicBuffer.mask_ CyclicBuffer.pos_ CyclicBuffer.data_
           CyclicBuffer.storage_].
      rewrite Hl'. repeat split; (done || lia). }
    split; [done|].
    unfold CyclicBuffer.get_raw.
    cbn [CyclicBuffer.storage_ CyclicBuffer.data_]. rewrite Hd.
    assert (Hsame : forall off, ~ (2 ^ k <= off < 2 ^ k + count) ->
              load blk' (p + off) = load (CyclicBuffer.storage_ b) (p + off))
      by (intros off Hoff; apply Hout; lia).
    split; [exact Hsame|].
    assert (Hall : forall j, 0 <= j -> 0 <= j < count ->
              load blk' (p + (2 ^ k + j))
              = load (CyclicBuffer.storage_ b) (p + j mod 2 ^ k)).
    { intros j Hj0. pattern j. apply Z_lt_induction; [|done].
      clear j Hj0. intros j IHj [Hj0 Hj].
      destruct (decide (j < 2 ^ k)) as [Hlt|Hge].
      + replace (p + (2 ^ k + j)) with (p + 2 ^ k + j) by lia.
        rewrite Hper by lia. rewrite Z.mod_small by lia.
        apply Hsame. lia.
      + replace (p + (2 ^ k + j)) with (p + 2 ^ k + j) by lia.
        rewrite Hper by lia.
        replace (p + j) with (p + (2 ^ k + (j - 2 ^ k))) by lia.
        rewrite IHj by lia. do 2 f_equal.
        replace j with (j - 2 ^ k + 1 * 2 ^ k) at 2 by lia.
        by rewrite Z.mod_add by lia. }
    intros j Hj. apply Hall; lia.
Qed.

Lemma copyStartToEnd_spec_witness :
  CyclicBuffer.padded (CyclicBuffer.mk 0 3 8 [9; 9; 1; 2; 3; 4; 9; 9] 2) 2 2 /\
  2 ^ 2 + 2 * 2 < 2 ^ 64 /\ 0 <= 2 /\
  CyclicBuffer.copyStartToEndOfBuffer
    (CyclicBuffer.mk 0 3 8 [9; 9; 1; 2; 3; 4; 9; 9] 2) 3 = None /\
  exists b',
    CyclicBuffer.copyStartToEndOfBuffer
      (CyclicBuffer.mk 0 3 8 [9; 9; 1; 2; 3; 4; 9; 9] 2) 2 = Some b' /\
    CyclicBuffer.get_raw b' (2 ^ 2 + 1) = Some 2.
Proof.
  assert (Hp : CyclicBuffer.padded
                 (CyclicBuffer.mk 0 3 8 [9; 9; 1; 2; 3; 4; 9; 9] 2) 2 2)
    by (unfold CyclicBuffer.padded; simpl; lia).
  split; [exact Hp|]. split; [lia|]. split; [lia|]. split.
  - apply (proj1 (copyStartToEnd_spec _ 2 2 3 Hp ltac:(lia) ltac:(lia))). lia.
  - destruct (proj2 (copyStartToEnd_spec _ 2 2 2 Hp ltac:(lia) ltac:(lia))
                ltac:(lia)) as (b' & H1 & _ & _ & _ & H2).
    exists b'. split; [exact H1|]. rewrite (H2 1) by lia. reflexivity.
Defined.

(** X9.  [copyEndToStartOfBuffer(count)] stays inside the block exactly when
    [count] is at most twice the padding.  It then copies the [count]
    elements that start [2 ^ k] behind the start of the block to the start
    of the block, so that the padding in front of the data area holds the
    end of the data area, and changes nothing else. *)
Theorem copyEndToStart_spec {T} (b : CyclicBuffer.t (T:=T)) k p count :
  CyclicBuffer.padded b k p -> 2 ^ k + 2 * p < 2 ^ 64 -> 0 <= count ->
  (2 * p < count -> CyclicBuffer.copyEndToStartOfBuffer b count = None) /\
  (count <= 2 * p ->
   exists b',
     CyclicBuffer.copyEndToStartOfBuffer b count = Some b' /\
     CyclicBuffer.padded b' k p /\
     CyclicBuffer.getPos b' = CyclicBuffer.getPos b /\
     (forall off, ~ (- p <= off < count - p) ->
        CyclicBuffer.get_raw b' off = CyclicBuffer.get_raw b off) /\
     (forall off, - p <= off < count - p ->
        CyclicBuffer.get_raw b' off = CyclicBuffer.get_raw b (off + 2 ^ k))).
Proof.
  intros Hpad Hfit Hc.
  destruct (padded_size b k p Hpad) as [Hsize Hpow].
  pose proof Hpad as (Hk & Hm & Hpos & Hp & Hd & Hlen).
  unfold CyclicBuffer.copyEndToStartOfBuffer. rewrite Hsize.
  split.
  - intros Hgt.
    replace (Z.to_nat count)
      with (Z.to_nat (2 * p) + S (Z.to_nat (count - 2 * p - 1)))%nat by lia.
    rewrite copyEndToStart_loop_app.
    destruct (copyEndToStart_loop_spec (Z.to_nat (2 * p)) (2 ^ k) 0
                (CyclicBuffer.storage_ b))
      as (blk1 & -> & Hl1 & _); [lia..|].
    cbn [mbind option_bind CyclicBuffer.copyEndToStart_loop].
    rewrite wrap64_small by lia.
    rewrite load_None; [done|]. rewrite Hl1. lia.
  - intros Hle.
    destruct (copyEndToStart_loop_spec (Z.to_nat count) (2 ^ k) 0
                (CyclicBuffer.storage_ b))
      as (blk' & -> & Hl' & Hout & Hcp); [lia..|].
    cbn [mbind option_bind]. eexists. split; [done|].
    split.
    { unfold CyclicBuffer.padded.
      cbn [CyclicBuffer.mask_ CyclicBuffer.pos_ CyclicBuffer.data_
           CyclicBuffer.storage_].
      rewrite Hl'. repeat split; (done || lia). }
    split; [done|].
    unfold CyclicBuffer.get_raw.
    cbn [CyclicBuffer.storage_ CyclicBuffer.data_]. rewrite Hd.
    split.
    + intros off Hoff. apply Hout. lia.
    + intros off Hoff. rewrite Hcp by lia. f_equal. lia.
Qed.

Lemma copyEndToStart_spec_witness :
  CyclicBuffer.padded (CyclicBuffer.mk 0 3 8 [9; 9; 1; 2; 3; 4; 9; 9] 2) 2 2 /\
  2 ^ 2 + 2 * 2 < 2 ^ 64 /\ 0 <= 2 /\
  CyclicBuffer.copyEndToStartOfBuffer
    (CyclicBuffer.mk 0 3 8 [9; 9; 1; 2; 3; 4; 9; 9] 2) 5 = None /\
  exists b',
    CyclicBuffer.copyEndToStartOfBuffer
      (CyclicBuffer.mk 0 3 8 [9; 9; 1; 2; 3; 4; 9; 9] 2) 2 = Some b' /\
    CyclicBuffer.get_raw b' (- 1) = Some 4.
Proof.
  assert (Hp : CyclicBuffer.padded
                 (CyclicBuffer.mk 0 3 8 [9; 9; 1; 2; 3; 4; 9; 9] 2) 2 2)
    by (unfold CyclicBuffer.padded; simpl; lia).
  split; [exact Hp|]. split; [lia|]. split; [lia|]. split.
  - apply (proj1 (copyEndToStart_spec _ 2 2 5 Hp ltac:(lia) ltac:(lia))). lia.
  - destruct (proj2 (copyEndToStart_spec _ 2 2 2 Hp ltac:(lia) ltac:(lia))
                ltac:(lia)) as (b' & H1 & _ & _ & _ & H2).
    exists b'. split; [exact H1|]. rewrite (H2 (- 1)) by lia. reflexivity.
Defined.

(** ** CyclicDeque *)

Section DequeProps.

Context {T : Type}.
Implicit Types (d : CyclicDeque.t (T:=T)) (l : list T).

Import CyclicDeque.

Lemma deque_capacity d k : inv d k -> capacity d = 2 ^ k /\ 1 <= 2 ^ k < 2 ^ 64.
Proof.
  intros ((Hk & Hm & _) & _). pose proof (pow2_pos k ltac:(lia)).
  assert (2 ^ k <= 2 ^ 63) by (apply Z.pow_le_mono_r; lia).
  unfold capacity. rewrite Hm, wrap64_small by lia. lia.
Qed.

(** [operator[]] reads the slot [(front_pos_ + offset) mod 2 ^ k]. *)
Lemma deque_get_raw d k off :
  inv d k ->
  get d off = CyclicBuffer.get_raw (buf d) ((front_pos_ d + off) mod 2 ^ k).
Proof.
  intros ((Hk & Hm & _) & _). unfold get, CyclicBuffer.get_raw.
  by rewrite Hm, land_mask, wrap64_mod_pow2 by lia.
Qed.

Lemma push_back_ok d k l v :
  inv d k -> holds d l -> size_ d < 2 ^ k ->
  exists b',
    CyclicBuffer.push (buf d) v = Some b' /\
    push_back d v = Some (mk b' (size_ d + 1) (front_pos_ d)) /\
    inv (mk b' (size_ d + 1) (front_pos_ d)) k /\
    holds (mk b' (size_ d + 1) (front_pos_ d)) (l ++ [v]).
Proof.
  intros Hinv [Hlen Hget] Hlt.
  destruct (deque_capacity d k Hinv) as [Hcap Hpow].
  pose proof Hinv as (Hwf & Hsz & Hfp & Hpos).
  pose proof Hwf as (Hk & Hm & Hp & Hd & Hst).
  pose proof (push_storage (buf d) k v Hwf) as Hpush.
  eexists. split; [exact Hpush|].
  assert (Hwf' : CyclicBuffer.wf
            (CyclicBuffer.mk (wrap64 (CyclicBuffer.pos_ (buf d) + 1))
               (CyclicBuffer.mask_ (buf d)) (CyclicBuffer.alloc_size_ (buf d))
               (<[Z.to_nat (CyclicBuffer.data_ (buf d)
                            + CyclicBuffer.pos_ (buf d) mod 2 ^ k) := v]>
                  (CyclicBuffer.storage_ (buf d)))
               (CyclicBuffer.data_ (buf d))) k)
    by (eapply push_wf; [exact Hwf|exact Hpush]).
  assert (Hinv' : inv (mk (CyclicBuffer.mk
               (wrap64 (CyclicBuffer.pos_ (buf d) + 1))
               (CyclicBuffer.mask_ (buf d)) (CyclicBuffer.alloc_size_ (buf d))
               (<[Z.to_nat (CyclicBuffer.data_ (buf d)
                            + CyclicBuffer.pos_ (buf d) mod 2 ^ k) := v]>
                  (CyclicBuffer.storage_ (buf d)))
               (CyclicBuffer.data_ (buf d))) (size_ d + 1) (front_pos_ d)) k).
  { split; [exact Hwf'|]. cbn [buf size_ front_pos_ CyclicBuffer.pos_].
    split; [lia|]. split; [done|].
    rewrite Hpos, wrap64_add_l. f_equal. lia. }
  split.
  { unfold push_back. rewrite Hcap, decide_True by lia. rewrite Hpush.
    cbn [mbind option_bind]. by rewrite (wrap64_small (size_ d + 1)) by lia. }
  split; [exact Hinv'|].
  split.
  { cbn [size_]. rewrite length_app. cbn [length]. lia. }
  intros i x Hi.
  rewrite (deque_get_raw _ k _ Hinv'). cbn [buf front_pos_].
  rewrite get_raw_push by done.
  assert (Hpm : CyclicBuffer.pos_ (buf d) mod 2 ^ k
                = (front_pos_ d + size_ d) mod 2 ^ k)
    by (rewrite Hpos; apply wrap64_mod_pow2; lia).
  rewrite Hpm.
  destruct (decide (i < length l)%nat) as [Hil|Hil].
  - rewrite lookup_app_l in Hi by done.
    rewrite decide_False.
    + rewrite <- (deque_get_raw _ k _ Hinv). by apply Hget.
    + replace (front_pos_ d + Z.of_nat i)
        with (front_pos_ d + size_ d - (size_ d - Z.of_nat i)) by lia.
      apply mod_neq_shift. lia.
  - rewrite lookup_app_r in Hi by lia.
    apply list_lookup_singleton_Some in Hi as [Hi0 <-].
    rewrite decide_True; [done|]. f_equal. lia.
Qed.

(** [push] of the elements of [l'] one after the other. *)
Lemma deque_push_all_ok l' : forall d k l,
  inv d k -> holds d l -> size_ d + Z.of_nat (length l') <= 2 ^ k ->
  exists b',
    CyclicBuffer.push_all (buf d) l' = Some b' /\
    inv (mk b' (size_ d + Z.of_nat (length l')) (front_pos_ d)) k /\
    holds (mk b' (size_ d + Z.of_nat (length l')) (front_pos_ d)) (l ++ l').
Proof.
  induction l' as [|x l' IH]; intros d k l Hinv Hholds Hfit.
  - exists (buf d). split; [done|]. cbn [length]. rewrite Z.add_0_r, app_nil_r.
    by destruct d.
  - cbn [length] in Hfit.
    destruct (push_back_ok d k l x Hinv Hholds ltac:(lia))
      as (b1 & Hpush & _ & Hinv1 & Hholds1).
    destruct (IH _ k _ Hinv1 Hholds1) as (b' & Hall & Hinv' & Hholds').
    { cbn [size_]. lia. }
    cbn [buf size_ front_pos_] in *.
    exists b'. split.
    { cbn [CyclicBuffer.push_all]. rewrite Hpush. exact Hall. }
    replace (size_ d + Z.of_nat (length (x :: l')))
      with (size_ d + 1 + Z.of_nat (length l')) by (cbn [length]; lia).
    rewrite (cons_middle x l l'), app_assoc. done.
Qed.

End DequeProps.

(** X10.  A deque newly constructed and resized to [2 ^ k] is empty, and the
    deque invariant holds. *)
Theorem deque_fresh {T} (zero : T) k p :
  0 <= k < 64 -> 0 <= p -> 2 ^ k + p * 2 < 2 ^ 64 ->
  exists d,
    CyclicDeque.resize zero CyclicDeque.new (2 ^ k) p = Some d /\
    CyclicDeque.inv d k /\ CyclicDeque.holds d [] /\
    CyclicDeque.size d = 0 /\ CyclicDeque.capacity d = 2 ^ k /\
    CyclicDeque.empty d = true /\ CyclicDeque.full d = false.
Proof.
  intros Hk Hp Hfit. pose proof (pow2_pos k ltac:(lia)) as Hpow.
  unfold CyclicDeque.resize. cbn [CyclicDeque.buf CyclicDeque.new].
  rewrite (resize_pow2 zero _ k p) by done. cbn [mbind option_bind].
  exists (CyclicDeque.mk
            (CyclicBuffer.mk 0 (2 ^ k - 1) (2 ^ k + p * 2)
               (replicate (Z.to_nat (2 ^ k + p * 2)) zero) p) 0 0).
  split; [done|].
  assert (Hinv : CyclicDeque.inv
            (CyclicDeque.mk
               (CyclicBuffer.mk 0 (2 ^ k - 1) (2 ^ k + p * 2)
                  (replicate (Z.to_nat (2 ^ k + p * 2)) zero) p) 0 0) k).
  { unfold CyclicDeque.inv, CyclicBuffer.wf.
    cbn [CyclicDeque.buf CyclicDeque.size_ CyclicDeque.front_pos_
         CyclicBuffer.mask_ CyclicBuffer.pos_ CyclicBuffer.data_
         CyclicBuffer.storage_].
    rewrite length_replicate. repeat split; try lia. }
  destruct (deque_capacity _ k Hinv) as [Hcap _].
  split; [exact Hinv|]. split; [by split|]. split; [done|].
  split; [exact Hcap|]. split; [done|].
  unfold CyclicDeque.full. rewrite Hcap. apply bool_decide_eq_false.
  cbn [CyclicDeque.size CyclicDeque.size_]. lia.
Qed.

Lemma deque_fresh_witness :
  0 <= 2 < 64 /\ 0 <= 1 /\ 2 ^ 2 + 1 * 2 < 2 ^ 64 /\
  exists d,
    CyclicDeque.resize 0 CyclicDeque.new (2 ^ 2) 1 = Some d /\
    CyclicDeque.empty d = true /\ CyclicDeque.capacity d = 2 ^ 2.
Proof.
  split; [lia|]. split; [lia|]. split; [lia|].
  destruct (deque_fresh 0 2 1) as (d & H1 & _ & _ & _ & H2 & H3 & _);
    [lia|lia|lia|].
  exists d. split; [exact H1|]. split; [exact H3|exact H2].
Defined.

(** X11.  [push_back] on a deque that is not full appends the element to what
    the deque holds; on a full deque its assertion fails. *)
Theorem deque_push_back {T} (d : CyclicDeque.t (T:=T)) k l v :
  CyclicDeque.inv d k -> CyclicDeque.holds d l ->
  (CyclicDeque.size d = 2 ^ k ->
   CyclicDeque.full d = true /\ CyclicDeque.push_back d v = None) /\
  (CyclicDeque.size d < 2 ^ k ->
   CyclicDeque.full d = false /\
   exists d',
     CyclicDeque.push_back d v = Some d' /\
     CyclicDeque.inv d' k /\ CyclicDeque.holds d' (l ++ [v]) /\
     CyclicDeque.size d' = CyclicDeque.size d + 1).
Proof.
  intros Hinv Hholds. destruct (deque_capacity d k Hinv) as [Hcap Hpow].
  unfold CyclicDeque.full, CyclicDeque.size. rewrite Hcap. split.
  - intros Hfull. split; [by apply bool_decide_eq_true|].
    unfold CyclicDeque.push_back. by rewrite Hcap, decide_False by lia.
  - intros Hlt. split; [apply bool_decide_eq_false; lia|].
    destruct (push_back_ok d k l v Hinv Hholds Hlt)
      as (b' & _ & Hpush & Hinv' & Hholds').
    eexists. split; [exact Hpush|]. split; [exact Hinv'|].
    split; [exact Hholds'|done].
Qed.

(** A deque of capacity 4 that holds 7 and 8. *)
Lemma deque_example :
  CyclicDeque.inv
    (CyclicDeque.mk (CyclicBuffer.mk 2 3 6 [0; 7; 8; 0; 0; 0] 1) 2 0) 2 /\
  CyclicDeque.holds
    (CyclicDeque.mk (CyclicBuffer.mk 2 3 6 [0; 7; 8; 0; 0; 0] 1) 2 0) [7; 8].
Proof.
  split.
  - unfold CyclicDeque.inv, CyclicBuffer.wf.
    cbn [CyclicDeque.buf CyclicDeque.size_ CyclicDeque.front_pos_
         CyclicBuffer.mask_ CyclicBuffer.pos_ CyclicBuffer.data_
         CyclicBuffer.storage_ length].
    change (wrap64 (0 + 2)) with 2. lia.
  - split; [reflexivity|]. intros i x Hi.
    destruct i as [|[|i]]; simpl in Hi; [| |discriminate Hi];
      injection Hi as <-; reflexivity.
Defined.

Lemma deque_push_back_witness :
  CyclicDeque.inv
    (CyclicDeque.mk (CyclicBuffer.mk 2 3 6 [0; 7; 8; 0; 0; 0] 1) 2 0) 2 /\
  CyclicDeque.holds
    (CyclicDeque.mk (CyclicBuffer.mk 2 3 6 [0; 7; 8; 0; 0; 0] 1) 2 0) [7; 8] /\
  exists d',
    CyclicDeque.push_back
      (CyclicDeque.mk (CyclicBuffer.mk 2 3 6 [0; 7; 8; 0; 0; 0] 1) 2 0) 9
    = Some d' /\
    CyclicDeque.holds d' ([7; 8] ++ [9]).
Proof.
  split; [exact (proj1 deque_example)|].
  split; [exact (proj2 deque_example)|].
  destruct (proj2 (deque_push_back _ 2 [7; 8] 9 (proj1 deque_example)
                     (proj2 deque_example)))
    as (_ & d' & H1 & _ & H2 & _).
  - simpl. lia.
  - exists d'. split; [exact H1|exact H2].
Defined.

(** X12.  [pop_front(count)] removes the [count] oldest elements; its check
    fails when the deque holds fewer. *)
Theorem deque_pop_front {T} (d : CyclicDeque.t (T:=T)) k l count :
  CyclicDeque.inv d k -> CyclicDeque.holds d l -> 0 <= count ->
  (CyclicDeque.size d < count -> CyclicDeque.pop_front d count = None) /\
  (count <= CyclicDeque.size d ->
   exists d',
     CyclicDeque.pop_front d count = Some d' /\
     CyclicDeque.inv d' k /\
     CyclicDeque.holds d' (drop (Z.to_nat count) l) /\
     CyclicDeque.size d' = CyclicDeque.size d - count).
Proof.
  intros Hinv [Hlen Hget] Hc.
  destruct (deque_capacity d k Hinv) as [Hcap Hpow].
  pose proof Hinv as (Hwf & Hsz & Hfp & Hpos).
  pose proof Hwf as (Hk & Hm & _).
  unfold CyclicDeque.pop_front, CyclicDeque.size. split.
  - intros Hgt. by rewrite decide_False by lia.
  - intros Hle. rewrite decide_True by lia.
    rewrite (wrap64_small (CyclicDeque.size_ d - count)) by lia.
    eexists. split; [done|].
    assert (Hinv' : CyclicDeque.inv
              (CyclicDeque.mk (CyclicDeque.buf d)
                 (CyclicDeque.size_ d - count)
                 (wrap64 (CyclicDeque.front_pos_ d + count))) k).
    { split; [exact Hwf|].
      cbn [CyclicDeque.buf CyclicDeque.size_ CyclicDeque.front_pos_].
      split; [lia|]. split.
      - unfold wrap64. apply Z.mod_pos_bound. lia.
      - rewrite Hpos, wrap64_add_l. f_equal. lia. }
    split; [exact Hinv'|]. split; [|done].
    split.
    + cbn [CyclicDeque.size_]. rewrite length_drop. lia.
    + intros i x Hi. rewrite lookup_drop in Hi.
      apply Hget in Hi.
      rewrite (deque_get_raw _ k _ Hinv) in Hi.
      rewrite (deque_get_raw _ k _ Hinv').
      cbn [CyclicDeque.buf CyclicDeque.front_pos_].
      rewrite <- Hi. f_equal.
      rewrite Zplus_mod, wrap64_mod_pow2, <- Zplus_mod by lia.
      f_equal. lia.
Qed.

Lemma deque_pop_front_witness :
  CyclicDeque.inv
    (CyclicDeque.mk (CyclicBuffer.mk 2 3 6 [0; 7; 8; 0; 0; 0] 1) 2 0) 2 /\
  CyclicDeque.holds
    (CyclicDeque.mk (CyclicBuffer.mk 2 3 6 [0; 7; 8; 0; 0; 0] 1) 2 0) [7; 8] /\
  0 <= 1 /\
  exists d',
    CyclicDeque.pop_front
      (CyclicDeque.mk (CyclicBuffer.mk 2 3 6 [0; 7; 8; 0; 0; 0] 1) 2 0) 1
    = Some d' /\
    CyclicDeque.holds d' (drop (Z.to_nat 1) [7; 8]).
Proof.
  split; [exact (proj1 deque_example)|].
  split; [exact (proj2 deque_example)|]. split; [lia|].
  destruct (proj2 (deque_pop_front _ 2 [7; 8] 1 (proj1 deque_example)
                     (proj2 deque_example) ltac:(lia)))
    as (d' & H1 & _ & H2 & _).
  - simpl. lia.
  - exists d'. split; [exact H1|exact H2].
Defined.

(** X13.  [front] and [operator[]] are not checked: on a deque in use they
    read a slot of the data area whatever the offset and the size, and
    [front] is the oldest element when there is one. *)
Theorem deque_front {T} (d : CyclicDeque.t (T:=T)) k l off :
  CyclicDeque.inv d k -> CyclicDeque.holds d l ->
  CyclicDeque.front d = CyclicDeque.get d 0 /\
  (forall x, head l = Some x -> CyclicDeque.front d = Some x) /\
  (exists y, CyclicDeque.front d = Some y) /\
  (exists y, CyclicDeque.get d off = Some y).
Proof.
  intros Hinv [Hlen Hget].
  pose proof Hinv as (Hwf & Hsz & Hfp & Hpos).
  pose proof Hwf as (Hk & Hm & Hp & Hd & Hst).
  assert (Hf : CyclicDeque.front d = CyclicDeque.get d 0).
  { unfold CyclicDeque.front, CyclicDeque.get.
    by rewrite Z.add_0_r, wrap64_small by lia. }
  assert (Hin : forall o, exists y, CyclicDeque.get d o = Some y).
  { intros o. rewrite (deque_get_raw d k o Hinv).
    pose proof (mod_pow2_range k (CyclicDeque.front_pos_ d + o) ltac:(lia)).
    apply load_Some. lia. }
  split; [exact Hf|]. split; [|split].
  - intros x Hx. rewrite Hf. destruct l as [|x' l']; [done|].
    injection Hx as ->. by apply (Hget 0%nat).
  - rewrite Hf. apply Hin.
  - apply Hin.
Qed.

Lemma deque_front_witness :
  CyclicDeque.inv
    (CyclicDeque.mk (CyclicBuffer.mk 2 3 6 [0; 7; 8; 0; 0; 0] 1) 2 0) 2 /\
  CyclicDeque.holds
    (CyclicDeque.mk (CyclicBuffer.mk 2 3 6 [0; 7; 8; 0; 0; 0] 1) 2 0) [7; 8] /\
  CyclicDeque.front
    (CyclicDeque.mk (CyclicBuffer.mk 2 3 6 [0; 7; 8; 0; 0; 0] 1) 2 0) = Some 7.
Proof.
  split; [exact (proj1 deque_example)|].
  split; [exact (proj2 deque_example)|].
  destruct (deque_front _ 2 [7; 8] 0 (proj1 deque_example)
              (proj2 deque_example)) as (_ & H & _).
  apply H. reflexivity.
Defined.

(** [std::copy_n] of more elements than the source block has reads past
    the block. *)
Lemma copy_n_short {T} n : forall (src blk : list T) off,
  (length src < n)%nat -> CyclicBuffer.copy_n src n blk off = None.
Proof.
  induction n as [|n IH]; intros src blk off Hlen; [lia|].
  destruct src as [|x src]; [done|]. cbn [length] in Hlen.
  cbn [CyclicBuffer.copy_n].
  destruct (store blk off x) as [blk'|]; [|done].
  cbn [mbind option_bind]. apply IH. lia.
Qed.

(** The same for the two spans of the buffer's [push_n]. *)
Lemma push_n_short {T} (b : CyclicBuffer.t (T:=T)) k src count :
  CyclicBuffer.wf b k -> 0 <= count < 2 ^ 64 ->
  Z.of_nat (length src) < count ->
  CyclicBuffer.push_n b src count = None.
Proof.
  intros Hwf Hc Hsrc. destruct (wf_mask_pos b k Hwf) as [Hr _].
  destruct Hwf as (Hk & Hm & Hpos & Hd & Hlen).
  pose proof (pow2_le_64 k Hk) as H64.
  unfold CyclicBuffer.push_n.
  set (mp := Z.land (CyclicBuffer.pos_ b) (CyclicBuffer.mask_ b)) in *.
  rewrite Hm. rewrite (wrap64_small (1 + _ - mp)) by lia.
  replace (1 + (2 ^ k - 1) - mp) with (2 ^ k - mp) by lia.
  set (cur := Z.min (2 ^ k - mp) count).
  assert (0 <= cur <= count) by lia.
  destruct (CyclicBuffer.copy_n src (Z.to_nat cur) _ _) as [st|] eqn:Hc1;
    [|done].
  cbn [mbind option_bind].
  rewrite (wrap64_small (count - cur)) by lia.
  destruct (decide (Z.of_nat (length src) < cur)) as [Hlt|Hge].
  { rewrite copy_n_short in Hc1 by lia. done. }
  rewrite decide_True by lia.
  rewrite copy_n_short by (rewrite length_drop; lia). done.
Qed.

(** X14.  The assertion of [push_n] compares the sum [size_ + count], taken
    in 64 bits, with the capacity.  When the sum exceeds the capacity and
    stays below [2 ^ 64] the assertion fails.  When the sum is within the
    capacity, the first [count] elements of the block are appended.  When
    the sum reaches [2 ^ 64] it wraps: the assertion passes although the
    elements do not fit, the buffer's [push_n] runs, and the size it
    would leave is below the size before.  A block of fewer than [count]
    elements is read past its end. *)
Theorem deque_push_n {T} (d : CyclicDeque.t (T:=T)) k l elements count :
  CyclicDeque.inv d k -> CyclicDeque.holds d l -> 0 <= count < 2 ^ 64 ->
  (2 ^ k < CyclicDeque.size d + count < 2 ^ 64 ->
   CyclicDeque.push_n d elements count = None) /\
  (CyclicDeque.size d + count <= 2 ^ k ->
   count <= Z.of_nat (length elements) ->
   exists d',
     CyclicDeque.push_n d elements count = Some d' /\
     CyclicDeque.inv d' k /\
     CyclicDeque.holds d' (l ++ take (Z.to_nat count) elements) /\
     CyclicDeque.size d' = CyclicDeque.size d + count) /\
  (2 ^ 64 <= CyclicDeque.size d + count ->
   CyclicDeque.push_n d elements count
   = (b ← CyclicBuffer.push_n (CyclicDeque.buf d) elements count;
      Some (CyclicDeque.mk b (CyclicDeque.size d + count - 2 ^ 64)
              (CyclicDeque.front_pos_ d))) /\
   0 <= CyclicDeque.size d + count - 2 ^ 64 < CyclicDeque.size d) /\
  (Z.of_nat (length elements) < count ->
   CyclicDeque.push_n d elements count = None).
Proof.
  intros Hinv Hholds Hc.
  destruct (deque_capacity d k Hinv) as [Hcap Hpow].
  pose proof Hinv as (Hwf & Hsz & Hfp & Hpos).
  pose proof Hwf as (Hk & Hm & _).
  assert (2 ^ k <= 2 ^ 63) by (apply Z.pow_le_mono_r; lia).
  unfold CyclicDeque.push_n, CyclicDeque.size. rewrite Hcap.
  split; [|split; [|split]].
  - intros Hgt.
    rewrite (wrap64_small (CyclicDeque.size_ d + count)) by lia.
    by rewrite decide_False by lia.
  - intros Hle Hel.
    rewrite (wrap64_small (CyclicDeque.size_ d + count)) by lia.
    rewrite decide_True by lia.
    assert (Hpn : CyclicBuffer.push_n (CyclicDeque.buf d) elements count
                  = CyclicBuffer.push_all (CyclicDeque.buf d)
                      (take (Z.to_nat count) elements)).
    { rewrite <- (push_n_push_all (Z.to_nat count) _ k) by (done || lia).
      by rewrite Z2Nat.id by lia. }
    rewrite Hpn.
    destruct (deque_push_all_ok (take (Z.to_nat count) elements) d k l
                Hinv Hholds) as (b' & Hall & Hinv' & Hholds').
    { rewrite length_take. lia. }
    rewrite Hall. cbn [mbind option_bind].
    rewrite length_take in Hinv', Hholds'.
    replace (Z.of_nat (Z.to_nat count `min` length elements)) with count
      in Hinv', Hholds' by lia.
    eexists. split; [done|]. split; [exact Hinv'|].
    split; [exact Hholds'|done].
  - intros Hwrap.
    assert (Hw : wrap64 (CyclicDeque.size_ d + count)
                 = CyclicDeque.size_ d + count - 2 ^ 64).
    { unfold wrap64.
      rewrite <- (Z_mod_plus_full (CyclicDeque.size_ d + count) (-1)).
      rewrite Z.mod_small; lia. }
    rewrite Hw. rewrite decide_True by lia. split; [done|lia].
  - intros Hshort. case_decide; [|done].
    by rewrite (push_n_short _ k) by done.
Qed.

Lemma deque_push_n_witness :
  CyclicDeque.inv
    (CyclicDeque.mk (CyclicBuffer.mk 2 3 6 [0; 7; 8; 0; 0; 0] 1) 2 0) 2 /\
  CyclicDeque.holds
    (CyclicDeque.mk (CyclicBuffer.mk 2 3 6 [0; 7; 8; 0; 0; 0] 1) 2 0) [7; 8] /\
  0 <= 2 ^ 64 - 1 < 2 ^ 64 /\
  CyclicDeque.push_n
    (CyclicDeque.mk (CyclicBuffer.mk 2 3 6 [0; 7; 8; 0; 0; 0] 1) 2 0)
    [5; 6; 4] 3 = None /\
  (exists d',
    CyclicDeque.push_n
      (CyclicDeque.mk (CyclicBuffer.mk 2 3 6 [0; 7; 8; 0; 0; 0] 1) 2 0)
      [5; 6; 4] 2 = Some d' /\
    CyclicDeque.holds d' ([7; 8] ++ take (Z.to_nat 2) [5; 6; 4])) /\
  CyclicDeque.push_n
    (CyclicDeque.mk (CyclicBuffer.mk 2 3 6 [0; 7; 8; 0; 0; 0] 1) 2 0)
    [5; 6; 4] (2 ^ 64 - 1)
  = (b ← CyclicBuffer.push_n (CyclicBuffer.mk 2 3 6 [0; 7; 8; 0; 0; 0] 1)
           [5; 6; 4] (2 ^ 64 - 1);
     Some (CyclicDeque.mk b 1 0)) /\
  CyclicDeque.push_n
    (CyclicDeque.mk (CyclicBuffer.mk 2 3 6 [0; 7; 8; 0; 0; 0] 1) 2 0)
    [5; 6; 4] (2 ^ 64 - 1) = None.
Proof.
  split; [exact (proj1 deque_example)|].
  split; [exact (proj2 deque_example)|].
  split; [lia|]. split; [|split; [|split]].
  - apply (proj1 (deque_push_n _ 2 [7; 8] [5; 6; 4] 3 (proj1 deque_example)
                    (proj2 deque_example) ltac:(lia))).
    cbn [CyclicDeque.size CyclicDeque.size_]. lia.
  - destruct (deque_push_n _ 2 [7; 8] [5; 6; 4] 2
                (proj1 deque_example) (proj2 deque_example) ltac:(lia))
      as (_ & H & _).
    destruct H as (d' & H1 & _ & H2 & _).
    + cbn [CyclicDeque.size CyclicDeque.size_]. lia.
    + cbn [length]. lia.
    + exists d'. split; [exact H1|exact H2].
  - destruct (deque_push_n _ 2 [7; 8] [5; 6; 4] (2 ^ 64 - 1)
                (proj1 deque_example) (proj2 deque_example) ltac:(lia))
      as (_ & _ & H & _).
    destruct H as [H _].
    + cbn [CyclicDeque.size CyclicDeque.size_]. lia.
    + exact H.
  - destruct (deque_push_n _ 2 [7; 8] [5; 6; 4] (2 ^ 64 - 1)
                (proj1 deque_example) (proj2 deque_example) ltac:(lia))
      as (_ & _ & _ & H).
    apply H. cbn [length]. lia.
Defined.

(** X15.  The inherited [resize] restarts the buffer but not the deque: the
    size and the front position stay, and every element reads as the
    value-initialised one. *)
Theorem deque_resize_keeps {T} (zero : T) (d : CyclicDeque.t (T:=T)) k p off :
  0 <= k < 64 -> 0 <= p -> 2 ^ k + p * 2 < 2 ^ 64 ->
  exists d',
    CyclicDeque.resize zero d (2 ^ k) p = Some d' /\
    CyclicDeque.size d' = CyclicDeque.size d /\
    CyclicDeque.front_pos_ d' = CyclicDeque.front_pos_ d /\
    CyclicBuffer.getPos (CyclicDeque.buf d') = 0 /\
    CyclicDeque.capacity d' = 2 ^ k /\
    CyclicDeque.get d' off = Some zero.
Proof.
  intros Hk Hp Hfit. pose proof (pow2_pos k ltac:(lia)) as Hpow.
  assert (2 ^ k <= 2 ^ 63) by (apply Z.pow_le_mono_r; lia).
  unfold CyclicDeque.resize.
  rewrite (resize_pow2 zero _ k p) by done. cbn [mbind option_bind].
  eexists. split; [done|]. split; [done|]. split; [done|]. split; [done|].
  split.
  - unfold CyclicDeque.capacity. cbn [CyclicDeque.buf CyclicBuffer.mask_].
    rewrite wrap64_small by lia. lia.
  - unfold CyclicDeque.get, load.
    cbn [CyclicDeque.buf CyclicDeque.front_pos_ CyclicBuffer.mask_
         CyclicBuffer.data_ CyclicBuffer.storage_].
    rewrite land_mask by lia.
    pose proof (mod_pow2_range k
                  (wrap64 (CyclicDeque.front_pos_ d + off)) ltac:(lia)).
    rewrite decide_True by lia. apply lookup_replicate_2. lia.
Qed.

Lemma deque_resize_keeps_witness :
  0 <= 3 < 64 /\ 0 <= 1 /\ 2 ^ 3 + 1 * 2 < 2 ^ 64 /\
  exists d',
    CyclicDeque.resize 0
      (CyclicDeque.mk (CyclicBuffer.mk 2 3 6 [0; 7; 8; 0; 0; 0] 1) 2 0)
      (2 ^ 3) 1 = Some d' /\
    CyclicDeque.size d' = 2 /\ CyclicDeque.get d' 0 = Some 0.
Proof.
  split; [lia|]. split; [lia|]. split; [lia|].
  destruct (deque_resize_keeps 0
              (CyclicDeque.mk (CyclicBuffer.mk 2 3 6 [0; 7; 8; 0; 0; 0] 1) 2 0)
              3 1 0) as (d' & H1 & H2 & _ & _ & _ & H3); [lia|lia|lia|].
  exists d'. split; [exact H1|]. split; [exact H2|exact H3].
Defined.

(** ** Wav16: the mixers *)

Lemma to_int_signed x : - 2 ^ 31 <= x < 2 ^ 31 -> to_int x = x.
Proof.
  intros Hx. unfold to_int, wrap32.
  destruct (decide (0 <= x)) as [Hpos|Hneg].
  - rewrite Z.mod_small by lia. by rewrite decide_True by lia.
  - replace (x mod 2 ^ 32) with (x + 2 ^ 32).
    + rewrite decide_False by lia. lia.
    + symmetry. rewrite <- (Z.mod_add x 1) by lia.
      apply Z.mod_small. lia.
Qed.

Lemma to_int_congr x y : x mod 2 ^ 32 = y mod 2 ^ 32 -> to_int x = to_int y.
Proof. intros Hxy. unfold to_int, wrap32. by rewrite Hxy. Qed.

Lemma to_int_range x : - 2 ^ 31 <= to_int x < 2 ^ 31.
Proof.
  unfold to_int, wrap32. pose proof (Z.mod_pos_bound x (2 ^ 32) ltac:(lia)).
  destruct (decide (x mod 2 ^ 32 < 2 ^ 31)); lia.
Qed.

Lemma add_int64_ok sum x :
  - 2 ^ 63 <= sum + x < 2 ^ 63 ->
  Wav16.LinearMixer.add_int64 sum x = Some (sum + x).
Proof. intros. unfold Wav16.LinearMixer.add_int64. by rewrite decide_True. Qed.

Lemma mul_int32_bound s w :
  - 2 ^ 31 <= s < 2 ^ 31 -> - 2 ^ 30 < w < 2 ^ 30 ->
  - 2 ^ 61 < s * w < 2 ^ 61.
Proof. intros. nia. Qed.

(** The unsigned shift of [update] agrees with the arithmetic one in
    the low 32 bits, for shifts up to 32. *)
Lemma delta_mod s lr :
  - 2 ^ 63 <= s < 2 ^ 63 -> 0 <= lr <= 32 ->
  Z.shiftr (wrap64 (s + 0)) lr mod 2 ^ 32 = (s / 2 ^ lr) mod 2 ^ 32.
Proof.
  intros Hs Hlr. rewrite Z.add_0_r, Z.shiftr_div_pow2 by lia.
  unfold wrap64. destruct (decide (0 <= s)) as [Hpos|Hneg].
  - by rewrite (Z.mod_small s) by lia.
  - replace (s mod 2 ^ 64) with (s + 2 ^ 64)
      by (symmetry; rewrite <- (Z.mod_add s 1) by lia; apply Z.mod_small; lia).
    assert (Hp : 0 < 2 ^ lr) by (apply pow2_pos; lia).
    replace (2 ^ 64) with (2 ^ (64 - lr) * 2 ^ lr)
      by (rewrite <- Z.pow_add_r by lia; f_equal; lia).
    rewrite Z.div_add by lia.
    replace (2 ^ (64 - lr)) with (2 ^ (32 - lr) * 2 ^ 32)
      by (rewrite <- Z.pow_add_r by lia; f_equal; lia).
    by rewrite Z.mod_add by lia.
Qed.

Lemma weight_plus w s lr :
  - 2 ^ 63 <= s < 2 ^ 63 -> 0 <= lr <= 32 ->
  to_int (wrap64 (wrap64 w + Z.shiftr (wrap64 (s + 0)) lr))
  = to_int (w + s / 2 ^ lr).
Proof.
  intros Hs Hlr. apply to_int_congr.
  rewrite (wrap64_mod_pow2 _ 32) by lia.
  rewrite Zplus_mod, (wrap64_mod_pow2 _ 32), delta_mod by lia.
  by rewrite <- Zplus_mod.
Qed.

Lemma weight_minus w s lr :
  - 2 ^ 63 <= s < 2 ^ 63 -> 0 <= lr <= 32 ->
  to_int (wrap64 (wrap64 w - Z.shiftr (wrap64 (s + 0)) lr))
  = to_int (w - s / 2 ^ lr).
Proof.
  intros Hs Hlr. apply to_int_congr.
  rewrite (wrap64_mod_pow2 _ 32) by lia.
  rewrite Zminus_mod, (wrap64_mod_pow2 _ 32), delta_mod by lia.
  by rewrite <- Zminus_mod.
Qed.

(** X16.  [mix] is the weighted sum of the four inputs, shifted down by 16 with
    rounding towards minus infinity; a new mixer returns the mean of the
    inputs, rounded down. *)
Theorem mixer_mix_spec (m : Wav16.LinearMixer.t) s0 s1 s2 s3 w0 w1 w2 w3 :
  Wav16.LinearMixer.w m = [w0; w1; w2; w3] ->
  Forall (fun s => - 2 ^ 31 <= s < 2 ^ 31) [s0; s1; s2; s3] ->
  Forall (fun w => - 2 ^ 30 < w < 2 ^ 30) [w0; w1; w2; w3] ->
  Wav16.LinearMixer.mix m [s0; s1; s2; s3]
  = Some (to_int ((s0 * w0 + s1 * w1 + s2 * w2 + s3 * w3) / 2 ^ 16)) /\
  Wav16.LinearMixer.mix Wav16.LinearMixer.new [s0; s1; s2; s3]
  = Some ((s0 + s1 + s2 + s3) / 4).
Proof.
  intros Hw Hs Hws.
  apply Forall_cons in Hs as [Hs0 Hs]. apply Forall_cons in Hs as [Hs1 Hs].
  apply Forall_cons in Hs as [Hs2 Hs]. apply Forall_cons in Hs as [Hs3 _].
  assert (Hmix : forall v0 v1 v2 v3,
            Forall (fun w => - 2 ^ 30 < w < 2 ^ 30) [v0; v1; v2; v3] ->
            Wav16.LinearMixer.mix (Wav16.LinearMixer.mk [v0; v1; v2; v3])
                                  [s0; s1; s2; s3]
            = Some (to_int ((s0 * v0 + s1 * v1 + s2 * v2 + s3 * v3) / 2 ^ 16))).
  { intros v0 v1 v2 v3 Hv.
    apply Forall_cons in Hv as [Hv0 Hv]. apply Forall_cons in Hv as [Hv1 Hv].
    apply Forall_cons in Hv as [Hv2 Hv]. apply Forall_cons in Hv as [Hv3 _].
    pose proof (mul_int32_bound s0 v0 Hs0 Hv0).
    pose proof (mul_int32_bound s1 v1 Hs1 Hv1).
    pose proof (mul_int32_bound s2 v2 Hs2 Hv2).
    pose proof (mul_int32_bound s3 v3 Hs3 Hv3).
    unfold Wav16.LinearMixer.mix.
    change (Z.to_nat Wav16.LinearMixer.kWeights) with 4%nat.
    cbn [Wav16.LinearMixer.mix_loop Wav16.LinearMixer.w].
    change (load [s0; s1; s2; s3] 0) with (Some s0).
    change (load [v0; v1; v2; v3] 0) with (Some v0).
    change (load [s0; s1; s2; s3] (0 + 1)) with (Some s1).
    change (load [v0; v1; v2; v3] (0 + 1)) with (Some v1).
    change (load [s0; s1; s2; s3] (0 + 1 + 1)) with (Some s2).
    change (load [v0; v1; v2; v3] (0 + 1 + 1)) with (Some v2).
    change (load [s0; s1; s2; s3] (0 + 1 + 1 + 1)) with (Some s3).
    change (load [v0; v1; v2; v3] (0 + 1 + 1 + 1)) with (Some v3).
    cbn [mbind option_bind].
    rewrite add_int64_ok by lia. cbn [mbind option_bind].
    rewrite add_int64_ok by lia. cbn [mbind option_bind].
    rewrite add_int64_ok by lia. cbn [mbind option_bind].
    rewrite add_int64_ok by lia. cbn [mbind option_bind].
    change Wav16.LinearMixer.kShift with 16.
    rewrite Z.shiftr_div_pow2 by lia. do 3 f_equal; lia. }
  split.
  - destruct m as [ws]. cbn [Wav16.LinearMixer.w] in Hw. subst ws.
    by apply Hmix.
  - change Wav16.LinearMixer.new
      with (Wav16.LinearMixer.mk [16384; 16384; 16384; 16384]).
    rewrite Hmix by (repeat constructor; lia).
    replace (s0 * 16384 + s1 * 16384 + s2 * 16384 + s3 * 16384)
      with ((s0 + s1 + s2 + s3) * 16384) by lia.
    change (2 ^ 16) with (4 * 16384).
    rewrite Z.div_mul_cancel_r by lia.
    f_equal. apply to_int_signed.
    split.
    + apply Z.div_le_lower_bound; lia.
    + apply Z.div_lt_upper_bound; lia.
Qed.

Lemma mixer_mix_spec_witness :
  Wav16.LinearMixer.w Wav16.LinearMixer.new = [16384; 16384; 16384; 16384] /\
  Forall (fun s => - 2 ^ 31 <= s < 2 ^ 31) [- 7; 2; 0; 0] /\
  Forall (fun w => - 2 ^ 30 < w < 2 ^ 30) [16384; 16384; 16384; 16384] /\
  Wav16.LinearMixer.mix Wav16.LinearMixer.new [- 7; 2; 0; 0] = Some (- 2).
Proof.
  assert (Hs : Forall (fun s => - 2 ^ 31 <= s < 2 ^ 31) [- 7; 2; 0; 0])
    by (repeat constructor; lia).
  assert (Hw : Forall (fun w => - 2 ^ 30 < w < 2 ^ 30)
                      [16384; 16384; 16384; 16384])
    by (repeat constructor; lia).
  split; [reflexivity|]. split; [exact Hs|]. split; [exact Hw|].
  rewrite (proj2 (mixer_mix_spec Wav16.LinearMixer.new (- 7) 2 0 0
                    16384 16384 16384 16384 eq_refl Hs Hw)).
  reflexivity.
Defined.

Lemma update_weight_spec ws s i si wi error lr :
  load s i = Some si -> load ws i = Some wi ->
  - 2 ^ 63 <= si < 2 ^ 63 -> 0 <= lr <= 32 ->
  Wav16.LinearMixer.update_weight ws s i error lr
  = Some (if decide (error = 0) then ws
          else <[Z.to_nat i :=
                   if decide (0 < error) then to_int (wi + si / 2 ^ lr)
                   else to_int (wi - si / 2 ^ lr)]> ws).
Proof.
  intros Hs Hw Hsi Hlr. unfold Wav16.LinearMixer.update_weight.
  rewrite Hs. cbn [mbind option_bind].
  assert (Hi : 0 <= i < Z.of_nat (length ws)).
  { unfold load in Hw. destruct (decide (0 <= i)); [|done].
    apply lookup_lt_Some in Hw. lia. }
  destruct (decide (0 < error)) as [Hpos|Hnpos].
  - rewrite Hw. cbn [mbind option_bind].
    rewrite decide_False by lia. rewrite store_Some by done.
    by rewrite weight_plus.
  - destruct (decide (error < 0)) as [Hneg|Hnneg].
    + rewrite Hw. cbn [mbind option_bind].
      rewrite decide_False by lia. rewrite store_Some by done.
      by rewrite weight_minus.
    + by rewrite decide_True by lia.
Qed.

(** X17.  [update] adds to every weight its input shifted down arithmetically
    when the error is positive, subtracts it when the error is negative,
    and keeps the weights when the error is 0; the sums wrap around in 32
    bits.  The unsigned arithmetic of the loop shows only for shifts
    above 32. *)
Theorem mixer_update_spec (m : Wav16.LinearMixer.t) s0 s1 s2 s3 w0 w1 w2 w3
    p error lr :
  Wav16.LinearMixer.w m = [w0; w1; w2; w3] ->
  Forall (fun s => - 2 ^ 31 <= s < 2 ^ 31) [s0; s1; s2; s3] ->
  0 <= lr <= 32 ->
  let step := fun w s =>
    if decide (0 < error) then to_int (w + s / 2 ^ lr)
    else if decide (error < 0) then to_int (w - s / 2 ^ lr)
    else w in
  Wav16.LinearMixer.update m [s0; s1; s2; s3] p error lr
  = Some (Wav16.LinearMixer.mk
            [step w0 s0; step w1 s1; step w2 s2; step w3 s3]) /\
  Wav16.LinearMixer.update (Wav16.LinearMixer.mk [0; 0; 0; 0])
                           [- 1; 0; 0; 0] p 1 33
  = Some (Wav16.LinearMixer.mk [2 ^ 31 - 1; 0; 0; 0]).
Proof.
  intros Hw Hs Hlr step. split; [|reflexivity].
  apply Forall_cons in Hs as [Hs0 Hs]. apply Forall_cons in Hs as [Hs1 Hs].
  apply Forall_cons in Hs as [Hs2 Hs]. apply Forall_cons in Hs as [Hs3 _].
  destruct m as [ws]. cbn [Wav16.LinearMixer.w] in Hw. subst ws.
  unfold Wav16.LinearMixer.update. rewrite decide_True by lia.
  change (Z.to_nat Wav16.LinearMixer.kWeights) with 4%nat.
  cbn [Wav16.LinearMixer.update_loop Wav16.LinearMixer.w].
  subst step. cbv beta.
  destruct (decide (error = 0)) as [He|He].
  - rewrite (update_weight_spec _ _ 0 s0 w0) by (done || lia).
    rewrite decide_True by done. cbn [mbind option_bind].
    rewrite (update_weight_spec _ _ (0 + 1) s1 w1) by (done || lia).
    rewrite decide_True by done. cbn [mbind option_bind].
    rewrite (update_weight_spec _ _ (0 + 1 + 1) s2 w2) by (done || lia).
    rewrite decide_True by done. cbn [mbind option_bind].
    rewrite (update_weight_spec _ _ (0 + 1 + 1 + 1) s3 w3) by (done || lia).
    rewrite decide_True by done. cbn [mbind option_bind].
    by rewrite !decide_False by lia.
  - rewrite (update_weight_spec _ _ 0 s0 w0) by (done || lia).
    rewrite decide_False by done. cbn [mbind option_bind].
    change (Z.to_nat 0) with 0%nat. cbn [list_insert insert].
    rewrite (update_weight_spec _ _ (0 + 1) s1 w1) by (done || lia).
    rewrite decide_False by done. cbn [mbind option_bind].
    change (Z.to_nat (0 + 1)) with 1%nat. cbn [list_insert insert].
    rewrite (update_weight_spec _ _ (0 + 1 + 1) s2 w2) by (done || lia).
    rewrite decide_False by done. cbn [mbind option_bind].
    change (Z.to_nat (0 + 1 + 1)) with 2%nat. cbn [list_insert insert].
    rewrite (update_weight_spec _ _ (0 + 1 + 1 + 1) s3 w3) by (done || lia).
    rewrite decide_False by done. cbn [mbind option_bind].
    change (Z.to_nat (0 + 1 + 1 + 1)) with 3%nat. cbn [list_insert insert].
    destruct (decide (0 < error)).
    + done.
    + by rewrite !decide_True by lia.
Qed.

Lemma mixer_update_spec_witness :
  Wav16.LinearMixer.w Wav16.LinearMixer.new = [16384; 16384; 16384; 16384] /\
  Forall (fun s => - 2 ^ 31 <= s < 2 ^ 31) [- 65535; 3; 8192; 0] /\
  0 <= 13 <= 32 /\
  Wav16.LinearMixer.update Wav16.LinearMixer.new [- 65535; 3; 8192; 0] 0
                           (- 1) 13
  = Some (Wav16.LinearMixer.mk [16392; 16384; 16383; 16384]).
Proof.
  assert (Hs : Forall (fun s => - 2 ^ 31 <= s < 2 ^ 31) [- 65535; 3; 8192; 0])
    by (repeat constructor; lia).
  split; [reflexivity|]. split; [exact Hs|]. split; [lia|].
  rewrite (proj1 (mixer_update_spec Wav16.LinearMixer.new (- 65535) 3 8192 0
                    16384 16384 16384 16384 0 (- 1) 13 eq_refl Hs
                    ltac:(lia))).
  reflexivity.
Defined.

Lemma update_weight_total ws s i error lr :
  0 <= i < Z.of_nat (length ws) -> 0 <= i < Z.of_nat (length s) ->
  exists ws', Wav16.LinearMixer.update_weight ws s i error lr = Some ws' /\
              length ws' = length ws.
Proof.
  intros Hw Hs. unfold Wav16.LinearMixer.update_weight.
  destruct (load_Some s i Hs) as [si ->].
  destruct (load_Some ws i Hw) as [wi ->]. cbn [mbind option_bind].
  destruct (decide (0 < error)); [|destruct (decide (error < 0))].
  - rewrite store_Some by done. eexists. split; [done|apply length_insert].
  - rewrite store_Some by done. eexists. split; [done|apply length_insert].
  - by exists ws.
Qed.

Lemma update_loop_total n : forall i ws s error lr,
  0 <= i -> i + Z.of_nat n <= Z.of_nat (length ws) ->
  i + Z.of_nat n <= Z.of_nat (length s) ->
  exists ws', Wav16.LinearMixer.update_loop n i ws s error lr = Some ws' /\
              length ws' = length ws.
Proof.
  induction n as [|n IH]; intros i ws s error lr Hi Hw Hs.
  - by exists ws.
  - cbn [Wav16.LinearMixer.update_loop].
    destruct (update_weight_total ws s i error lr) as (ws1 & -> & Hl1);
      [lia|lia|].
    cbn [mbind option_bind].
    destruct (IH (i + 1) ws1 s error lr) as (ws' & -> & Hl'); [lia..|].
    exists ws'. split; [done|congruence].
Qed.

(** [update] with four inputs keeps a mixer of four weights. *)
Lemma mixer_update_total m s p error lr :
  length (Wav16.LinearMixer.w m) = 4%nat -> length s = 4%nat -> lr < 64 ->
  exists m', Wav16.LinearMixer.update m s p error lr = Some m' /\
             length (Wav16.LinearMixer.w m') = 4%nat.
Proof.
  intros Hw Hs Hlr. unfold Wav16.LinearMixer.update.
  rewrite decide_True by done.
  change (Z.to_nat Wav16.LinearMixer.kWeights) with 4%nat.
  destruct (update_loop_total 4 0 (Wav16.LinearMixer.w m) s error lr)
    as (ws' & -> & Hl'); [lia..|].
  cbn [mbind option_bind]. eexists. split; [done|].
  cbn [Wav16.LinearMixer.w]. congruence.
Qed.

Section MixProps.

Context {M R : Type} `{!StationaryModel M} `{!Range7 R}.

Import Wav16.

(** The frame loop with the mixers runs as the one without. *)
Lemma compress_mix_loop_fst max_count fuel :
  forall (s : enc_state (M:=M) (R:=R)) x,
  length (LinearMixer.w (mix0 x)) = 4%nat ->
  length (LinearMixer.w (mix1 x)) = 4%nat ->
  match compress_mix_loop fuel max_count s x with
  | Some (s', x') =>
      compress_loop fuel max_count s = Some s' /\
      length (LinearMixer.w (mix0 x')) = 4%nat /\
      length (LinearMixer.w (mix1 x')) = 4%nat
  | None => compress_loop fuel max_count s = None
  end.
Proof.
  induction fuel as [|fuel IH]; intros s x H0 H1; [done|].
  cbn [compress_mix_loop compress_loop].
  destruct (decide (e_i s < max_count)); [|done].
  destruct (stream_get (e_sin s)) as [c1 sin1].
  destruct (stream_get sin1) as [c2 sin2].
  destruct (stream_get sin2) as [c3 sin3].
  destruct (stream_get sin3) as [c4 sin4].
  destruct (decide (c1 = EOF)); [done|].
  destruct (processSample false (e_w s) (e_sout s) 0 0 _)
    as [[[w1 sout1] r1]|]; [|done].
  cbn [mbind option_bind].
  destruct (processSample false w1 sout1 0 1 _) as [[[w2 sout2] r2]|];
    [|done].
  cbn [mbind option_bind].
  destruct (mixer_update_total (mix0 x)
              [2 * last_a (e_hist s) - last_a2 (e_hist s); last_a (e_hist s);
               last_a3 (e_hist s); last_b (e_hist s)]
              (pred_a (e_hist s))
              (wrap16 (c1 + c2 * 256) - pred_a (e_hist s)) 13)
    as (m0 & -> & Hm0); [done|done|lia|].
  cbn [mbind option_bind].
  destruct (mixer_update_total (mix1 x)
              [2 * last_b (e_hist s) - last_b2 (e_hist s); last_b (e_hist s);
               wrap16 (c1 + c2 * 256); last_a (e_hist s)]
              (pred_b (e_hist s))
              (wrap16 (c3 + c4 * 256) - pred_b (e_hist s)) 13)
    as (m1 & -> & Hm1); [done|done|lia|].
  cbn [mbind option_bind].
  apply IH; done.
Qed.

End MixProps.

(** X18.  The mixers and [total_error] of [compress] do not act on what it
    writes: with them the run returns the same object, the same rest of
    the input and the same octets, and it always returns. *)
Theorem compress_mix_streams {M R : Type} `{!StationaryModel M} `{!Range7 R}
    (w : Wav16.t (M:=M) (R:=R)) in_stream max_count :
  exists w' rest out x,
    Wav16.compress_mix w in_stream max_count = Some (w', rest, out, x) /\
    Wav16.compress w in_stream max_count = Some (w', rest, out) /\
    length (Wav16.LinearMixer.w (Wav16.mix0 x)) = 4%nat /\
    length (Wav16.LinearMixer.w (Wav16.mix1 x)) = 4%nat.
Proof.
  destruct (compress_touch w in_stream max_count)
    as (w' & rest & out & new & Hc & _).
  unfold Wav16.compress_mix, Wav16.compress in *.
  pose proof (compress_mix_loop_fst max_count (S (length in_stream))
                (Wav16.mkenc (Wav16.set_ent (Wav16.init w) rc_new)
                             in_stream [] 0 Wav16.hist0)
                (Wav16.mkmix Wav16.LinearMixer.new Wav16.LinearMixer.new 0)
                eq_refl eq_refl) as Hl.
  destruct (Wav16.compress_mix_loop _ _ _ _) as [[s' x']|].
  - destruct Hl as (Hl & H0 & H1). rewrite Hl.
    cbn [mbind option_bind].
    destruct (flush (Wav16.ent (Wav16.e_w s')) (Wav16.e_sout s')) as [e sout].
    by eexists _, _, _, _.
  - rewrite Hl in Hc. done.
Qed.

(** ** Wav16: the check of [processSample], the counts of the two loops *)

Section CodecMore.

Context {M R : Type} `{!StationaryModel M} `{!Range7 R}.

Import Wav16.

Lemma processSample_base context channel :
  0 <= context -> 0 <= channel -> context * 2 + channel < 2 ^ 51 ->
  wrap64 (Z.shiftl (wrap64 (context * 2 + channel)) 13)
  = (context * 2 + channel) * 2 ^ 13.
Proof.
  intros Hc Hch Hq. rewrite (wrap64_small (context * 2 + channel)) by lia.
  rewrite Z.shiftl_mul_pow2 by lia. apply wrap64_small. lia.
Qed.

Lemma frame_octets_ok a b :
  0 <= a < 2 ^ 16 -> 0 <= b < 2 ^ 16 -> Forall octet (frame_octets (a, b)).
Proof.
  intros Ha Hb. unfold frame_octets. cbn [fst snd].
  assert (Hlo : forall x, octet (Z.land x 255)).
  { intros x. unfold octet. rewrite land_255. apply Z.mod_pos_bound. lia. }
  assert (Hhi : forall x, 0 <= x < 2 ^ 16 -> octet (Z.shiftr x 8)).
  { intros x Hx. unfold octet. rewrite Z.shiftr_div_pow2 by lia.
    split; [apply Z.div_pos; lia|apply Z.div_lt_upper_bound; lia]. }
  apply Forall_cons. split; [apply Hlo|].
  apply Forall_cons. split; [by apply Hhi|].
  apply Forall_cons. split; [apply Hlo|].
  apply Forall_cons. split; [by apply Hhi|]. constructor.
Qed.

(** One more octet for every unit of the count. *)
Lemma decompress_loop_length fuel :
  forall s : dec_state (M:=M) (R:=R),
  range7_bits (R:=R) -> initialised (d_w s) ->
  0 <= d_max_count s < 2 ^ 64 -> (Z.to_nat (d_max_count s) < fuel)%nat ->
  Forall octet (d_sout s) ->
  exists s',
    decompress_loop fuel s = Some s' /\
    d_max_count s' = 0 /\
    Z.of_nat (length (d_sout s'))
    = Z.of_nat (length (d_sout s)) + d_max_count s /\
    Forall octet (d_sout s').
Proof.
  induction fuel as [|fuel IH]; intros s Hbits Hw Hmc Hfuel Hoct; [lia|].
  rewrite decompress_loop_S. case_decide as Hlt.
  2:{ exists s. split; [done|]. split; [lia|]. split; [lia|done]. }
  cbv zeta.
  edestruct (processSample_ok true (d_w s) (d_sin s) 0 0) as
    (w1 & si1 & r1 & new1 & -> & Hsh1 & _);
    [done|done|by left|].
  cbn [mbind option_bind]. cbv beta iota zeta.
  edestruct (processSample_ok true w1 si1 1 0) as
    (w2 & si2 & r2 & new2 & -> & Hsh2 & _);
    [done|by eapply initialised_shape|by right|].
  cbn [mbind option_bind]. cbv beta iota zeta.
  rewrite put_if4 by (done || lia || apply wrap16_range).
  match goal with
  | |- context [decompress_loop fuel ?s2] =>
      destruct (IH s2) as (s' & -> & Hmc' & Hlen' & Hoct')
  end.
  { done. }
  { cbn [d_w]. eapply initialised_shape; [|done].
    by eapply initialised_shape. }
  { cbn [d_max_count]. lia. }
  { cbn [d_max_count]. lia. }
  { cbn [d_sout]. apply Forall_app. split; [done|].
    apply Forall_take. apply frame_octets_ok; apply wrap16_range. }
  cbn [d_sout d_max_count] in Hlen'.
  exists s'. split; [done|]. split; [done|]. split; [|done].
  rewrite Hlen', length_app, length_take. cbn [frame_octets length]. lia.
Qed.

End CodecMore.

(** X19.  [processSample] for any outer context: the check passes exactly for
    the eight blocks of the table, and the 13 subscripts of a call stay
    in the block of its context and channel. *)
Theorem processSample_context {M R : Type} `{!StationaryModel M} `{!Range7 R}
    (w : Wav16.t (M:=M) (R:=R)) kDecode stream context channel c :
  (kDecode = true -> range7_bits (R:=R)) -> initialised w ->
  0 <= context -> 0 <= channel -> context * 2 + channel < 2 ^ 51 ->
  (8 <= context * 2 + channel ->
   Wav16.processSample kDecode w stream context channel c = None) /\
  (context * 2 + channel < 8 ->
   exists w' stream' r new,
     Wav16.processSample kDecode w stream context channel c
     = Some (w', stream', r) /\
     initialised w' /\
     Wav16.touched_ w' = new ++ Wav16.touched_ w /\
     length new = 13%nat /\
     Forall (fun i => (context * 2 + channel) * 2 ^ 13 + 1 <= i
                      < (context * 2 + channel + 1) * 2 ^ 13) new).
Proof.
  intros Hbits Hinit Hc Hch Hq. pose proof Hinit as (Hsz & Hnb & Hnn).
  unfold Wav16.processSample. rewrite Hnn, Hnb, Hsz.
  rewrite processSample_base by done.
  split.
  - intros Hge. by rewrite decide_False by lia.
  - intros Hlt. rewrite decide_True by lia.
    set (s0 := Wav16.mkps w stream _ 1).
    destruct (model_loop_inv kDecode ((context * 2 + channel) * 2 ^ 13) 13
                s0 0) as
      (s' & new & Hs' & Hc' & Hcode' & Hsh' & Ht' & Hlen & Hall);
      try done; try (simpl; lia).
    { simpl. destruct kDecode; [lia|apply wrap32_range]. }
    change (Z.to_nat 13) with 13%nat. change (Z.to_nat 3) with 3%nat.
    rewrite Hs'. cbn [mbind option_bind].
    destruct (noise_loop_same kDecode 3 s') as (Hm & Ht & Hsh).
    eexists _, _, _, new. split; [done|].
    split. { eapply initialised_shape; [exact Hinit|].
             eapply same_shape_trans; done. }
    split. { by rewrite Ht, Ht'. }
    split; [done|].
    eapply Forall_impl; [done|]. simpl. intros; lia.
Qed.

(** X20.  [decompress] writes exactly [max_count] octets whatever the input
    is, also when the input is empty or too short. *)
Theorem decompress_length {M R : Type} `{!StationaryModel M} `{!Range7 R}
    (w : Wav16.t (M:=M) (R:=R)) in_stream max_count :
  range7_bits (R:=R) -> 0 <= max_count < 2 ^ 64 ->
  exists w' rest out,
    Wav16.decompress w in_stream max_count = Some (w', rest, out) /\
    Z.of_nat (length out) = max_count /\ Forall octet out.
Proof.
  intros Hbits Hmc. unfold Wav16.decompress.
  destruct (initDecoder (Wav16.ent (Wav16.init w)) in_stream) as [e sin].
  destruct (decompress_loop_length (S (Z.to_nat max_count))
              (Wav16.mkdec (Wav16.set_ent (Wav16.init w) e) sin []
                           max_count Wav16.hist0))
    as (s' & -> & _ & Hlen & Hoct).
  { done. }
  { by vm_compute. }
  { done. }
  { cbn [Wav16.d_max_count]. lia. }
  { done. }
  cbn [mbind option_bind].
  exists (Wav16.d_w s'), (Wav16.d_sin s'), (Wav16.d_sout s').
  split; [done|]. split; [|done].
  cbn [Wav16.d_sout Wav16.d_max_count length] in Hlen. lia.
Qed.

Lemma processSample_context_witness :
  (true = true -> range7_bits (R:=StoreCoder.t)) /\
  initialised (Wav16.init W0) /\ 0 <= 3 /\ 0 <= 1 /\ 3 * 2 + 1 < 2 ^ 51 /\
  Wav16.processSample true (Wav16.init W0) [1; 0; 1] 4 0 0 = None /\
  exists w' stream' r new,
    Wav16.processSample true (Wav16.init W0) [1; 0; 1] 3 1 0
    = Some (w', stream', r) /\
    Wav16.touched_ w' = new ++ Wav16.touched_ (Wav16.init W0) /\
    Forall (fun i => (3 * 2 + 1) * 2 ^ 13 + 1 <= i
                     < (3 * 2 + 1 + 1) * 2 ^ 13) new.
Proof.
  split; [intros _; exact store_coder_bits|].
  split; [apply init_initialised|].
  split; [lia|]. split; [lia|]. split; [lia|]. split.
  - apply (proj1 (processSample_context (Wav16.init W0) true [1; 0; 1] 4 0 0
                    (fun _ => store_coder_bits) (init_initialised W0)
                    ltac:(lia) ltac:(lia) ltac:(lia))). lia.
  - destruct (proj2 (processSample_context (Wav16.init W0) true [1; 0; 1]
                       3 1 0 (fun _ => store_coder_bits)
                       (init_initialised W0)
                       ltac:(lia) ltac:(lia) ltac:(lia)))
      as (w' & stream' & r & new & H1 & _ & H2 & _ & H3); [lia|].
    exists w', stream', r, new. split; [exact H1|]. split; [exact H2|exact H3].
Defined.

Lemma decompress_length_witness :
  range7_bits (R:=StoreCoder.t) /\ 0 <= 7 < 2 ^ 64 /\
  exists w' rest out,
    Wav16.decompress W0 [] 7 = Some (w', rest, out) /\
    Z.of_nat (length out) = 7.
Proof.
  split; [exact store_coder_bits|]. split; [lia|].
  destruct (decompress_length W0 [] 7 store_coder_bits ltac:(lia))
    as (w' & rest & out & H1 & H2 & _).
  exists w', rest, out. split; [exact H1|exact H2].
Defined.

Lemma frame_count_mul4 k : frame_count (4 * Z.of_nat k) = k.
Proof.
  unfold frame_count.
  replace (4 * Z.of_nat k + 3) with (3 + Z.of_nat k * 4) by lia.
  rewrite Z.div_add by lia. change (3 / 4) with 0. lia.
Qed.

(** X21.  [compress] works by whole frames.  A count beyond the end of the
    input changes nothing; a count that ends inside the input is rounded
    up to a multiple of 4, the octets up to there are read and coded, and
    the rest of the input is left. *)
Theorem compress_count {M R : Type} `{!StationaryModel M} `{!Range7 R}
    (w : Wav16.t (M:=M) (R:=R)) (S : list Z) max_count :
  Forall octet S -> 0 <= max_count <= 2 ^ 64 - 4 ->
  (Z.of_nat (length S) <= max_count ->
   Wav16.compress w S max_count
   = Wav16.compress w S (Z.of_nat (length S))) /\
  (let n := (4 * frame_count max_count)%nat in
   (n <= length S)%nat ->
   exists w' out,
     Wav16.compress w S max_count = Some (w', drop n S, out) /\
     Wav16.compress w (take n S) max_count = Some (w', [], out)).
Proof.
  intros Hoct Hmc. split.
  - intros Hle.
    rewrite !compress_run by (done || lia). cbv zeta.
    pose proof (frame_count_mono _ _ Hle) as Hfc.
    rewrite !take_ge by (rewrite frames_of_length; lia). done.
  - intros n Hn.
    assert (Hlen : length (take n S) = n) by (rewrite length_take; lia).
    assert (Hfl : length (frames_of (take n S)) = frame_count max_count).
    { rewrite frames_of_length, Hlen. unfold n.
      rewrite Nat2Z.inj_mul. change (Z.of_nat 4) with 4.
      apply frame_count_mul4. }
    assert (Hfr : take (frame_count max_count) (frames_of S)
                  = frames_of (take n S)).
    { rewrite <- (take_drop n S) at 1.
      rewrite frames_of_app
        by (rewrite Hlen; unfold n; rewrite Nat2Z.inj_mul;
            change (Z.of_nat 4) with 4; rewrite Z.mul_comm;
            apply Z.mod_mul; lia).
      by rewrite take_app_length'. }
    rewrite !compress_run by (done || lia || by apply Forall_take).
    cbv zeta. rewrite Hfr.
    rewrite (take_ge (frames_of (take n S))) by lia.
    rewrite Hfl. fold n.
    eexists _, _. split; [done|].
    do 2 f_equal. rewrite drop_ge; [done|lia].
Qed.

Lemma compress_count_witness :
  Forall octet S7 /\ 0 <= 2 <= 2 ^ 64 - 4 /\
  exists w' out,
    Wav16.compress W0 S7 2 = Some (w', drop (4 * frame_count 2) S7, out) /\
    Wav16.compress W0 (take (4 * frame_count 2) S7) 2 = Some (w', [], out).
Proof.
  split; [exact S7_octets|]. split; [lia|].
  apply (proj2 (compress_count W0 S7 2 S7_octets ltac:(lia))).
  vm_compute. lia.
Defined.

Section FrameRule.

Context {M R : Type} `{!StationaryModel M} `{!Range7 R}.

Import Wav16.

(** One round of the model loop writes the entry that it logs and no
    other. *)
Lemma model_bit_frame kDecode base s s' :
  model_bit kDecode base s = Some s' ->
  exists idx,
    touched_ (ps_w s') = idx :: touched_ (ps_w s) /\
    v_size (models_ (ps_w s')) = v_size (models_ (ps_w s)) /\
    forall i, i <> idx ->
      vload m_init (models_ (ps_w s')) i = vload m_init (models_ (ps_w s)) i.
Proof.
  unfold model_bit. set (idx := wrap64 (base + ps_ctx s)).
  cbn [models_ log_touch ent]. intros Hs. exists idx.
  destruct (vload m_init (models_ (ps_w s)) idx) as [m|]; [|done].
  cbn [mbind option_bind] in Hs.
  assert (Hgen : forall bit code e stream,
            (ms ← vstore (models_ (ps_w s)) idx (update m bit);
             let w := set_ent (set_models (log_touch (ps_w s) idx) ms) e in
             let ctx := to_int (ps_ctx s * 2 + bit) in
             let '(e0, stream0) :=
               if kDecode then Normalize (ent w) stream else (ent w, stream) in
             Some (mkps (set_ent w e0) stream0 code ctx)) = Some s' ->
            touched_ (ps_w s') = idx :: touched_ (ps_w s) /\
            v_size (models_ (ps_w s')) = v_size (models_ (ps_w s)) /\
            forall i, i <> idx ->
              vload m_init (models_ (ps_w s')) i
              = vload m_init (models_ (ps_w s)) i).
  { intros bit code e stream. unfold vstore.
    destruct (decide (0 <= idx < v_size (models_ (ps_w s)))); [|done].
    cbn [mbind option_bind]. cbv zeta.
    clear Hs. destruct kDecode; [destruct (Normalize _ _) as [e0 stream0]|];
      intros [= <-];
      cbn [ps_w set_ent set_models log_touch touched_ models_];
      (split; [done|]); (split; [done|]);
      intros i Hi; unfold vload; cbn [v_size v_elts];
      by rewrite lookup_insert_ne by done. }
  destruct kDecode.
  - destruct (getDecodedBit _ _ _) as [e bit]. eapply Hgen. exact Hs.
  - destruct (encode _ _ _ _ _) as [e stream']. eapply Hgen. exact Hs.
Qed.

Lemma model_loop_frame kDecode base n : forall s s',
  model_loop kDecode base n s = Some s' ->
  exists new,
    touched_ (ps_w s') = new ++ touched_ (ps_w s) /\ length new = n /\
    v_size (models_ (ps_w s')) = v_size (models_ (ps_w s)) /\
    forall i, i ∉ new ->
      vload m_init (models_ (ps_w s')) i = vload m_init (models_ (ps_w s)) i.
Proof.
  induction n as [|n IH]; intros s s'; cbn [model_loop].
  - intros [= <-]. by exists [].
  - destruct (model_bit kDecode base s) as [s1|] eqn:H1; [|done].
    cbn [mbind option_bind]. intros H2.
    destruct (model_bit_frame _ _ _ _ H1) as (idx & Ht1 & Hsz1 & Hf1).
    destruct (IH _ _ H2) as (new & Ht2 & Hlen & Hsz2 & Hf2).
    exists (new ++ [idx]). split; [|split; [|split]].
    + by rewrite Ht2, Ht1, <- app_assoc.
    + rewrite length_app. cbn [length]. lia.
    + congruence.
    + intros i Hi. apply not_elem_of_app in Hi as [Hi1 Hi2].
      rewrite Hf2 by done. apply Hf1. set_solver.
Qed.

End FrameRule.

(** X22.  A call of [processSample] that returns has subscripted the table once
    for every non-noise bit, and has changed no entry but those. *)
Theorem processSample_frame {M R : Type} `{!StationaryModel M} `{!Range7 R}
    (w w' : Wav16.t (M:=M) (R:=R)) kDecode stream stream' context channel c r :
  Wav16.processSample kDecode w stream context channel c
  = Some (w', stream', r) ->
  exists new,
    Wav16.touched_ w' = new ++ Wav16.touched_ w /\
    length new = Z.to_nat (Wav16.non_noise_bits_ w) /\
    v_size (Wav16.models_ w') = v_size (Wav16.models_ w) /\
    forall i, i ∉ new ->
      vload m_init (Wav16.models_ w') i = vload m_init (Wav16.models_ w) i.
Proof.
  unfold Wav16.processSample.
  destruct (decide (_ < _)); [|done].
  destruct (Wav16.model_loop _ _ _ _) as [s1|] eqn:Hloop; [|done].
  cbn [mbind option_bind]. intros [= <- <- <-].
  destruct (model_loop_frame _ _ _ _ _ Hloop) as (new & Ht & Hlen & Hsz & Hf).
  destruct (noise_loop_same kDecode (Z.to_nat (Wav16.noise_bits_ w)) s1)
    as (Hm & Ht' & _).
  cbn [Wav16.ps_w] in *.
  exists new. rewrite Hm, Ht'. done.
Qed.

Lemma processSample_frame_witness :
  exists w' stream' r new,
    Wav16.processSample true (Wav16.init W0) [1; 0; 1] 0 1 0
    = Some (w', stream', r) /\
    Wav16.touched_ w' = new ++ Wav16.touched_ (Wav16.init W0) /\
    length new = 13%nat.
Proof.
  destruct (Wav16.processSample true (Wav16.init W0) [1; 0; 1] 0 1 0)
    as [[[w' stream'] r]|] eqn:Hp; [|vm_compute in Hp; discriminate Hp].
  destruct (processSample_frame _ _ _ _ _ _ _ _ _ Hp)
    as (new & H1 & H2 & _).
  exists w', stream', r, new. split; [reflexivity|]. split; [exact H1|exact H2].
Defined.

Section DecodeRange.

Context {M R : Type} `{!StationaryModel M} `{!Range7 R}.

Import Wav16.

Implicit Types (s : ps (M:=M) (R:=R)).

Lemma noise_bit_dec_ctx s :
  range7_bits (R:=R) -> 1 <= ps_ctx s < 2 ^ 30 ->
  exists bit, is_bit bit /\ ps_ctx (noise_bit true s) = 2 * ps_ctx s + bit.
Proof.
  intros [_ Hbits] Hctx. unfold noise_bit.
  pose proof (Hbits (ent (ps_w s)) (ps_stream s)) as Hb.
  destruct (decodeBit (ent (ps_w s)) (ps_stream s)) as [[e stream] bit].
  cbn [snd] in Hb. exists bit. split; [done|]. cbn [ps_ctx].
  assert (0 <= bit <= 1) by (destruct Hb; lia).
  rewrite wrap32_small by lia. rewrite to_int_small by lia. lia.
Qed.

Lemma noise_loop_dec_ctx n : forall s k,
  range7_bits (R:=R) -> 0 <= k -> k + Z.of_nat n <= 29 ->
  2 ^ k <= ps_ctx s < 2 ^ (k + 1) ->
  2 ^ (k + Z.of_nat n) <= ps_ctx (noise_loop true n s)
  < 2 ^ (k + Z.of_nat n + 1).
Proof.
  induction n as [|n IH]; intros s k Hbits Hk Hn Hctx; cbn [noise_loop].
  - by rewrite Z.add_0_r.
  - pose proof (pow2_pos k Hk).
    assert (2 ^ (k + 1) <= 2 ^ 30) by (apply pow2_mono; lia).
    destruct (noise_bit_dec_ctx s Hbits ltac:(lia)) as (bit & Hb & Hc).
    replace (k + Z.of_nat (S n)) with (k + 1 + Z.of_nat n) by lia.
    apply IH; [done|lia|lia|].
    rewrite Hc, (pow2_succ (k + 1)), (pow2_succ k) in * by lia.
    destruct Hb; lia.
Qed.

End DecodeRange.

(** X23.  The value that [processSample] decodes is a 16-bit one whatever
    the input holds, for a coder that returns bits. *)
Theorem processSample_decode_range {M R : Type} `{!StationaryModel M}
    `{!Range7 R} (w : Wav16.t (M:=M) (R:=R)) stream context channel c :
  range7_bits (R:=R) -> initialised w ->
  0 <= context -> 0 <= channel -> context * 2 + channel < 8 ->
  exists w' stream' r,
    Wav16.processSample true w stream context channel c
    = Some (w', stream', r) /\
    0 <= r < 2 ^ 16.
Proof.
  intros Hbits Hinit Hc Hch Hq. pose proof Hinit as (Hsz & Hnb & Hnn).
  unfold Wav16.processSample. rewrite Hnn, Hnb, Hsz.
  rewrite processSample_base by (done || lia).
  rewrite decide_True by lia.
  set (s0 := Wav16.mkps w stream _ 1).
  destruct (model_loop_inv true ((context * 2 + channel) * 2 ^ 13) 13 s0 0) as
    (s' & new & Hs' & Hc' & _); try done; try (simpl; lia).
  change (Z.to_nat 13) with 13%nat. change (Z.to_nat 3) with 3%nat.
  rewrite Hs'. cbn [mbind option_bind].
  pose proof (noise_loop_dec_ctx 3 s' 13 Hbits ltac:(lia) ltac:(simpl; lia)
                Hc') as Hctx.
  change (13 + Z.of_nat 3) with 16 in Hctx. change (16 + 1) with 17 in Hctx.
  eexists _, _, _. split; [done|].
  rewrite wrap32_small by lia.
  change (Z.shiftl 1 16) with (2 ^ 16).
  replace (Wav16.ps_ctx (Wav16.noise_loop true 3 s'))
    with (2 ^ 16 + (Wav16.ps_ctx (Wav16.noise_loop true 3 s') - 2 ^ 16))
    by lia.
  rewrite lxor_marker by lia. lia.
Qed.

Lemma processSample_decode_range_witness :
  range7_bits (R:=StoreCoder.t) /\ initialised (Wav16.init W0) /\
  0 <= 0 /\ 0 <= 1 /\ 0 * 2 + 1 < 8 /\
  exists w' stream' r,
    Wav16.processSample true (Wav16.init W0) [255; 255; 7] 0 1 0
    = Some (w', stream', r) /\
    0 <= r < 2 ^ 16.
Proof.
  split; [exact store_coder_bits|]. split; [apply init_initialised|].
  split; [lia|]. split; [lia|]. split; [lia|].
  apply (processSample_decode_range (Wav16.init W0) [255; 255; 7] 0 1 0
           store_coder_bits (init_initialised W0)); lia.
Defined.

(** X24.  After [resize(2 ^ k, p)] and [fill(d)] a raw read returns [d]
    at the offsets [-p .. 2 ^ k - p) and the value-initialised element at
    [2 ^ k - p .. 2 ^ k + p): the masked read of a slot returns [d] only
    for the slots below [2 ^ k - p]. *)
Theorem fill_then_get {T} (zero d : T) (b0 : CyclicBuffer.t (T:=T)) k p off :
  0 <= k < 64 -> 0 <= p -> 2 ^ k + p * 2 < 2 ^ 64 ->
  exists b,
    (b1 ← CyclicBuffer.resize zero b0 (2 ^ k) p; CyclicBuffer.fill b1 d)
    = Some b /\
    (forall j, - p <= j < 2 ^ k - p -> CyclicBuffer.get_raw b j = Some d) /\
    (forall j, 2 ^ k - p <= j < 2 ^ k + p ->
       CyclicBuffer.get_raw b j = Some zero) /\
    CyclicBuffer.get b off
    = Some (if decide (off mod 2 ^ k < 2 ^ k - p) then d else zero).
Proof.
  intros Hk Hp Hfit. pose proof (pow2_pos k ltac:(lia)) as Hpow.
  rewrite (fill_after_resize zero d b0 k p) by done.
  eexists. split; [done|].
  assert (Hlo : forall j, - p <= j < 2 ^ k - p ->
            CyclicBuffer.get_raw
              (CyclicBuffer.mk 0 (2 ^ k - 1) (2 ^ k + p * 2)
                 (replicate (Z.to_nat (2 ^ k)) d
                  ++ replicate (Z.to_nat (p * 2)) zero) p) j = Some d).
  { intros j Hj. unfold CyclicBuffer.get_raw, load.
    cbn [CyclicBuffer.storage_ CyclicBuffer.data_].
    rewrite decide_True by lia.
    rewrite lookup_app_l by (rewrite length_replicate; lia).
    apply lookup_replicate_2. lia. }
  assert (Hhi : forall j, 2 ^ k - p <= j < 2 ^ k + p ->
            CyclicBuffer.get_raw
              (CyclicBuffer.mk 0 (2 ^ k - 1) (2 ^ k + p * 2)
                 (replicate (Z.to_nat (2 ^ k)) d
                  ++ replicate (Z.to_nat (p * 2)) zero) p) j = Some zero).
  { intros j Hj. unfold CyclicBuffer.get_raw, load.
    cbn [CyclicBuffer.storage_ CyclicBuffer.data_].
    rewrite decide_True by lia.
    rewrite lookup_app_r by (rewrite length_replicate; lia).
    apply lookup_replicate_2. rewrite length_replicate. lia. }
  split; [exact Hlo|]. split; [exact Hhi|].
  unfold CyclicBuffer.get. cbn [CyclicBuffer.mask_].
  rewrite land_mask by lia.
  pose proof (mod_pow2_range k off ltac:(lia)).
  destruct (decide (off mod 2 ^ k < 2 ^ k - p)).
  - apply Hlo. lia.
  - apply Hhi. lia.
Qed.

Lemma fill_then_get_witness :
  0 <= 3 < 64 /\ 0 <= 4 /\ 2 ^ 3 + 4 * 2 < 2 ^ 64 /\
  exists b,
    (b1 ← CyclicBuffer.resize 0 CyclicBuffer.empty (2 ^ 3) 4;
     CyclicBuffer.fill b1 1) = Some b /\
    CyclicBuffer.get_raw b 3 = Some 1 /\ CyclicBuffer.get_raw b 4 = Some 0.
Proof.
  split; [lia|]. split; [lia|]. split; [lia|].
  destruct (fill_then_get 0 1 CyclicBuffer.empty 3 4 0)
    as (b & H1 & H2 & H3 & _); [lia|lia|lia|].
  exists b. split; [exact H1|]. split.
  - apply (H2 3). lia.
  - apply (H3 4). lia.
Defined.

(** ** Wav16: the predictor in the two frame loops *)

Section PredictorProps.

Context {M : Type} `{!StationaryModel M}.

(** The run over frames codes the residuals of the two channels, each
    formed from the samples of its own channel. *)
Lemma run_frames_residuals fs : forall (ms : vec M) h t,
  let rs := zip (channel_residuals (Wav16.last_a h) (Wav16.last_a2 h)
                                   (map fst fs))
                (channel_residuals (Wav16.last_b h) (Wav16.last_b2 h)
                                   (map snd fs)) in
  r_models (run_frames ms h t fs) = (run_residuals ms rs).1 /\
  r_events (run_frames ms h t fs) = (run_residuals ms rs).2.
Proof.
  induction fs as [|[a b] fs IH]; intros ms h t; [done|].
  cbn [run_frames map channel_residuals zip zip_with run_residuals fst snd
       r_models r_events].
  change (wrap16 (a - Wav16.pred_a h))
    with (described_residual a
            (described_pred (Wav16.last_a h) (Wav16.last_a2 h))).
  change (wrap16 (b - Wav16.pred_b h))
    with (described_residual b
            (described_pred (Wav16.last_b h) (Wav16.last_b2 h))).
  set (ra := described_residual a _). set (rb := described_residual b _).
  clearbody ra rb.
  set (wa := sample_walk ms 0 ra).
  set (wb := sample_walk (wk_models wa) 1 rb).
  specialize (IH (wk_models wb) (Wav16.shift_hist h a b)
                 (rev (wk_indices wb) ++ rev (wk_indices wa) ++ t)).
  cbn [Wav16.shift_hist Wav16.last_a Wav16.last_a2 Wav16.last_b
       Wav16.last_b2] in IH.
  destruct IH as [IH1 IH2]. by rewrite IH1, IH2.
Qed.

End PredictorProps.

Lemma described_hist_snoc fs f :
  described_hist (fs ++ [f]) = Wav16.shift_hist (described_hist fs) f.1 f.2.
Proof.
  unfold described_hist. rewrite rev_app_distr. reflexivity.
Qed.

Lemma described_hist_foldl fs :
  foldl (fun h f => Wav16.shift_hist h f.1 f.2) Wav16.hist0 fs
  = described_hist fs.
Proof.
  induction fs as [|f fs IH] using rev_ind; [done|].
  by rewrite foldl_app, described_hist_snoc, <- IH.
Qed.

Lemma channel_samples_residuals xs : forall last1 last2,
  Forall (fun x => 0 <= x < 2 ^ 16) xs ->
  channel_samples last1 last2 (channel_residuals last1 last2 xs) = xs.
Proof.
  induction xs as [|x xs IH]; intros last1 last2 Hxs; [done|].
  apply Forall_cons in Hxs as [Hx Hxs].
  cbn [channel_residuals channel_samples].
  assert (Hrec : described_sample (described_pred last1 last2)
                   (described_residual x (described_pred last1 last2)) = x)
    by (apply reconstruct; done).
  rewrite Hrec. f_equal. by apply IH.
Qed.

Lemma frames_samples fs :
  Forall frame_ok fs ->
  zip (channel_samples 0 0 (channel_residuals 0 0 (map fst fs)))
      (channel_samples 0 0 (channel_residuals 0 0 (map snd fs))) = fs.
Proof.
  intros Hfs.
  rewrite !channel_samples_residuals.
  - apply zip_fst_snd.
  - apply Forall_fmap. eapply Forall_impl; [exact Hfs|].
    intros f [_ Hf]. exact Hf.
  - apply Forall_fmap. eapply Forall_impl; [exact Hfs|].
    intros f [Hf _]. exact Hf.
Qed.

(** C3.  Per channel, from a history of zeros: an iteration of the loop
    of [compress] codes the residuals [sample - (2 * last1 - last2)]
    modulo 2^16 and shifts the history [last3 <- last2], [last2 <- last1],
    [last1 <- sample]; an iteration of the loop of [decompress] takes the
    sample [(2 * last1 - last2) + residual] modulo 2^16 from the decoded
    residual and shifts its history by it in the same way.  Over a whole
    run, for every count [n]: the encoder has coded exactly the residuals
    of the samples of each channel, the decoder has written the samples
    that these residuals give back, which are the samples of the input,
    and the histories of the two loops are equal, the last three samples
    of each channel. *)
Theorem predictor_agreement {M R : Type} `{!StationaryModel M} `{!Range7 R}
    (w w' : Wav16.t (M:=M) (R:=R)) (S : list Z) (n : Z) :
  range7_roundtrip (R:=R) -> model_in_range (M:=M) ->
  Forall octet S -> Z.of_nat (length S) <= 2 ^ 64 - 4 ->
  0 <= n <= Z.of_nat (length S) ->
  let fs := take (frame_count n) (frames_of S) in
  let ra := channel_residuals 0 0 (map fst fs) in
  let rb := channel_residuals 0 0 (map snd fs) in
  (forall (w0 : Wav16.t (M:=M) (R:=R)) fuel max_count c1 c2 c3 c4 sin sout
          i h,
     i < max_count -> c1 <> EOF ->
     let a := (c1 + c2 * 256) mod 2 ^ 16 in
     let b := (c3 + c4 * 256) mod 2 ^ 16 in
     Wav16.compress_loop (Datatypes.S fuel) max_count
       (Wav16.mkenc w0 (c1 :: c2 :: c3 :: c4 :: sin) sout i h)
     = '(w1, so1, _) ← Wav16.processSample false w0 sout 0 0
           ((a - (2 * Wav16.last_a h - Wav16.last_a2 h)) mod 2 ^ 16);
       '(w2, so2, _) ← Wav16.processSample false w1 so1 0 1
           ((b - (2 * Wav16.last_b h - Wav16.last_b2 h)) mod 2 ^ 16);
       Wav16.compress_loop fuel max_count
         (Wav16.mkenc w2 sin so2 (wrap64 (i + 4))
            (Wav16.mkhist a b (Wav16.last_a h) (Wav16.last_b h)
                          (Wav16.last_a2 h) (Wav16.last_b2 h)))) /\
  (forall (w0 : Wav16.t (M:=M) (R:=R)) fuel sin sout max_count h,
     4 <= max_count < 2 ^ 64 ->
     Wav16.decompress_loop (Datatypes.S fuel)
       (Wav16.mkdec w0 sin sout max_count h)
     = '(w1, si1, res_a) ← Wav16.processSample true w0 sin 0 0 0;
       '(w2, si2, res_b) ← Wav16.processSample true w1 si1 0 1 0;
       let a := (2 * Wav16.last_a h - Wav16.last_a2 h + res_a) mod 2 ^ 16 in
       let b := (2 * Wav16.last_b h - Wav16.last_b2 h + res_b) mod 2 ^ 16 in
       Wav16.decompress_loop fuel
         (Wav16.mkdec w2 si2 (sout ++ frame_octets (a, b)) (max_count - 4)
            (Wav16.mkhist a b (Wav16.last_a h) (Wav16.last_b h)
                          (Wav16.last_a2 h) (Wav16.last_b2 h)))) /\
  exists w_all rest_all out,
    Wav16.compress w S (Z.of_nat (length S)) = Some (w_all, rest_all, out) /\
    exists se sd,
      Wav16.compress_loop (Datatypes.S (length S)) n
        (Wav16.mkenc (Wav16.set_ent (Wav16.init w) rc_new) S [] 0
                     Wav16.hist0) = Some se /\
      Wav16.decompress_loop (Datatypes.S (Z.to_nat n))
        (Wav16.mkdec
           (Wav16.set_ent (Wav16.init w')
              (initDecoder (Wav16.ent (Wav16.init w')) out).1)
           (initDecoder (Wav16.ent (Wav16.init w')) out).2 [] n
           Wav16.hist0) = Some sd /\
      (Wav16.ent (Wav16.e_w se), Wav16.e_sout se)
      = enc_events (rc_new, [])
          (run_residuals (vec_new (2 ^ 16)) (zip ra rb)).2 /\
      Wav16.models_ (Wav16.e_w se)
      = (run_residuals (vec_new (2 ^ 16)) (zip ra rb)).1 /\
      Wav16.models_ (Wav16.d_w sd)
      = (run_residuals (vec_new (2 ^ 16)) (zip ra rb)).1 /\
      zip (channel_samples 0 0 ra) (channel_samples 0 0 rb) = fs /\
      Wav16.d_sout sd
      = take (Z.to_nat n)
          (concat (map frame_octets
                     (zip (channel_samples 0 0 ra)
                          (channel_samples 0 0 rb)))) /\
      Wav16.e_hist se = described_hist fs /\
      Wav16.d_hist sd = described_hist fs.
Proof.
  intros Hrt Hrange Hoct Hlen Hn fs ra rb.
  split.
  { intros w0 fuel max_count c1 c2 c3 c4 sin sout i h Hi Hc1 a b.
    rewrite compress_frame_step by done. cbv zeta.
    unfold Wav16.pred_a, Wav16.pred_b, Wav16.shift_hist, wrap16.
    rewrite !Zminus_mod_idemp_r. reflexivity. }
  split.
  { intros w0 fuel sin sout max_count h Hmc.
    rewrite decompress_frame_step by done.
    destruct (Wav16.processSample true w0 sin 0 0 0) as [[[w1 si1] res_a]|];
      [|done].
    cbn [mbind option_bind]. cbv beta iota.
    destruct (Wav16.processSample true w1 si1 0 1 0)
      as [[[w2 si2] res_b]|]; [|done].
    cbn [mbind option_bind]. cbv beta iota zeta.
    unfold Wav16.pred_a, Wav16.pred_b, Wav16.shift_hist, wrap16.
    rewrite !Zplus_mod_idemp_l. reflexivity. }
  set (L := Z.of_nat (length S)) in *.
  rewrite (compress_run w S L) by (done || lia).
  assert (HfsL : take (frame_count L) (frames_of S) = frames_of S)
    by (apply take_ge; rewrite frames_of_length; fold L; lia).
  rewrite HfsL.
  set (k := frame_count n) in *. set (fsall := frames_of S) in *.
  assert (Hk : length fs = k).
  { unfold fs. rewrite length_take. unfold fsall.
    rewrite frames_of_length. fold L.
    pose proof (frame_count_mono n L ltac:(lia)). unfold k. lia. }
  assert (Hfok : Forall frame_ok fs) by (apply Forall_take, frames_of_ok).
  set (ms0 := vec_new (T:=M) (2 ^ 16)).
  set (r_all := run_frames ms0 Wav16.hist0 (Wav16.touched_ w) fsall).
  set (rn := run_frames ms0 Wav16.hist0 [] fs).
  assert (Hrn : forall t, run_frames ms0 Wav16.hist0 t fs
                = mkrun (r_models rn) (r_hist rn) (r_events rn)
                        (r_touched rn ++ t))
    by (intros t; apply run_frames_touched).
  set (rest := r_events (run_frames (r_models rn) (r_hist rn)
                           (r_touched rn ++ Wav16.touched_ w)
                           (drop k fsall))).
  assert (Hsplit : r_events r_all = r_events rn ++ rest).
  { unfold r_all, rest.
    rewrite <- (take_drop k fsall) at 1. fold fs.
    rewrite run_frames_app. cbn [r_events]. rewrite Hrn.
    by cbn [r_events r_models r_hist r_touched]. }
  clearbody rest.
  assert (Hval : Forall valid_event (r_events r_all))
    by (apply run_valid; [done|apply vec_new_reachable]).
  pose proof (Hrt (r_events r_all) (Wav16.ent w') Hval) as Hok.
  rewrite Hsplit in Hok at 1.
  destruct (run_frames_residuals fs ms0 Wav16.hist0 []) as [Hrm Hre].
  cbn [Wav16.hist0 Wav16.last_a Wav16.last_a2 Wav16.last_b Wav16.last_b2]
    in Hrm, Hre.
  fold ra rb rn in Hrm, Hre.
  assert (Hrh : r_hist rn = described_hist fs)
    by (unfold rn; rewrite run_frames_hist; apply described_hist_foldl).
  eexists _, _, _. split; [done|].
  rewrite !init_eq. cbn [Wav16.init Wav16.ent].
  destruct (initDecoder (Wav16.ent w') (encoded (r_events r_all)))
    as [e sin].
  cbn [fst snd].
  rewrite compress_loop_run by (done || lia). rewrite Z.sub_0_r.
  fold k fsall fs ms0.
  destruct (decompress_loop_run fs (Datatypes.S (Z.to_nat n))
              ms0 e (Wav16.opt_var w') (Wav16.touched_ w') sin [] n
              Wav16.hist0 rest) as (e' & sin' & -> & _).
  { done. }
  { pose proof (frame_count_bounds n ltac:(lia)) as Hb. fold k in Hb. lia. }
  { done. }
  { lia. }
  { rewrite Hk. apply frame_count_bounds. lia. }
  { rewrite Hrn. done. }
  eexists _, _. split; [done|]. split; [done|].
  cbn [Wav16.e_hist Wav16.d_hist Wav16.e_w Wav16.d_w Wav16.e_sout
       Wav16.d_sout Wav16.ent Wav16.models_].
  rewrite !Hrn. cbn [r_hist r_models r_events].
  pose proof (frames_samples fs Hfok) as Hzs. fold ra rb in Hzs.
  rewrite Hzs.
  split. { rewrite <- Hre. by rewrite <- surjective_pairing. }
  split; [exact Hrm|]. split; [exact Hrm|]. split; [done|].
  split; [done|]. split; exact Hrh.
Qed.

Lemma predictor_agreement_witness :
  range7_roundtrip (R:=StoreCoder.t) /\ model_in_range (M:=Z) /\
  Forall octet S7 /\ Z.of_nat (length S7) <= 2 ^ 64 - 4 /\
  0 <= 7 <= Z.of_nat (length S7) /\
  exists w_all rest_all out,
    Wav16.compress W0 S7
                   (Z.of_nat (length S7)) = Some (w_all, rest_all, out) /\
    exists se sd,
      Wav16.compress_loop (Datatypes.S (length S7)) 7
        (Wav16.mkenc (Wav16.set_ent (Wav16.init W0) rc_new) S7 [] 0
                     Wav16.hist0) = Some se /\
      Wav16.decompress_loop (Datatypes.S (Z.to_nat 7))
        (Wav16.mkdec
           (Wav16.set_ent (Wav16.init W0)
              (initDecoder (Wav16.ent (Wav16.init W0)) out).1)
           (initDecoder (Wav16.ent (Wav16.init W0)) out).2 [] 7
           Wav16.hist0) = Some sd /\
      (Wav16.ent (Wav16.e_w se), Wav16.e_sout se)
      = enc_events (rc_new, [])
          (run_residuals (vec_new (2 ^ 16))
             (zip (channel_residuals 0 0 [1; 2])
                  (channel_residuals 0 0 [32767; 65287]))).2 /\
      Wav16.e_hist se = Wav16.mkhist 2 65287 1 32767 0 0 /\
      Wav16.d_hist sd = Wav16.mkhist 2 65287 1 32767 0 0.
Proof.
  split; [exact store_coder_roundtrip|].
  split; [exact fast_bit_model_in_range|].
  split; [exact S7_octets|].
  split; [by vm_compute|].
  split; [by vm_compute|].
  destruct (predictor_agreement W0 W0 S7 7 store_coder_roundtrip
              fast_bit_model_in_range S7_octets)
    as (_ & _ & w_all & rest_all & out & Hc & se & sd & He & Hd & Hev & _
        & _ & _ & _ & Heh & Hdh).
  - by vm_compute.
  - by vm_compute.
  - exists w_all, rest_all, out. split; [exact Hc|].
    exists se, sd. split; [exact He|]. split; [exact Hd|].
    split; [exact Hev|]. split; [exact Heh|exact Hdh].
Defined.

(** ** Wav16: the two channels over a whole run *)

Lemma frames_log_snoc chunks c :
  frames_log (chunks ++ [c]) = frames_log chunks ++ c.2 ++ c.1.
Proof.
  unfold frames_log. rewrite map_app, concat_app. cbn [map concat].
  by rewrite app_nil_r.
Qed.

Lemma frames_log_length chunks :
  Forall chunk_ok chunks ->
  length (frames_log chunks) = (26 * length chunks)%nat.
Proof.
  induction 1 as [|c chunks (H1 & _ & H2 & _) _ IH]; [done|].
  unfold frames_log in *. cbn [map concat length].
  rewrite !length_app, IH, H1, H2. lia.
Qed.

Lemma frames_log_range chunks :
  Forall chunk_ok chunks -> Forall (fun i => 1 <= i < 2 ^ 14) (frames_log chunks).
Proof.
  induction 1 as [|c chunks (_ & H1 & _ & H2) _ IH]; [constructor|].
  unfold frames_log in *. cbn [map concat].
  rewrite !Forall_app. split; [split|exact IH].
  - eapply Forall_impl; [exact H2|]. unfold channel_range. intros; lia.
  - eapply Forall_impl; [exact H1|]. unfold channel_range. intros; lia.
Qed.

Section ChannelProps.

Context {M R : Type} `{!StationaryModel M} `{!Range7 R}.

Import Wav16.

(** A call that returns changes no entry of the table but those whose
    subscripts it logs. *)
Lemma processSample_others kDecode (w w' : t (M:=M) (R:=R)) stream stream'
    context channel c r :
  processSample kDecode w stream context channel c = Some (w', stream', r) ->
  exists new,
    touched_ w' = new ++ touched_ w /\
    forall i, i ∉ new ->
      vload m_init (models_ w') i = vload m_init (models_ w) i.
Proof.
  unfold processSample.
  destruct (decide (_ < _)); [|done].
  destruct (model_loop _ _ _ _) as [s1|] eqn:Hloop; [|done].
  cbn [mbind option_bind]. intros [= <- <- <-].
  destruct (model_loop_frame _ _ _ _ _ Hloop) as (new & Ht & _ & _ & Hf).
  destruct (noise_loop_same kDecode (Z.to_nat (noise_bits_ w)) s1)
    as (Hm & Ht' & _).
  cbn [ps_w] in *.
  exists new. rewrite Hm, Ht'. done.
Qed.

(** A call for a channel on an initialised object: 13 subscripts in the
    part of the channel, and the part of the other channel as it was. *)
Lemma processSample_channel kDecode (w : t (M:=M) (R:=R)) stream channel c :
  (kDecode = true -> range7_bits (R:=R)) ->
  initialised w -> channel = 0 \/ channel = 1 ->
  exists w' stream' r new,
    processSample kDecode w stream 0 channel c = Some (w', stream', r) /\
    same_shape w w' /\
    touched_ w' = new ++ touched_ w /\
    length new = 13%nat /\
    Forall (channel_range channel) new /\
    (forall i, channel_range (1 - channel) i ->
       vload m_init (models_ w') i = vload m_init (models_ w) i).
Proof.
  intros Hbits Hw Hch.
  destruct (processSample_ok kDecode w stream channel c Hbits Hw Hch)
    as (w' & stream' & r & new & Hp & Hsh & Ht & Hlen & Hall).
  exists w', stream', r, new.
  split; [done|]. split; [done|]. split; [done|]. split; [done|].
  split; [exact Hall|].
  destruct (processSample_others _ _ _ _ _ _ _ _ _ Hp) as (new' & Ht' & Hf).
  assert (new' = new) as -> by (rewrite Ht in Ht'; by apply app_inv_tail in Ht').
  intros i Hi. apply Hf. intros Hin.
  rewrite Forall_forall in Hall. specialize (Hall i Hin).
  unfold channel_range in *. destruct Hch as [-> | ->]; lia.
Qed.

(** The loop of [compress]: the log grows frame by frame, by the
    subscripts of the call for channel 0 and then those of the call for
    channel 1. *)
Lemma compress_loop_chunks max_count fuel :
  forall s : enc_state (M:=M) (R:=R),
  initialised (e_w s) -> (length (e_sin s) < fuel)%nat ->
  exists s' chunks,
    compress_loop fuel max_count s = Some s' /\
    same_shape (e_w s) (e_w s') /\
    touched_ (e_w s') = frames_log chunks ++ touched_ (e_w s) /\
    Forall chunk_ok chunks.
Proof.
  induction fuel as [|fuel IH]; intros s Hw Hfuel; [lia|].
  rewrite compress_loop_S. case_decide as Hlt.
  2:{ exists s, []. by repeat split. }
  cbv zeta.
  destruct (stream_get (e_sin s)) as [c1 s1] eqn:Hg1.
  destruct (stream_get s1) as [c2 s2] eqn:Hg2.
  destruct (stream_get s2) as [c3 s3] eqn:Hg3.
  destruct (stream_get s3) as [c4 s4] eqn:Hg4.
  case_decide as Heof.
  { eexists _, []. by repeat split. }
  pose proof (stream_get_more _ _ _ Hg1 Heof).
  pose proof (stream_get_length _ _ _ Hg2).
  pose proof (stream_get_length _ _ _ Hg3).
  pose proof (stream_get_length _ _ _ Hg4).
  edestruct (processSample_channel false (e_w s) (e_sout s) 0) as
    (w1 & so1 & r1 & new1 & -> & Hsh1 & Ht1 & Hl1 & Hall1 & _);
    [done|done|by left|].
  cbn [mbind option_bind]. cbv beta iota zeta.
  edestruct (processSample_channel false w1 so1 1) as
    (w2 & so2 & r2 & new2 & -> & Hsh2 & Ht2 & Hl2 & Hall2 & _);
    [done|by eapply initialised_shape|by right|].
  cbn [mbind option_bind]. cbv beta iota zeta.
  match goal with
  | |- context [compress_loop fuel max_count ?s2] =>
      destruct (IH s2) as (s' & chunks & -> & Hsh & Ht & Hall)
  end.
  { cbn [e_w]. eapply initialised_shape; [|done].
    by eapply initialised_shape. }
  { cbn [e_sin]. lia. }
  cbn [e_w] in Hsh, Ht.
  exists s', (chunks ++ [(new1, new2)]). split; [done|].
  split. { eapply same_shape_trans; [|done]. by eapply same_shape_trans. }
  split. { by rewrite Ht, Ht2, Ht1, frames_log_snoc, <- !app_assoc. }
  apply Forall_app. split; [done|]. by repeat constructor.
Qed.

(** The loop of [decompress], on any input. *)
Lemma decompress_loop_chunks fuel :
  forall s : dec_state (M:=M) (R:=R),
  range7_bits (R:=R) -> initialised (d_w s) ->
  0 <= d_max_count s < 2 ^ 64 -> (Z.to_nat (d_max_count s) < fuel)%nat ->
  exists s' chunks,
    decompress_loop fuel s = Some s' /\
    same_shape (d_w s) (d_w s') /\
    touched_ (d_w s') = frames_log chunks ++ touched_ (d_w s) /\
    Forall chunk_ok chunks /\
    length chunks = frame_count (d_max_count s).
Proof.
  induction fuel as [|fuel IH]; intros s Hbits Hw Hmc Hfuel; [lia|].
  rewrite decompress_loop_S. case_decide as Hlt.
  2:{ exists s, []. split; [done|]. split; [done|]. split; [done|].
      split; [done|]. by rewrite frame_count_le by lia. }
  cbv zeta.
  edestruct (processSample_channel true (d_w s) (d_sin s) 0 0) as
    (w1 & si1 & r1 & new1 & -> & Hsh1 & Ht1 & Hl1 & Hall1 & _);
    [done|done|by left|].
  cbn [mbind option_bind]. cbv beta iota zeta.
  edestruct (processSample_channel true w1 si1 1 0) as
    (w2 & si2 & r2 & new2 & -> & Hsh2 & Ht2 & Hl2 & Hall2 & _);
    [done|by eapply initialised_shape|by right|].
  cbn [mbind option_bind]. cbv beta iota zeta.
  rewrite put_if4 by (done || lia || apply wrap16_range).
  match goal with
  | |- context [decompress_loop fuel ?s2] =>
      destruct (IH s2) as (s' & chunks & -> & Hsh & Ht & Hall & Hcount)
  end.
  { done. }
  { cbn [d_w]. eapply initialised_shape; [|done].
    by eapply initialised_shape. }
  { cbn [d_max_count]. lia. }
  { cbn [d_max_count]. lia. }
  cbn [d_w d_max_count] in Hsh, Ht, Hcount.
  exists s', (chunks ++ [(new1, new2)]). split; [done|].
  split. { eapply same_shape_trans; [|done]. by eapply same_shape_trans. }
  split. { by rewrite Ht, Ht2, Ht1, frames_log_snoc, <- !app_assoc. }
  split. { apply Forall_app. split; [done|]. by repeat constructor. }
  rewrite length_app, Hcount. cbn [length].
  rewrite (frame_count_succ (d_max_count s)) by lia.
  destruct (decide (d_max_count s - 4 <= 0)).
  - rewrite Z.max_r by lia. rewrite !frame_count_le by lia. lia.
  - rewrite Z.max_l by lia. lia.
Qed.

Lemma run_frames_touched_length fs : forall (ms : vec M) h t,
  length (r_touched (run_frames ms h t fs)) = (26 * length fs + length t)%nat.
Proof.
  induction fs as [|f fs IH]; intros ms h t; [done|].
  cbn [run_frames r_touched length]. rewrite IH.
  rewrite !length_app, !length_rev. unfold sample_walk.
  rewrite !walk_indices_length, !length_take, !bits_msb_length.
  cbn [length]. lia.
Qed.

End ChannelProps.

(** C10.  A call of [processSample] for a channel, on an object that
    [init] has set up, subscripts the table 13 times, every time in the
    part of that channel, [1, 2^13) for channel 0 and [2^13 + 1, 2^14)
    for channel 1, and leaves every entry of the part of the other
    channel as it was; the two parts have no index in common.  Over a
    whole run of [compress], and of [decompress] with a coder that
    returns bits, the log of subscripts is made of one chunk for each
    frame coded: the 13 subscripts of the call for channel 0, all in the
    part of channel 0, then the 13 of the call for channel 1, all in the
    part of channel 1.  So no entry is subscripted for both channels, and
    every subscript is below [2 ^ 14].  [decompress] logs
    [frame_count max_count] chunks, [compress] on octets as many as the
    count and the input allow. *)
Theorem channels_disjoint {M R : Type} `{!StationaryModel M} `{!Range7 R}
    (w : Wav16.t (M:=M) (R:=R)) kDecode stream channel c in_stream max_count :
  range7_bits (R:=R) -> initialised w -> channel = 0 \/ channel = 1 ->
  0 <= max_count < 2 ^ 64 ->
  (exists w' stream' r new,
     Wav16.processSample kDecode w stream 0 channel c
     = Some (w', stream', r) /\
     Wav16.touched_ w' = new ++ Wav16.touched_ w /\
     length new = 13%nat /\
     Forall (channel_range channel) new /\
     (forall i, channel_range (1 - channel) i ->
        vload m_init (Wav16.models_ w') i
        = vload m_init (Wav16.models_ w) i)) /\
  (forall i, channel_range 0 i <-> 1 <= i < 2 ^ 13) /\
  (forall i, channel_range 1 i <-> 2 ^ 13 + 1 <= i < 2 ^ 14) /\
  (forall i, ~ (channel_range 0 i /\ channel_range 1 i)) /\
  (exists w' rest out chunks,
     Wav16.compress w in_stream max_count = Some (w', rest, out) /\
     Wav16.touched_ w' = frames_log chunks ++ Wav16.touched_ w /\
     Forall chunk_ok chunks /\
     Forall (fun i => 1 <= i < 2 ^ 14) (frames_log chunks) /\
     (Forall octet in_stream -> max_count <= 2 ^ 64 - 4 ->
      length chunks
      = Nat.min (frame_count max_count)
                (frame_count (Z.of_nat (length in_stream))))) /\
  (exists w' rest out chunks,
     Wav16.decompress w in_stream max_count = Some (w', rest, out) /\
     Wav16.touched_ w' = frames_log chunks ++ Wav16.touched_ w /\
     Forall chunk_ok chunks /\
     Forall (fun i => 1 <= i < 2 ^ 14) (frames_log chunks) /\
     length chunks = frame_count max_count).
Proof.
  intros Hbits Hw Hch Hmc.
  split.
  { destruct (processSample_channel kDecode w stream channel c
                (fun _ => Hbits) Hw Hch)
      as (w' & stream' & r & new & Hp & _ & Ht & Hlen & Hall & Hkeep).
    by exists w', stream', r, new. }
  split. { intros i. unfold channel_range. lia. }
  split. { intros i. unfold channel_range. lia. }
  split. { intros i. unfold channel_range. lia. }
  split.
  - pose proof (compress_run w in_stream max_count) as Hrun.
    cbv zeta in Hrun. revert Hrun. unfold Wav16.compress.
    destruct (compress_loop_chunks max_count (S (length in_stream))
                (Wav16.mkenc (Wav16.set_ent (Wav16.init w) rc_new)
                   in_stream [] 0 Wav16.hist0))
      as (s' & chunks & -> & Hsh & Ht & Hall).
    { by vm_compute. }
    { cbn [Wav16.e_sin]. lia. }
    cbn [mbind option_bind].
    destruct (flush (Wav16.ent (Wav16.e_w s')) (Wav16.e_sout s')) as [e so].
    intros Hrun.
    exists (Wav16.set_ent (Wav16.e_w s') e), (Wav16.e_sin s'), so, chunks.
    split; [done|]. split; [exact Ht|]. split; [done|].
    split; [by apply frames_log_range|].
    intros Hoct Hle. specialize (Hrun Hoct Hle).
    apply (f_equal (fun o => match o with
                             | Some (w', _, _) => Wav16.touched_ w'
                             | None => []
                             end)) in Hrun.
    cbn [Wav16.touched_ Wav16.set_ent] in Hrun.
    cbn [Wav16.e_w Wav16.touched_ Wav16.set_ent Wav16.init] in Ht.
    rewrite Ht in Hrun. apply (f_equal length) in Hrun.
    rewrite run_frames_touched_length, length_app in Hrun.
    rewrite frames_log_length in Hrun by done.
    rewrite length_take, frames_of_length in Hrun. lia.
  - unfold Wav16.decompress.
    destruct (initDecoder (Wav16.ent (Wav16.init w)) in_stream) as [e sin].
    destruct (decompress_loop_chunks (S (Z.to_nat max_count))
                (Wav16.mkdec (Wav16.set_ent (Wav16.init w) e) sin []
                   max_count Wav16.hist0))
      as (s' & chunks & -> & Hsh & Ht & Hall & Hcount).
    { done. }
    { by vm_compute. }
    { done. }
    { cbn [Wav16.d_max_count]. lia. }
    cbn [mbind option_bind].
    exists (Wav16.d_w s'), (Wav16.d_sin s'), (Wav16.d_sout s'), chunks.
    split; [done|]. split; [exact Ht|]. split; [done|].
    split; [by apply frames_log_range|done].
Qed.

Lemma channels_disjoint_witness :
  range7_bits (R:=StoreCoder.t) /\ initialised (Wav16.init W0) /\
  (1 = 0 \/ 1 = 1) /\ 0 <= 7 < 2 ^ 64 /\
  (exists w' stream' r new,
     Wav16.processSample true (Wav16.init W0) [] 0 1 0
     = Some (w', stream', r) /\
     Forall (channel_range 1) new /\
     forall i, channel_range 0 i ->
       vload m_init (Wav16.models_ w') i
       = vload m_init (Wav16.models_ (Wav16.init W0)) i) /\
  (exists w' rest out chunks,
     Wav16.compress (Wav16.init W0) S7 7 = Some (w', rest, out) /\
     Wav16.touched_ w'
     = frames_log chunks ++ Wav16.touched_ (Wav16.init W0) /\
     Forall chunk_ok chunks /\ length chunks = 2%nat) /\
  exists w' rest out chunks,
    Wav16.decompress (Wav16.init W0) [0; 1; 1; 0] 7 = Some (w', rest, out) /\
    Wav16.touched_ w' = frames_log chunks ++ Wav16.touched_ (Wav16.init W0) /\
    Forall chunk_ok chunks /\ length chunks = 2%nat.
Proof.
  split; [exact store_coder_bits|].
  split; [apply init_initialised|]. split; [by right|]. split; [lia|].
  destruct (channels_disjoint (Wav16.init W0) true [] 1 0 S7 7)
    as ((w1 & st1 & r1 & new1 & Hp & _ & _ & Hall1 & Hkeep) & _ & _ & _
        & (w2 & rest2 & out2 & ch2 & Hc & Ht2 & Hok2 & _ & Hn2) & _).
  { exact store_coder_bits. }
  { apply init_initialised. }
  { by right. }
  { lia. }
  destruct (channels_disjoint (Wav16.init W0) true [] 1 0 [0; 1; 1; 0] 7)
    as (_ & _ & _ & _ & _
        & (w3 & rest3 & out3 & ch3 & Hd & Ht3 & Hok3 & _ & Hn3)).
  { exact store_coder_bits. }
  { apply init_initialised. }
  { by right. }
  { lia. }
  split.
  { exists w1, st1, r1, new1. split; [exact Hp|].
    split; [exact Hall1|exact Hkeep]. }
  split.
  { exists w2, rest2, out2, ch2. split; [exact Hc|]. split; [exact Ht2|].
    split; [exact Hok2|]. rewrite Hn2; [reflexivity| |lia].
    unfold S7. repeat constructor; unfold octet; lia. }
  exists w3, rest3, out3, ch3. split; [exact Hd|]. split; [exact Ht3|].
  split; [exact Hok3|]. rewrite Hn3. reflexivity.
Defined.
